(** * 7ZipFuzzer: the mutation engine, the oracle adapter and the fuzzing loop

    A shallow embedding of [fuzzer_zip.py].  Byte buffers are lists of
    integers, Python's [random] module is an oracle tape that every call
    consumes one draw of, the mutated [bytearray] is a cell of the state that
    the strategies update in place, and Python exceptions are a second kind of
    outcome that carries the state reached when they were raised. *)

From stdpp Require Import base numbers list list_numbers strings gmap.
From Stdlib Require Import ZArith Lia.

Open Scope Z_scope.

(** ** Buffers *)

Abbreviation bytes := (list Z).

Definition is_byte (b : Z) : Prop := 0 ≤ b < 256.

(** A [bytes] or [bytearray] object holds integers of [range(256)] only. *)
Definition wf_bytes (l : bytes) : Prop := Forall is_byte l.

(** [len(data)] *)
Definition len {A} (l : list A) : Z := Z.of_nat (length l).

(** Python's slice bounds: a negative bound counts from the end, and both
    bounds are clamped to the sequence. *)
Definition clamp (n i : Z) : Z :=
  if i <? 0 then Z.max 0 (i + n) else Z.min i n.

(** [data[lo:hi]] *)
Definition slice (l : bytes) (lo hi : Z) : bytes :=
  let a := clamp (len l) lo in
  let b := clamp (len l) hi in
  take (Z.to_nat (b - a)) (drop (Z.to_nat a) l).

(** ** The log *)

Inductive level : Set := DEBUG | INFO | WARNING | ERROR | CRITICAL.

#[global] Instance level_eq_dec : EqDecision level.
Proof. solve_decision. Defined.

(** The messages the program logs, with the values their f-strings print
    (timestamps, rates and exception texts are left out). *)
Inductive message : Set :=
  | BaseZipNotFound (path : string)
  | SevenZipNotFound
  | SevenZipPath (path : string)
  | BaseZip (path : string)
  | CreatingBaseZip (path : string)
  | BaseZipCreated
  | MutationFailed
  | TimeoutTesting (iteration : Z)
  | ErrorTesting (iteration : Z)
  | FatalErrorCode2
  | MemoryErrorCode8
  | CrashIndicatorFound
  | CrashDetected (iteration : Z)
  | ErrorSavingCrash
  | Progress (iterations crashes : Z)
  | StartingFuzzing (iterations : Z)
  | BaseZipLoaded (size : Z)
  | StoppingEarly
  | FuzzingError
  | FuzzingCompleted (crashes : Z)
  | FatalError
  | LogFile.

Abbreviation log_record := (level * message)%type.

(** ** The monad of the mutation engine *)

Inductive exn : Set := ValueError | IndexError.

(** [buf] is the bytearray [mutated_data] the strategies share and update in
    place; [rnd] is what remains of the random oracle's tape; [logged] is
    what the logger has received. *)
Record mstate := MState { buf : bytes; rnd : nat → Z; logged : list log_record }.

(** [Diverge] is a [while] loop that has used up its fuel. *)
Inductive outcome (A : Type) :=
  | Ret (a : A) (s : mstate)
  | Raise (e : exn) (s : mstate)
  | Diverge.
Arguments Ret {A} a s.
Arguments Raise {A} e s.
Arguments Diverge {A}.

Definition M (A : Type) : Type := mstate → outcome A.

Definition ret {A} (a : A) : M A := fun s => Ret a s.

Definition bind {A B} (m : M A) (k : A → M B) : M B := fun s =>
  match m s with
  | Ret a s' => k a s'
  | Raise e s' => Raise e s'
  | Diverge => Diverge
  end.

Definition raise {A} (e : exn) : M A := fun s => Raise e s.

(** [try: m  except Exception as e: h e] *)
Definition try_except {A} (m : M A) (h : exn → M A) : M A := fun s =>
  match m s with
  | Raise e s' => h e s'
  | o => o
  end.

Declare Scope py_scope.
Delimit Scope py_scope with py.
Notation "'let*' x ':=' m 'in' k" := (bind m (fun x => k))
  (at level 10, x name, m at level 100, k at level 200) : py_scope.
Notation "m ';;' k" := (bind m (fun _ => k))
  (at level 100, k at level 200, right associativity) : py_scope.
Open Scope py_scope.

(** ** Loops *)

(** [for x in l: body x] *)
Fixpoint for_ {A} (l : list A) (body : A → M unit) : M unit :=
  match l with
  | [] => ret tt
  | x :: r => body x ;; for_ r body
  end.

(** [for x in l: body x], where [body] answers [true] when it ends in
    [break]. *)
Fixpoint for_break {A} (l : list A) (body : A → M bool) : M unit :=
  match l with
  | [] => ret tt
  | x :: r => let* b := body x in if b : bool then ret tt else for_break r body
  end.

(** [while cond: a = body a], with [a] the local variables the loop
    carries. *)
Fixpoint while_ {A} (fuel : nat) (cond : A → mstate → bool)
    (body : A → M A) (a : A) {struct fuel} : M A := fun s =>
  if cond a s then
    match fuel with
    | O => Diverge
    | S f => bind (body a) (while_ f cond body) s
    end
  else Ret a s.

(** The scans below advance by at least one byte a turn, so the length of
    the buffer, plus one, is fuel enough ([wp_scan] proves it). *)
Definition with_fuel {A} (m : nat → M A) : M A := fun s =>
  m (S (length (buf s))) s.

(** [range(a, b)] *)
Definition range (a b : Z) : list Z := seqZ a (b - a).

(** ** Python primitives *)

(** One draw of the oracle. *)
Definition draw : M Z := fun s =>
  Ret (rnd s 0%nat) (MState (buf s) (fun n => rnd s (S n)) (logged s)).

(** [random.randint(a, b)]: [ValueError] on an empty range. *)
Definition randint (a b : Z) : M Z :=
  if b <? a then raise ValueError
  else let* r := draw in ret (a + r mod (b - a + 1)).

(** [random.random() < p], for [p] given in thousandths: the float is
    read off the tape on a grid of a thousand points of [0, 1). *)
Definition random_lt (permille : Z) : M bool :=
  let* r := draw in ret (r mod 1000 <? permille).

(** [random.choice(l)]: [IndexError] on an empty sequence; [d] is never
    returned. *)
Definition choice {A} (d : A) (l : list A) : M A :=
  match l with
  | [] => raise IndexError
  | _ => let* r := draw in ret (nth (Z.to_nat (r mod len l)) l d)
  end.

(** [os.urandom(n)] *)
Fixpoint urandom (n : nat) : M bytes :=
  match n with
  | O => ret []
  | S k => let* r := draw in let* rest := urandom k in ret (r mod 256 :: rest)
  end.

Definition os_urandom (n : Z) : M bytes :=
  if n <? 0 then raise ValueError else urandom (Z.to_nat n).

(** [len(data)] on the shared bytearray *)
Definition data_len : M Z := fun s => Ret (len (buf s)) s.

(** [bytes(data)] *)
Definition data_bytes : M bytes := fun s => Ret (buf s) s.

(** A subscript: negative indices count from the end. *)
Definition index (n i : Z) : option nat :=
  let j := if i <? 0 then i + n else i in
  if (0 <=? j) && (j <? n) then Some (Z.to_nat j) else None.

(** [data[i]] *)
Definition getitem (i : Z) : M Z := fun s =>
  match index (len (buf s)) i with
  | Some j => Ret (nth j (buf s) 0) s
  | None => Raise IndexError s
  end.

(** [data[i] = v]: [IndexError] out of range, then [ValueError] when [v] is
    not in [range(256)]. *)
Definition setitem (i v : Z) : M unit := fun s =>
  match index (len (buf s)) i with
  | Some j =>
      if (0 <=? v) && (v <? 256)
      then Ret tt (MState (<[j := v]> (buf s)) (rnd s) (logged s))
      else Raise ValueError s
  | None => Raise IndexError s
  end.

(** [data[pos:pos + 4] == signature] *)
Definition sig_at (pos : Z) (signature : bytes) : M bool := fun s =>
  Ret (bool_decide (slice (buf s) pos (pos + 4) = signature)) s.

(** ** The container model *)

Definition local_sig : bytes := [0x50; 0x4B; 0x03; 0x04].
Definition central_sig : bytes := [0x50; 0x4B; 0x01; 0x02].

Definition headers : list bytes :=
  [ [0x50; 0x4B; 0x03; 0x04]; [0x50; 0x4B; 0x01; 0x02];
    [0x50; 0x4B; 0x05; 0x06]; [0x50; 0x4B; 0x06; 0x07];
    [0x50; 0x4B; 0x07; 0x08]; [0x50; 0x4B; 0x08; 0x07] ].

Definition method_codes : list Z := [0; 1; 8; 9; 12; 14; 96; 99; 255].

Definition boundary_values : list Z :=
  [0x00; 0xFF; 0x7F; 0x80; 0xFFFF; 0xFFFFFFFF].

(** ** The ten strategies *)

Definition _corrupt_local_headers : M bytes :=
  with_fuel (fun fuel =>
    while_ fuel (fun pos s => pos <? len (buf s) - 4)
      (fun pos =>
         let* found := sig_at pos local_sig in
         if found : bool then
           let* n := data_len in
           let header_size := Z.min 30 (n - pos) in
           for_ (range 4 header_size) (fun i =>
             let* hit := random_lt 400 in
             if hit : bool then
               let* v := randint 0 255 in setitem (pos + i) v
             else ret tt) ;;
           ret (pos + header_size + 1)
         else ret (pos + 1))
      0) ;;
  data_bytes.

Definition _corrupt_central_directory : M bytes :=
  with_fuel (fun fuel =>
    while_ fuel (fun pos s => pos <? len (buf s) - 4)
      (fun pos =>
         let* found := sig_at pos central_sig in
         if found : bool then
           let* n := data_len in
           let header_size := Z.min 46 (n - pos) in
           for_ (range 4 header_size) (fun i =>
             let* hit := random_lt 300 in
             if hit : bool then
               let* v := randint 0 255 in setitem (pos + i) v
             else ret tt) ;;
           ret (pos + header_size + 1)
         else ret (pos + 1))
      0) ;;
  data_bytes.

Definition _mutate_compression_methods : M bytes :=
  for_ [local_sig; central_sig] (fun signature =>
    with_fuel (fun fuel =>
      while_ fuel (fun pos s => pos <? len (buf s) - 8)
        (fun pos =>
           let* found := sig_at pos signature in
           (if found : bool then
              let* n := data_len in
              if pos + 8 <? n then
                let* c := choice 0 method_codes in setitem (pos + 8) c
              else ret tt
            else ret tt) ;;
           ret (pos + 1))
        0) ;;
    ret tt) ;;
  data_bytes.

Definition _corrupt_crc_values : M bytes :=
  for_ [local_sig; central_sig] (fun signature =>
    with_fuel (fun fuel =>
      while_ fuel (fun pos s => pos <? len (buf s) - 16)
        (fun pos =>
           let* found := sig_at pos signature in
           (if found : bool then
              let crc_offset := if bool_decide (signature = local_sig) then 14 else 16 in
              let* n := data_len in
              if pos + crc_offset + 4 <? n then
                for_ (range 0 4) (fun i =>
                  let* v := randint 0 255 in setitem (pos + crc_offset + i) v)
              else ret tt
            else ret tt) ;;
           ret (pos + 1))
        0) ;;
    ret tt) ;;
  data_bytes.

Definition _mutate_file_sizes : M bytes :=
  with_fuel (fun fuel =>
    while_ fuel (fun pos s => pos <? len (buf s) - 26)
      (fun pos =>
         let* found := sig_at pos local_sig in
         if found : bool then
           for_ [18; 22] (fun offset =>
             let* n := data_len in
             if pos + offset + 4 <? n then
               let* size := randint 0 0xFFFFFFFF in
               for_ (range 0 4) (fun i =>
                 setitem (pos + offset + i) (Z.land (Z.shiftr size (i * 8)) 0xFF))
             else ret tt) ;;
           ret (pos + 30 + 1)
         else ret (pos + 1))
      0) ;;
  data_bytes.

(** [new_data[position:position] = payload] on a copy of the buffer. *)
Definition insert_at (l : bytes) (position : Z) (payload : bytes) : bytes :=
  let p := Z.to_nat (clamp (len l) position) in
  take p l ++ payload ++ drop p l.

Definition _inject_random_headers : M bytes :=
  let* n := data_len in
  if n <? 5000 then
    let* header := choice [] headers in
    let* position := randint 0 n in
    let* k := randint 10 100 in
    let* extra_data := os_urandom k in
    let* data := data_bytes in
    ret (insert_at data position (header ++ extra_data))
  else data_bytes.

Definition _bit_flip_mutation : M bytes :=
  let* n := data_len in
  let* num_mutations := randint 1 (Z.min 100 (n / 10)) in
  for_break (range 0 num_mutations) (fun _ =>
    let* n := data_len in
    if n =? 0 then ret true
    else
      let* pos := randint 0 (n - 1) in
      let* k := randint 0 7 in
      let bit_mask := Z.shiftl 1 k in
      let* b := getitem pos in
      setitem pos (Z.lxor b bit_mask) ;;
      ret false) ;;
  data_bytes.

Definition _boundary_value_mutation : M bytes :=
  let* n := data_len in
  (if 10 <? n then
     let* num_mutations := randint 1 20 in
     for_break (range 0 num_mutations) (fun _ =>
       let* n := data_len in
       let* pos := randint 0 (n - 1) in
       let* single := random_lt 300 in
       if single : bool then
         let* c := choice 0 boundary_values in
         setitem pos (Z.land c 0xFF) ;;
         ret false
       else
         let* n := data_len in
         let* length := randint 2 (Z.min 8 (n - pos)) in
         for_ (range 0 length) (fun i =>
           let* n := data_len in
           if pos + i <? n then
             let* value := choice 0 boundary_values in
             for_ (range 0 (Z.min 4 (length - i))) (fun j =>
               let* n := data_len in
               if pos + i + j <? n then
                 setitem (pos + i + j) (Z.land (Z.shiftr value (j * 8)) 0xFF)
               else ret tt)
           else ret tt) ;;
         ret true)
   else ret tt) ;;
  data_bytes.

Definition _repeat_byte_mutation : M bytes :=
  let* n := data_len in
  (if 20 <? n then
     let* pattern := randint 0 255 in
     let* start_pos := randint 0 (n - 10) in
     let* n := data_len in
     let* length := randint 5 (Z.min 50 (n - start_pos)) in
     for_ (range 0 length) (fun i =>
       let* n := data_len in
       if start_pos + i <? n then setitem (start_pos + i) pattern else ret tt)
   else ret tt) ;;
  data_bytes.

Inductive operation : Set := Add | Sub | Mul.

Definition _arithmetic_mutation : M bytes :=
  let* n := data_len in
  (if 10 <? n then
     let* pos := randint 0 (n - 1) in
     let* operation := choice Add [Add; Sub; Mul] in
     let* value := randint 1 255 in
     let* b := getitem pos in
     match operation with
     | Add => setitem pos (Z.land (b + value) 0xFF)
     | Sub => setitem pos (Z.land (b - value) 0xFF)
     | Mul => setitem pos (Z.land (b * value) 0xFF)
     end
   else ret tt) ;;
  data_bytes.

(** ** The dispatcher *)

(** The [if]/[elif] chain of [mutate_zip_structure]. *)
Definition dispatch (mutation_type : Z) : M bytes :=
  if mutation_type =? 1 then _corrupt_local_headers
  else if mutation_type =? 2 then _corrupt_central_directory
  else if mutation_type =? 3 then _mutate_compression_methods
  else if mutation_type =? 4 then _corrupt_crc_values
  else if mutation_type =? 5 then _mutate_file_sizes
  else if mutation_type =? 6 then _inject_random_headers
  else if mutation_type =? 7 then _bit_flip_mutation
  else if mutation_type =? 8 then _boundary_value_mutation
  else if mutation_type =? 9 then _repeat_byte_mutation
  else _arithmetic_mutation.

(** [mutated_data = bytearray(data)]: a fresh bytearray takes the place of
    whatever the cell held. *)
Definition new_bytearray (data : bytes) : M unit := fun s =>
  Ret tt (MState data (rnd s) (logged s)).

(** [logger.warning(...)] and the like *)
Definition logger (l : level) (m : message) : M unit := fun s =>
  Ret tt (MState (buf s) (rnd s) (logged s ++ [(l, m)])).

Definition mutate_zip_structure (data : bytes) : M bytes :=
  if len data =? 0 then ret data
  else
    new_bytearray data ;;
    let* mutation_type := randint 1 10 in
    try_except (dispatch mutation_type)
      (fun _ => logger WARNING MutationFailed ;; _bit_flip_mutation).

(** A tape that plays the draws of [l], then zeros. *)
Definition tape (l : list Z) : nat → Z := fun n => nth n l 0.

(** The buffer a call returns, when it returns one. *)
Definition returned {A} (o : outcome A) : option A :=
  match o with Ret a _ => Some a | _ => None end.

(** ** The oracle adapter *)

(** What [subprocess.run] hands back. *)
Record process_result := ProcessResult {
  stdout : bytes;
  stderr : bytes;
  returncode : Z
}.

Definition crash_indicators : list string :=
  [ "Exception"; "Access violation"; "Segmentation fault"; "CRASH";
    "Stack overflow"; "Heap corruption"; "Fatal error"; "Internal error" ]%string.

(** [needle in text] *)
Fixpoint contains (needle text : string) : bool :=
  String.prefix needle text ||
  match text with
  | EmptyString => false
  | String _ rest => contains needle rest
  end.

(** How a run of the external tool ends: it exits, [subprocess.run] raises
    [TimeoutExpired], or it raises anything else. *)
Inductive tool_run :=
  | Exited (p : process_result)
  | TimedOut
  | NotLaunched.

(** What the file system answers during one iteration: whether the
    temporary file could be written, how the tool ran, whether
    [os.makedirs] made the crash directory, and whether the files of the
    crash record could all be written. *)
Record io_env := IoEnv {
  temp_file_written : bool;
  tool : tool_run;
  crash_dir_made : bool;
  crash_files_written : bool
}.

(** ** The crash archiver and the scheduler *)

(** A directory under [crashes/]: the iteration in its name, the candidate,
    the diagnostics, and whether all its files were written. *)
Record crash_record := CrashRecord {
  cr_iteration : Z;
  cr_data : bytes;
  cr_process : option process_result;
  cr_complete : bool
}.

(** The attributes of the fuzzer that change ([crash_count],
    [iteration_count]), the world around it (the files by path, the crash
    directories, the runs of the external tool with their verdicts, the
    log), the tape of the random oracle, and the paths at which [open]
    and [zipfile.ZipFile] raise [OSError]: a directory, a file the process
    may not read, a path under a directory that is not there.  A path can
    exist and be denied (its content is then never read), or be neither. *)
Record state := State {
  crash_count : Z;
  iteration_count : Z;
  files : gmap string bytes;
  crash_records : list crash_record;
  tested : list (Z * bool);
  log : list log_record;
  random : nat → Z;
  denied : gset string
}.

(** The attributes [__init__] sets once. *)
Record fuzzer := Fuzzer {
  base_zip_path : string;
  sevenzip_path : string;
  debug : bool
}.

Definition add_log (l : level) (m : message) (s : state) : state :=
  State (crash_count s) (iteration_count s) (files s) (crash_records s)
        (tested s) (log s ++ [(l, m)]) (random s) (denied s).

Definition add_logs (records : list log_record) (s : state) : state :=
  State (crash_count s) (iteration_count s) (files s) (crash_records s)
        (tested s) (log s ++ records) (random s) (denied s).

Definition set_iteration_count (i : Z) (s : state) : state :=
  State (crash_count s) i (files s) (crash_records s) (tested s) (log s)
        (random s) (denied s).

Definition incr_crash_count (s : state) : state :=
  State (crash_count s + 1) (iteration_count s) (files s) (crash_records s)
        (tested s) (log s) (random s) (denied s).

Definition add_crash_record (c : crash_record) (s : state) : state :=
  State (crash_count s) (iteration_count s) (files s) (crash_records s ++ [c])
        (tested s) (log s) (random s) (denied s).

Definition add_tested (i : Z) (verdict : bool) (s : state) : state :=
  State (crash_count s) (iteration_count s) (files s) (crash_records s)
        (tested s ++ [(i, verdict)]) (log s) (random s) (denied s).

Definition write_file (path : string) (content : bytes) (s : state) : state :=
  State (crash_count s) (iteration_count s) (<[path := content]> (files s))
        (crash_records s) (tested s) (log s) (random s) (denied s).

(** The engine has run: its tape and its log are the state's. *)
Definition after_engine (m : mstate) (s : state) : state :=
  State (crash_count s) (iteration_count s) (files s) (crash_records s)
        (tested s) (logged m) (rnd m) (denied s).

(** [os.path.exists(path)] *)
Definition path_exists (path : string) (s : state) : bool :=
  bool_decide (is_Some (files s !! path)).

(** [open(path, 'rb').read()]: [None] when the call raises, the file being
    missing or the path denied. *)
Definition open_rb (path : string) (s : state) : option bytes :=
  if bool_decide (path ∈ denied s) then None else files s !! path.

(** The text of a [str] as the bytes [writestr] stores (the texts below are
    ASCII). *)
Definition encode (text : string) : bytes :=
  map (fun c => Z.of_nat (Ascii.nat_of_ascii c)) (String.list_ascii_of_string text).

(** [text * n] *)
Fixpoint str_mul (text : string) (n : nat) : string :=
  match n with
  | O => EmptyString
  | S k => String.append text (str_mul text k)
  end.

(** What [create_base_zip] writes into the archive, entry by entry. *)
Definition base_entries : list (string * bytes) :=
  [ ("normal_file.txt"%string,
     encode (str_mul "This is a normal text file for fuzzing" 10));
    ("binary_data.bin"%string, map (fun i => i mod 256) (range 0 1000));
    ("empty_file.txt"%string, encode "");
    ("folder/nested_file.txt"%string, encode "Nested file content");
    (String.append "very_long_name_" (String.append (str_mul "x" 100) ".txt"),
     encode "File with long name") ].

Inductive stop : Set := Completed | EarlyLimit | RunError.

Definition possible_paths : list string :=
  [ "C:\Program Files\7-Zip\7z.exe"; "C:\Program Files (x86)\7-Zip\7z.exe";
    "C:\Program Files\7-Zip\7zG.exe"; "C:\Program Files (x86)\7-Zip\7zG.exe"
  ]%string.

(** The command line. *)
Record arguments := Arguments_ {
  arg_base_zip : string;
  arg_iterations : Z;
  arg_sevenzip_path : option string;
  arg_debug : bool;
  arg_output_dir : string
}.

Section Harness.

(** [bytes.decode('utf-8', errors='ignore')], of Python's library. *)
Variable decode : bytes → string.

(** The bytes [zipfile.ZipFile] writes for a list of entries. *)
Variable zip_archive : list (string * bytes) → bytes.

(** [None] is the timeout; the second component is what [logger.debug]
    receives. *)
Definition analyze_7zip_result (process_result : option process_result)
    : bool * list log_record :=
  match process_result with
  | None => (true, [])
  | Some p =>
      let stdout := decode (stdout p) in
      let stderr := decode (stderr p) in
      if returncode p =? 2 then (true, [(DEBUG, FatalErrorCode2)])
      else if returncode p =? 8 then (true, [(DEBUG, MemoryErrorCode8)])
      else if existsb (fun indicator => contains indicator stdout) crash_indicators
              || existsb (fun indicator => contains indicator stderr) crash_indicators
      then (true, [(DEBUG, CrashIndicatorFound)])
      else (false, [])
  end.

(** The verdict, the process handle, and what the logger receives; the test
    file is the one of the iteration. *)
Definition run_7zip_test (iteration : Z) (run : tool_run)
    : bool * option process_result * list log_record :=
  match run with
  | Exited p =>
      let '(verdict, records) := analyze_7zip_result (Some p) in
      (verdict, Some p, records)
  | TimedOut => (true, None, [(WARNING, TimeoutTesting iteration)])
  | NotLaunched => (false, None, [(ERROR, ErrorTesting iteration)])
  end.

(** [inl]: the call returns; [inr]: an exception leaves it. *)
Definition save_crash (io : io_env) (iteration : Z) (data : bytes)
    (process_result : option process_result) (s : state) : state + state :=
  let s := incr_crash_count s in
  if crash_dir_made io then
    if crash_files_written io then
      inl (add_log WARNING (CrashDetected iteration)
             (add_crash_record (CrashRecord iteration data process_result true) s))
    else
      inl (add_log ERROR ErrorSavingCrash
             (add_crash_record (CrashRecord iteration data process_result false) s))
  else inr s.

(** [start_time] holds [time.time()], which is not zero, so the line is
    always logged; the rate and the elapsed time are left out. *)
Definition print_stats (s : state) : state :=
  add_log INFO (Progress (iteration_count s) (crash_count s)) s.

(** The body of the [try] of [fuzz]: the [for] loop over the iterations
    that remain.  An exception of the engine, of the write of the temporary
    file or of [save_crash] ends it ([RunError]); the removal of the
    temporary file is in a [try] of its own and changes nothing here.  A
    [KeyboardInterrupt] comes from outside the program and is not part of
    the model. *)
Fixpoint fuzz_loop (env : Z → io_env) (base_data : bytes) (todo : list Z)
    (s : state) : stop * state :=
  match todo with
  | [] => (Completed, s)
  | i :: rest =>
      let s := set_iteration_count i s in
      match mutate_zip_structure base_data (MState [] (random s) (log s)) with
      | Ret mutated_data m =>
          let s := after_engine m s in
          if temp_file_written (env i) then
            let '(crash_detected, process_result, records) :=
              run_7zip_test i (tool (env i)) in
            let s := add_tested i crash_detected (add_logs records s) in
            match
              (if crash_detected
               then save_crash (env i) i mutated_data process_result s
               else inl s)
            with
            | inl s =>
                let s :=
                  if (i mod 100 =? 0) || crash_detected then print_stats s
                  else s in
                if 50 <=? crash_count s then (EarlyLimit, add_log INFO StoppingEarly s)
                else fuzz_loop env base_data rest s
            | inr s => (RunError, s)
            end
          else (RunError, s)
      | Raise _ m => (RunError, after_engine m s)
      | Diverge => (RunError, s)
      end
  end.

(** [fuzz]: [None] when the base file cannot be opened, an exception that
    leaves the method. *)
Definition fuzz (self : fuzzer) (iterations : Z) (env : Z → io_env)
    (s : state) : option (stop * state) :=
  let s := add_log INFO (StartingFuzzing iterations) s in
  match open_rb (base_zip_path self) s with
  | None => None
  | Some base_data =>
      let s := add_log INFO (BaseZipLoaded (len base_data)) s in
      let '(why, s) := fuzz_loop env base_data (range 1 (iterations + 1)) s in
      let s :=
        match why with
        | RunError => add_log ERROR FuzzingError s
        | _ => s
        end in
      let s := print_stats s in
      Some (why, add_log INFO (FuzzingCompleted (crash_count s)) s)
  end.

Definition find_7zip (s : state) : option string :=
  List.find (fun path => path_exists path s) possible_paths.

(** [SevenZipFuzzer(...)]: the counters start from zero; [None] is
    [sys.exit(1)]. *)
Definition init (base_zip_path : string) (sevenzip_path : option string)
    (debug : bool) (s : state) : option fuzzer * state :=
  let s :=
    State 0 0 (files s) (crash_records s) (tested s) (log s) (random s) (denied s) in
  let sevenzip_path :=
    match sevenzip_path with
    | Some path => if bool_decide (path = ""%string) then find_7zip s else Some path
    | None => find_7zip s
    end in
  if negb (path_exists base_zip_path s) then
    (None, add_log ERROR (BaseZipNotFound base_zip_path) s)
  else
    match sevenzip_path with
    | None => (None, add_log ERROR SevenZipNotFound s)
    | Some path =>
        if bool_decide (path = ""%string) then (None, add_log ERROR SevenZipNotFound s)
        else
          (Some (Fuzzer base_zip_path path debug),
           add_log INFO (BaseZip base_zip_path) (add_log INFO (SevenZipPath path) s))
    end.

(** [inl]: the call returns; [inr]: [zipfile.ZipFile(path, 'w')] raises
    [OSError], the file cannot be created, and nothing catches it here. *)
Definition create_base_zip (self : fuzzer) (s : state) : state + state :=
  if negb (path_exists (base_zip_path self) s) then
    let s := add_log INFO (CreatingBaseZip (base_zip_path self)) s in
    if bool_decide (base_zip_path self ∈ denied s) then inr s
    else
      let s := write_file (base_zip_path self) (zip_archive base_entries) s in
      inl (add_log INFO BaseZipCreated s)
  else inl s.

(** [main]: the exit status of the process and the state it leaves.  The
    [sys.exit(1)] of the constructor passes the [except Exception]; an
    exception of [create_base_zip], or of [fuzz] before its own [try] (the
    seed archive cannot be opened), is caught, logged as critical and gives
    status 1. *)
Definition main (args : arguments) (env : Z → io_env) (s : state) : Z * state :=
  match init (arg_base_zip args) (arg_sevenzip_path args) (arg_debug args) s with
  | (None, s) => (1, add_log INFO LogFile s)
  | (Some self, s) =>
      match create_base_zip self s with
      | inr s => (1, add_log INFO LogFile (add_log CRITICAL FatalError s))
      | inl s =>
          match fuzz self (arg_iterations args) env s with
          | None =>
              (1, add_log INFO LogFile (add_log CRITICAL FatalError
                    (add_log INFO (StartingFuzzing (arg_iterations args)) s)))
          | Some (_, s) => (0, add_log INFO LogFile s)
          end
      end
  end.

End Harness.

(** The state a process starts in: the files on disk, all of which can be
    opened, and the tape. *)
Definition initial (disk : gmap string bytes) (tape : nat → Z) : state :=
  State 0 0 disk [] [] [] tape ∅.

(* ================================================================== *)
(** * Specifications *)

(** ** A program logic for the engine's monad

    [wp m s Q E]: from [s], [m] terminates; it either returns a value and a
    state that satisfy [Q], or raises an exception in a state satisfying
    [E]. *)

Definition wp {A} (m : M A) (s : mstate)
    (Q : A → mstate → Prop) (E : exn → mstate → Prop) : Prop :=
  match m s with
  | Ret a s' => Q a s'
  | Raise e s' => E e s'
  | Diverge => False
  end.

(** A buffer of [n] bytes. *)
Definition keeps (n : Z) (b : bytes) : Prop := len b = n ∧ wf_bytes b.

(** What a strategy that works in place returns: a buffer of the length of
    its input, the bytearray still being one. *)
Definition shape (n : Z) (out : bytes) (s : mstate) : Prop :=
  keeps n out ∧ keeps n (buf s).

Definition no_exn : exn → mstate → Prop := fun _ _ => False.

(** What a strategy may raise: only [ValueError], and the bytearray is still
    a buffer of the same length. *)
Definition value_error (n : Z) (P : Prop) : exn → mstate → Prop :=
  fun e s => e = ValueError ∧ keeps n (buf s) ∧ P.

(** Header injection grows a buffer under 5000 bytes by 14 to 104 bytes
    and leaves a larger one alone. *)
Definition injected (n : Z) (out : bytes) (s : mstate) : Prop :=
  wf_bytes out ∧ keeps n (buf s) ∧
  (if n <? 5000 then n + 14 ≤ len out ≤ n + 104 else len out = n).

(** The strategy a call of [mutate_zip_structure] draws from the state it is
    entered in. *)
Definition mutation_type (s : mstate) : Z := 1 + rnd s 0%nat mod 10.

(** What the dispatcher returns: a buffer of the same length, or, from
    header injection under 5000 bytes, one that is 14 to 104 bytes longer. *)
Definition mutated (n t : Z) (out : bytes) : Prop :=
  wf_bytes out ∧
  (if (t =? 6) && (n <? 5000) then n + 14 ≤ len out ≤ n + 104 else len out = n).

(** [_corrupt_local_headers] and [_corrupt_central_directory] are one scan
    that differs in the signature, in the size of the header (30 and 46) and
    in the probability of a byte being overwritten (0.4 and 0.3). *)
Definition corrupt_headers (signature : bytes) (size permille : Z) : M bytes :=
  with_fuel (fun fuel =>
    while_ fuel (fun pos s => pos <? len (buf s) - 4)
      (fun pos =>
         let* found := sig_at pos signature in
         if found : bool then
           let* n := data_len in
           let header_size := Z.min size (n - pos) in
           for_ (range 4 header_size) (fun i =>
             let* hit := random_lt permille in
             if hit : bool then
               let* v := randint 0 255 in setitem (pos + i) v
             else ret tt) ;;
           ret (pos + header_size + 1)
         else ret (pos + 1))
      0) ;;
  data_bytes.

(** The nine strategies that work in place. *)
Definition in_place_strategies : list (M bytes) :=
  [ _corrupt_local_headers; _corrupt_central_directory;
    _mutate_compression_methods; _corrupt_crc_values; _mutate_file_sizes;
    _bit_flip_mutation; _boundary_value_mutation; _repeat_byte_mutation;
    _arithmetic_mutation ].

(** The offsets at which a signature stands in a buffer. *)
Definition occurrences (signature data : bytes) : list Z :=
  filter (fun pos => slice data pos (pos + 4) = signature) (seqZ 0 (len data)).

(** The number of positions at which two buffers differ. *)
Fixpoint count_diff (a b : bytes) : nat :=
  match a, b with
  | x :: a', y :: b' => ((if bool_decide (x = y) then 0 else 1) + count_diff a' b')%nat
  | _, _ => 0%nat
  end.

(** Two bytes that differ in exactly one bit. *)
Definition differ_in_one_bit (x y : Z) : Prop :=
  ∃ k, 0 ≤ k ≤ 7 ∧ Z.lxor x y = Z.shiftl 1 k.

(** The flips (position, mask) that [k] turns of the bit-flip loop read off
    the tape, for a buffer of [n] bytes. *)
Fixpoint drawn_flips (k : nat) (n : Z) (r : nat → Z) : list (nat * Z) :=
  match k with
  | O => []
  | S k' =>
      (Z.to_nat (0 + r 0%nat mod (n - 1 - 0 + 1)),
       Z.shiftl 1 (0 + r 1%nat mod (7 - 0 + 1)))
      :: drawn_flips k' n (fun i => r (S (S i)))
  end.

(** The flips of one call of [_bit_flip_mutation]: the first draw is their
    number. *)
Definition bit_flips (data : bytes) (r : nat → Z) : list (nat * Z) :=
  let n := len data in
  let num_mutations := 1 + r 0%nat mod (Z.min 100 (n / 10) - 1 + 1) in
  drawn_flips (Z.to_nat num_mutations) n (fun i => r (S i)).

Definition apply_flips (flips : list (nat * Z)) (data : bytes) : bytes :=
  fold_left (fun d f => <[f.1 := Z.lxor (nth f.1 d 0) f.2]> d) flips data.

(** The runs of the external tool that ended in a crash-like verdict. *)
Definition crash_like (runs : list (Z * bool)) : nat :=
  length (filter (fun run => run.2 = true) runs).

(** The counter agrees with the verdicts seen, and the crash directories
    with the counter. *)
Definition counted (s : state) : Prop :=
  crash_count s = Z.of_nat (crash_like (tested s)) ∧
  Z.of_nat (length (crash_records s)) = crash_count s.

(** An iteration that reaches a crash-like verdict and archives it: the
    temporary file is written, the tool's run is classified as a crash, and
    the crash directory is made. *)
Definition crash_like_iteration (decode : bytes → string) (env : Z → io_env)
    (i : Z) : Prop :=
  temp_file_written (env i) = true ∧
  (run_7zip_test decode i (tool (env i))).1.1 = true ∧
  crash_dir_made (env i) = true.

(** Stand-ins for the two library functions, for the examples. *)
Definition decode_ascii (b : bytes) : string :=
  String.string_of_list_ascii (map (fun c => Ascii.ascii_of_nat (Z.to_nat c)) b).

Definition stored_archive (entries : list (string * bytes)) : bytes :=
  local_sig ++ concat (map (fun e => encode e.1 ++ e.2) entries).

(** An environment in which every run of the tool times out and every file
    operation succeeds. *)
Definition always_timeout : Z → io_env := fun _ => IoEnv true TimedOut true true.

(** One in which the crash directory of the first iteration cannot be
    made, and one in which its files cannot be written. *)
Definition no_crash_dir : Z → io_env := fun _ => IoEnv true TimedOut false true.

Definition no_crash_files : Z → io_env := fun _ => IoEnv true TimedOut true false.

Definition sample_seed : bytes := local_sig ++ replicate 18 0.

Definition sample_fuzzer : fuzzer := Fuzzer "seed.zip" "7z.exe" false.

Definition sample_disk : gmap string bytes :=
  {[ "seed.zip"%string := sample_seed; "7z.exe"%string := [] ]}.

Definition sample_arguments : arguments :=
  Arguments_ "seed.zip" 100 (Some "7z.exe"%string) false "fuzzed_files".

(** A disk that holds the tool and no seed archive. *)
Definition disk_without_seed : gmap string bytes := {[ "7z.exe"%string := [] ]}.

(** [needle] stands somewhere in [text]. *)
Definition is_substring (needle text : string) : Prop :=
  ∃ before after : string,
    text = String.append before (String.append needle after).

(** An iteration whose verdict is benign: the temporary file is written and
    the tool's run is not classified as a crash. *)
Definition benign_iteration (decode : bytes → string) (env : Z → io_env)
    (i : Z) : Prop :=
  temp_file_written (env i) = true ∧
  (run_7zip_test decode i (tool (env i))).1.1 = false.

(** A tool path is given on the command line, or one of the standard
    places holds the tool. *)
Definition tool_resolves (sevenzip_path : option string) (s : state) : Prop :=
  (∃ path, sevenzip_path = Some path ∧ path ≠ ""%string) ∨
  (∃ path, path ∈ possible_paths ∧ path_exists path s = true).

(** An environment in which the tool is never launched. *)
Definition never_launched : Z → io_env := fun _ => IoEnv true NotLaunched true true.

(** Each crash directory is complete exactly when its files could be
    written. *)
Definition records_reflect (env : Z → io_env) (records : list crash_record) : Prop :=
  Forall (fun r => cr_complete r = crash_files_written (env (cr_iteration r))) records.

(** An environment in which the files of every second crash record cannot
    be written. *)
Definition flaky_crash_files : Z → io_env :=
  fun i => IoEnv true TimedOut true (i mod 2 =? 0).

(** The signatures a header-driven strategy (1 to 5) scans for. *)
Definition searched (mutation_type : Z) : list bytes :=
  if mutation_type =? 2 then [central_sig]
  else if (mutation_type =? 3) || (mutation_type =? 4) then [local_sig; central_sig]
  else [local_sig].

(** A buffer in which none of the signatures stands anywhere. *)
Definition free_of (signatures : list bytes) (data : bytes) : Prop :=
  Forall (fun signature => occurrences signature data = []) signatures.

(** Every position at which [out] differs from [data] lies in the field
    [lo, hi) of a header whose signature stands in [data]. *)
Definition only_header_fields (signature : bytes) (lo hi : Z)
    (data out : bytes) : Prop :=
  len out = len data ∧
  ∀ i : nat, out !! i ≠ data !! i →
    ∃ p, p ∈ occurrences signature data ∧ p + lo ≤ Z.of_nat i < p + hi.

(** The state of a scan that has come to [pos]: the buffer is still the
    input from [pos] on. *)
Definition scanned_to (signature : bytes) (lo hi : Z) (data : bytes)
    (pos : Z) (b : bytes) : Prop :=
  (∀ i : nat, pos ≤ Z.of_nat i → b !! i = data !! i) ∧
  only_header_fields signature lo hi data b.

(** The first offset a header-driven strategy (1 to 5) can write at. *)
Definition first_touched (mutation_type : Z) : nat :=
  if mutation_type <=? 2 then 4
  else if mutation_type =? 3 then 8
  else if mutation_type =? 4 then 14
  else 18.

(** A buffer of the length of [data] that starts with the same [k] bytes. *)
Definition same_start (k : nat) (data b : bytes) : Prop :=
  len b = len data ∧ take k b = take k data.

(** [data] with the [length] bytes from [start] on overwritten by
    [pattern]. *)
Definition with_run (data : bytes) (start length : nat) (pattern : Z) : bytes :=
  take start data ++ replicate length pattern ++ drop (start + length) data.

(** The byte an arithmetic operation makes of [b]. *)
Definition apply_operation (op : operation) (b value : Z) : Z :=
  match op with
  | Add => Z.land (b + value) 0xFF
  | Sub => Z.land (b - value) 0xFF
  | Mul => Z.land (b * value) 0xFF
  end.

(** [b] is [a] but for the bytes of the window [start, start + width). *)
Definition differs_within (start width : nat) (a b : bytes) : Prop :=
  length b = length a ∧
  ∀ i : nat, b !! i ≠ a !! i → (start ≤ i < start + width)%nat.

(** The most positions a byte-level strategy (7 to 10) can change in a
    buffer of [n] bytes, the fallback of the dispatcher counted in. *)
Definition change_bound (mutation_type n : Z) : Z :=
  if mutation_type =? 7 then Z.min 100 (n / 10)
  else if mutation_type =? 8 then Z.max 27 (19 + Z.min 100 (n / 10))
  else if mutation_type =? 9 then 50
  else 1.

(** A buffer that one mutation makes of the seed: well formed, and at most
    104 bytes longer. *)
Definition mutant_of (base data : bytes) : Prop :=
  wf_bytes data ∧ len base ≤ len data ≤ len base + 104.

(** An environment in which the temporary file of iteration 3 cannot be
    written, and no tool can be launched. *)
Definition temp_file_fails_at_3 : Z → io_env :=
  fun i => IoEnv (negb (i =? 3)) NotLaunched true true.

(** A start in which the seed path exists and cannot be opened (it is a
    directory, say). *)
Definition unreadable_seed : state :=
  State 0 0 sample_disk [] [] [] (tape []) {[ "seed.zip"%string ]}.

(** Two states of the engine that differ in the log only. *)
Definition same_engine (s s' : mstate) : Prop :=
  buf s = buf s' ∧ rnd s = rnd s'.

(** A computation that does not read the log: from two states that differ
    in the log only it ends in the same way, with the same value, in two
    states that differ in the log only. *)
Definition log_blind {A} (m : M A) : Prop :=
  ∀ s s', same_engine s s' →
    match m s, m s' with
    | Ret a t, Ret a' t' => a = a' ∧ same_engine t t'
    | Raise e t, Raise e' t' => e = e' ∧ same_engine t t'
    | Diverge, Diverge => True
    | _, _ => False
    end.

(** The tape as [i] iterations leave it, in a run that starts from the tape
    [tp]: each iteration draws what one call of [mutate_zip_structure] on
    the seed draws, and nothing else is drawn. *)
Fixpoint tape_before (base : bytes) (tp : nat → Z) (i : nat) : nat → Z :=
  match i with
  | O => tp
  | S j =>
      match mutate_zip_structure base (MState [] (tape_before base tp j) []) with
      | Ret _ m | Raise _ m => rnd m
      | Diverge => tape_before base tp j
      end
  end.

(** The candidate of iteration [i] (counted from 1): what
    [mutate_zip_structure] makes of the seed, on the tape as the iterations
    before have left it. *)
Definition candidate (base : bytes) (tp : nat → Z) (i : Z) : option bytes :=
  returned (mutate_zip_structure base
              (MState [] (tape_before base tp (Z.to_nat (i - 1))) [])).

(* ================================================================== *)
(** * Proofs *)

Section wp_rules.
Context {A : Type}.
Implicit Types (Q : A → mstate → Prop) (E : exn → mstate → Prop).

Lemma wp_ret (a : A) s Q E : Q a s → wp (ret a) s Q E.
Proof. done. Qed.

Lemma wp_raise e s Q E : E e s → wp (raise e) s Q E.
Proof. done. Qed.

Lemma wp_bind {B} (m : M B) (k : B → M A) s Q E :
  wp m s (fun b s' => wp (k b) s' Q E) E → wp (bind m k) s Q E.
Proof. unfold wp, bind. by destruct (m s). Qed.

Lemma wp_mono (m : M A) s Q Q' E E' :
  wp m s Q E →
  (∀ a s', Q a s' → Q' a s') → (∀ e s', E e s' → E' e s') →
  wp m s Q' E'.
Proof. unfold wp. destruct (m s); eauto. Qed.

Lemma wp_try_except (m : M A) h s Q E :
  wp m s Q (fun e s' => wp (h e) s' Q E) → wp (try_except m h) s Q E.
Proof. unfold wp, try_except. by destruct (m s). Qed.

Lemma wp_with_fuel (m : nat → M A) s Q E :
  wp (m (S (length (buf s)))) s Q E → wp (with_fuel m) s Q E.
Proof. done. Qed.

(** The rule of the [while] loop: an invariant, and a variant that the
    fuel bounds. *)
Lemma wp_while (I : A → mstate → Prop) (V : A → mstate → nat) E cond body :
  (∀ a s, I a s → cond a s = true →
     wp (body a) s (fun a' s' => I a' s' ∧ (V a' s' < V a s)%nat) E) →
  ∀ fuel a s, I a s → (V a s < fuel)%nat →
  wp (while_ fuel cond body a) s (fun a' s' => I a' s' ∧ cond a' s' = false) E.
Proof.
  intros Hbody. induction fuel as [|fuel IH]; intros a s HI HV; [lia|].
  unfold wp. simpl. destruct (cond a s) eqn:Hc; [|done].
  specialize (Hbody a s HI Hc). unfold wp, bind in *.
  destruct (body a s) as [a' s'| |]; [|done|done].
  destruct Hbody as [HI' HV']. apply IH; [done|lia].
Qed.
End wp_rules.

Section wp_loops.
Context {A : Type}.

(** [for]: the invariant counts the turns done. *)
Lemma wp_for (I : nat → mstate → Prop) E (body : A → M unit) :
  ∀ l k s,
  (∀ i x s, l !! i = Some x → I (k + i)%nat s →
     wp (body x) s (fun _ s' => I (S (k + i)) s') E) →
  I k s →
  wp (for_ l body) s (fun _ s' => I (k + length l)%nat s') E.
Proof.
  induction l as [|x l IH]; intros k s Hbody HI; simpl.
  - apply wp_ret. by rewrite Nat.add_0_r.
  - apply wp_bind. eapply wp_mono; [apply (Hbody 0%nat x); [done|by rewrite Nat.add_0_r]| |done].
    intros u s' HI'. cbv beta in HI'. rewrite Nat.add_0_r in HI'. clear u.
    replace (k + S (length l))%nat with (S k + length l)%nat by lia.
    apply IH; [|done]. intros i y s'' Hl Hi.
    replace (S k + i)%nat with (k + S i)%nat in * by lia.
    by apply (Hbody (S i)).
Qed.

(** [for] with [break]: the loop stops after any number of turns. *)
Lemma wp_for_break (I : nat → mstate → Prop) E (body : A → M bool) :
  ∀ l k s,
  (∀ i x s, l !! i = Some x → I (k + i)%nat s →
     wp (body x) s (fun _ s' => I (S (k + i)) s') E) →
  I k s →
  wp (for_break l body) s
     (fun _ s' => ∃ j, (j ≤ length l)%nat ∧ I (k + j)%nat s') E.
Proof.
  induction l as [|x l IH]; intros k s Hbody HI; simpl.
  - apply wp_ret. exists 0%nat. by rewrite Nat.add_0_r.
  - apply wp_bind. eapply wp_mono; [apply (Hbody 0%nat x); [done|by rewrite Nat.add_0_r]| |done].
    intros c s' HI'. cbv beta in HI'. rewrite Nat.add_0_r in HI'.
    destruct c.
    + apply wp_ret. exists 1%nat. split; [lia|]. by rewrite Nat.add_1_r.
    + eapply wp_mono; [apply (IH (S k))| |done]; [|done|].
      * intros i y s'' Hl Hi.
        replace (S k + i)%nat with (k + S i)%nat in * by lia.
        by apply (Hbody (S i)).
      * intros _ s'' (j & Hj & HI''). exists (S j). split; [lia|].
        by replace (k + S j)%nat with (S k + j)%nat by lia.
Qed.
End wp_loops.

(** A [for] loop whose invariant does not count. *)
Lemma wp_for_inv {A} (I : mstate → Prop) E (body : A → M unit) l s :
  (∀ x s, x ∈ l → I s → wp (body x) s (fun _ s' => I s') E) →
  I s → wp (for_ l body) s (fun _ s' => I s') E.
Proof.
  intros Hbody HI.
  eapply wp_mono; [apply (wp_for (fun _ => I) E body l 0%nat s)| |]; eauto.
  intros i x s' Hl. apply Hbody. by eapply list_elem_of_lookup_2.
Qed.

Lemma wp_for_break_inv {A} (I : mstate → Prop) E (body : A → M bool) l s :
  (∀ x s, x ∈ l → I s → wp (body x) s (fun _ s' => I s') E) →
  I s → wp (for_break l body) s (fun _ s' => I s') E.
Proof.
  intros Hbody HI.
  eapply wp_mono; [apply (wp_for_break (fun _ => I) E body l 0%nat s)| |]; eauto.
  - intros i x s' Hl. apply Hbody. by eapply list_elem_of_lookup_2.
  - by intros _ s' (_ & _ & ?).
Qed.

(** ** The primitives *)

Section wp_prims.
Context {A : Type}.
Implicit Types (b : bytes) (r : nat → Z) (lg : list log_record).

Lemma wp_draw b r lg (Q : Z → mstate → Prop) E :
  (∀ v r', Q v (MState b r' lg)) → wp draw (MState b r lg) Q E.
Proof. intros H. apply H. Qed.

Lemma wp_randint lo hi b r lg (Q : Z → mstate → Prop) E :
  (hi < lo → E ValueError (MState b r lg)) →
  (lo ≤ hi → ∀ v r', lo ≤ v ≤ hi → Q v (MState b r' lg)) →
  wp (randint lo hi) (MState b r lg) Q E.
Proof.
  intros He Hq. unfold randint. destruct (Z.ltb_spec hi lo).
  - by apply wp_raise, He.
  - apply wp_bind, wp_draw. intros v r'. apply wp_ret, Hq; [done|].
    pose proof (Z.mod_pos_bound v (hi - lo + 1)). lia.
Qed.

Lemma wp_random_lt p b r lg (Q : bool → mstate → Prop) E :
  (∀ c r', Q c (MState b r' lg)) → wp (random_lt p) (MState b r lg) Q E.
Proof. intros H. apply wp_bind, wp_draw. intros v r'. apply wp_ret, H. Qed.

Lemma wp_choice (d : A) (l : list A) b r lg (Q : A → mstate → Prop) E :
  l ≠ [] → (∀ v r', v ∈ l → Q v (MState b r' lg)) →
  wp (choice d l) (MState b r lg) Q E.
Proof.
  intros Hl H. unfold choice. destruct l as [|x l]; [done|].
  apply wp_bind, wp_draw. intros v r'. apply wp_ret, H.
  apply list_elem_of_In, nth_In.
  pose proof (Z.mod_pos_bound v (len (x :: l))). unfold len in *.
  simpl length in *. lia.
Qed.

Lemma wp_urandom n b r lg (Q : bytes → mstate → Prop) E :
  (∀ out r', length out = n → wf_bytes out → Q out (MState b r' lg)) →
  wp (urandom n) (MState b r lg) Q E.
Proof.
  revert r Q. induction n as [|n IH]; intros r Q H; simpl.
  - apply wp_ret, H; [done|constructor].
  - apply wp_bind, wp_draw. intros v r'. apply wp_bind, IH.
    intros out r'' Hlen Hwf. apply wp_ret, H; [simpl; lia|].
    constructor; [|done]. apply Z.mod_pos_bound. lia.
Qed.

Lemma wp_os_urandom n b r lg (Q : bytes → mstate → Prop) E :
  0 ≤ n →
  (∀ out r', len out = n → wf_bytes out → Q out (MState b r' lg)) →
  wp (os_urandom n) (MState b r lg) Q E.
Proof.
  intros Hn H. unfold os_urandom. destruct (Z.ltb_spec n 0); [lia|].
  apply wp_urandom. intros out r' Hlen. apply H. unfold len. lia.
Qed.

Lemma wp_data_len s (Q : Z → mstate → Prop) E :
  Q (len (buf s)) s → wp data_len s Q E.
Proof. done. Qed.

Lemma wp_data_bytes s (Q : bytes → mstate → Prop) E :
  Q (buf s) s → wp data_bytes s Q E.
Proof. done. Qed.

Lemma wp_sig_at pos sig s (Q : bool → mstate → Prop) E :
  (∀ c, c = bool_decide (slice (buf s) pos (pos + 4) = sig) → Q c s) →
  wp (sig_at pos sig) s Q E.
Proof. intros H. by apply H. Qed.

Lemma index_in_range n i : 0 ≤ i < n → index n i = Some (Z.to_nat i).
Proof.
  intros Hi. unfold index. destruct (Z.ltb_spec i 0); [lia|].
  destruct (Z.leb_spec 0 i); [|lia]. destruct (Z.ltb_spec i n); [done|lia].
Qed.

Lemma wp_getitem i b r lg (Q : Z → mstate → Prop) E :
  0 ≤ i < len b → Q (nth (Z.to_nat i) b 0) (MState b r lg) →
  wp (getitem i) (MState b r lg) Q E.
Proof. intros Hi H. unfold wp, getitem. simpl. by rewrite index_in_range. Qed.

Lemma wp_setitem i v b r lg (Q : unit → mstate → Prop) E :
  0 ≤ i < len b → is_byte v → Q tt (MState (<[Z.to_nat i := v]> b) r lg) →
  wp (setitem i v) (MState b r lg) Q E.
Proof.
  intros Hi [Hv1 Hv2] H. unfold wp, setitem. simpl. rewrite index_in_range by done.
  destruct (Z.leb_spec 0 v); [|lia]. by destruct (Z.ltb_spec v 256); [|lia].
Qed.
End wp_prims.

(** ** The strategies keep the buffer a buffer *)

Arguments choice : simpl never.
Arguments randint : simpl never.
Arguments random_lt : simpl never.
Arguments os_urandom : simpl never.
Arguments setitem : simpl never.
Arguments getitem : simpl never.
Arguments sig_at : simpl never.
Arguments data_len : simpl never.
Arguments data_bytes : simpl never.
Arguments for_ : simpl never.
Arguments for_break : simpl never.
Arguments while_ : simpl never.
Arguments range : simpl never.


Lemma elem_of_range x a b : x ∈ range a b ↔ a ≤ x < b.
Proof. unfold range. rewrite elem_of_seqZ. lia. Qed.

Lemma keeps_insert n b i v :
  keeps n b → is_byte v → keeps n (<[i := v]> b).
Proof.
  intros [Hl Hw] Hv. split.
  - unfold len in *. by rewrite length_insert.
  - by apply Forall_insert.
Qed.

Lemma is_byte_land x : is_byte (Z.land x 0xFF).
Proof.
  unfold is_byte. change 0xFF with (Z.ones 8). rewrite Z.land_ones by lia.
  apply Z.mod_pos_bound. lia.
Qed.

Ltac wp_prim :=
  lazymatch goal with
  | |- wp (bind _ _) _ _ _ => apply wp_bind
  | |- wp (ret _) _ _ _ => apply wp_ret
  | |- wp data_len _ _ _ => apply wp_data_len
  | |- wp data_bytes _ _ _ => apply wp_data_bytes
  | |- wp (sig_at _ _) _ _ _ => apply wp_sig_at; intros ? ?
  | |- wp (random_lt _) _ _ _ => apply wp_random_lt; intros ? ?
  | |- wp draw _ _ _ => apply wp_draw; intros ? ?
  | |- wp (with_fuel _) _ _ _ => apply wp_with_fuel
  | |- wp (if ?c then _ else _) _ _ _ => destruct c eqn:?
  end.

Ltac wp_go := repeat (wp_prim; cbv beta; simpl buf in * ).

Lemma Forall_is_byte_method_codes : Forall is_byte method_codes.
Proof. repeat constructor; unfold is_byte; lia. Qed.

Lemma is_byte_lxor a m : is_byte a → is_byte m → is_byte (Z.lxor a m).
Proof.
  unfold is_byte. intros [Ha1 Ha2] [Hm1 Hm2].
  assert (0 ≤ Z.lxor a m) as Hx by (apply Z.lxor_nonneg; lia).
  split; [done|].
  destruct (decide (Z.lxor a m = 0)) as [->|Hne]; [lia|].
  change 256 with (2 ^ 8). apply Z.log2_lt_pow2; [lia|].
  pose proof (Z.log2_lxor a m Ha1 Hm1).
  assert (Z.log2 a < 8).
  { destruct (decide (a = 0)) as [->|]; [done|]. apply Z.log2_lt_pow2; lia. }
  assert (Z.log2 m < 8).
  { destruct (decide (m = 0)) as [->|]; [done|]. apply Z.log2_lt_pow2; lia. }
  lia.
Qed.

Lemma is_byte_bit_mask k : 0 ≤ k ≤ 7 → is_byte (Z.shiftl 1 k).
Proof.
  intros Hk. rewrite Z.shiftl_1_l. unfold is_byte. split; [apply Z.pow_nonneg; lia|].
  change 256 with (2 ^ 8). apply Z.pow_lt_mono_r; lia.
Qed.

Lemma wf_nth b i : wf_bytes b → is_byte (nth i b 0).
Proof.
  intros Hw. destruct (decide (i < length b)%nat) as [Hi|Hi].
  - by apply (Forall_nth is_byte 0 b).
  - rewrite nth_overflow by lia. unfold is_byte. lia.
Qed.

(** A scan over the buffer: the position advances, the buffer keeps its
    length, so the scan ends before its fuel does. *)
Lemma wp_scan (I : Z → bytes → Prop) K n (body : Z → M Z) s E :
  0 ≤ K →
  (∀ pos b, I pos b → len b = n) →
  I 0 (buf s) →
  (∀ pos s, 0 ≤ pos < n - K → I pos (buf s) →
     wp (body pos) s (fun pos' s' => pos < pos' ∧ I pos' (buf s')) E) →
  wp (with_fuel (fun fuel =>
        while_ fuel (fun pos s => pos <? len (buf s) - K) body 0)) s
     (fun pos s' => I pos (buf s') ∧ 0 ≤ pos ∧ n - K ≤ pos) E.
Proof.
  intros HK Hlen H0 Hbody. apply wp_with_fuel.
  eapply wp_mono;
    [apply (wp_while (fun pos s => 0 ≤ pos ∧ I pos (buf s))
                     (fun pos _ => Z.to_nat (n - pos))) | |done].
  - intros pos s' [Hpos HI] Hc. apply Z.ltb_lt in Hc.
    rewrite (Hlen _ _ HI) in Hc.
    eapply wp_mono; [apply Hbody; [lia|done]| |done].
    intros pos' s'' [Hlt HI']. cbv beta. split; [split; [lia|done]|lia].
  - split; [lia|done].
  - apply Hlen in H0. unfold len in H0. lia.
  - intros pos s' [[Hpos HI] Hc]. apply Z.ltb_ge in Hc.
    rewrite (Hlen _ _ HI) in Hc. done.
Qed.

Lemma keeps_len n b : keeps n b → len b = n.
Proof. by intros [? _]. Qed.

Lemma corrupt_headers_shape sig size p n s :
  0 ≤ size → keeps n (buf s) →
  wp (corrupt_headers sig size p) s (shape n) no_exn.
Proof.
  intros Hsize Hk. unfold corrupt_headers. wp_go.
  eapply wp_mono; [apply (wp_scan (fun _ => keeps n) 4 n); [lia|..]| |done].
  - intros _ b. apply keeps_len.
  - done.
  - clear s Hk. intros pos [b r ?] Hpos Hk. simpl in *.
    pose proof (keeps_len _ _ Hk) as Hn.
    wp_go; [|split; [lia|done]].
    eapply wp_mono; [apply (wp_for_inv (fun s => keeps n (buf s)))| |done]; [|done|].
    + intros i [b' r' ?] Hi Hk'. apply elem_of_range in Hi. simpl in *.
      pose proof (keeps_len _ _ Hk') as Hn'.
      wp_go; [|done].
      apply wp_randint; [lia|]. intros _ v r2 Hv.
      apply wp_setitem; [lia|unfold is_byte; lia|].
      apply keeps_insert; [done|unfold is_byte; lia].
    + intros ? s' Hk'. simpl in Hk'. wp_go. split; [lia|done].
  - intros pos s' [Hk' _]. by wp_go.
Qed.

Lemma corrupt_local_headers_eq :
  _corrupt_local_headers = corrupt_headers local_sig 30 400.
Proof. reflexivity. Qed.

Lemma corrupt_central_directory_eq :
  _corrupt_central_directory = corrupt_headers central_sig 46 300.
Proof. reflexivity. Qed.

Lemma compression_shape n s :
  keeps n (buf s) → wp _mutate_compression_methods s (shape n) no_exn.
Proof.
  intros Hk. unfold _mutate_compression_methods. wp_go.
  eapply wp_mono; [apply (wp_for_inv (fun s => keeps n (buf s)))| |done]; [|done|].
  - clear s Hk. intros sig s _ Hk. wp_go.
    eapply wp_mono; [apply (wp_scan (fun _ => keeps n) 8 n); [lia|..]| |done].
    + intros _ b. apply keeps_len.
    + done.
    + clear s Hk. intros pos [b r ?] Hpos Hk. simpl in *.
      pose proof (keeps_len _ _ Hk) as Hn.
      wp_go; try (split; [lia|done]).
      apply wp_choice; [done|]. intros code r' Hc.
      pose proof (proj1 (Forall_forall _ _) Forall_is_byte_method_codes code Hc).
      apply wp_setitem; [lia|done|]. wp_go. split; [lia|]. by apply keeps_insert.
    + intros pos s' [Hk' _]. by wp_go.
  - intros ? s' Hk'. simpl in Hk'. by wp_go.
Qed.

Lemma crc_shape n s :
  keeps n (buf s) → wp _corrupt_crc_values s (shape n) no_exn.
Proof.
  intros Hk. unfold _corrupt_crc_values. wp_go.
  eapply wp_mono; [apply (wp_for_inv (fun s => keeps n (buf s)))| |done]; [|done|].
  - clear s Hk. intros sig s _ Hk. wp_go.
    eapply wp_mono; [apply (wp_scan (fun _ => keeps n) 16 n); [lia|..]| |done].
    + intros _ b. apply keeps_len.
    + done.
    + clear s Hk. intros pos [b r ?] Hpos Hk. simpl in *.
      pose proof (keeps_len _ _ Hk) as Hn.
      wp_go; try (split; [lia|done]).
      set (off := if bool_decide (sig = local_sig) then 14 else 16) in *.
      assert (0 ≤ off) by (subst off; destruct (bool_decide (sig = local_sig)); lia).
      eapply wp_mono; [apply (wp_for_inv (fun s => keeps n (buf s)))| |done]; [|done|].
      * intros i [b' r' ?] Hi Hk'. apply elem_of_range in Hi. simpl in *.
        pose proof (keeps_len _ _ Hk') as Hn'.
        apply wp_bind, wp_randint; [lia|]. intros _ v r2 Hv.
        apply wp_setitem; [lia|unfold is_byte; lia|].
        apply keeps_insert; [done|unfold is_byte; lia].
      * intros ? s' Hk'. simpl in Hk'. wp_go. split; [lia|done].
    + intros pos s' [Hk' _]. by wp_go.
  - intros ? s' Hk'. simpl in Hk'. by wp_go.
Qed.

Lemma file_sizes_shape n s :
  keeps n (buf s) → wp _mutate_file_sizes s (shape n) no_exn.
Proof.
  intros Hk. unfold _mutate_file_sizes. wp_go.
  eapply wp_mono; [apply (wp_scan (fun _ => keeps n) 26 n); [lia|..]| |done].
  - intros _ b. apply keeps_len.
  - done.
  - clear s Hk. intros pos [b r ?] Hpos Hk. simpl in *.
    wp_go; [|split; [lia|done]].
    eapply wp_mono; [apply (wp_for_inv (fun s => keeps n (buf s)))| |done]; [|done|].
    + intros off [b' r' ?] Hoff Hk'. simpl in *.
      assert (0 ≤ off).
      { repeat (apply elem_of_cons in Hoff as [->|Hoff]; [lia|]). by apply elem_of_nil in Hoff. }
      pose proof (keeps_len _ _ Hk') as Hn'.
      wp_go; [|done].
      apply wp_randint; [lia|]. intros _ size r2 Hv.
      eapply wp_mono; [apply (wp_for_inv (fun s => keeps n (buf s)))| |done]; [|done|done].
      intros i [b2 r3 ?] Hi Hk2. apply elem_of_range in Hi. simpl in *.
      pose proof (keeps_len _ _ Hk2) as Hn2.
      apply wp_setitem; [lia|apply is_byte_land|].
      apply keeps_insert; [done|apply is_byte_land].
    + intros ? s' Hk'. simpl in Hk'. wp_go. split; [lia|done].
  - intros pos s' [Hk' _]. by wp_go.
Qed.

Lemma Forall_headers : Forall (fun h => keeps 4 h) headers.
Proof. repeat constructor; unfold is_byte; lia. Qed.

Lemma Forall_is_byte_boundary c : c ∈ boundary_values → 0 ≤ c.
Proof.
  intros Hc. repeat (apply elem_of_cons in Hc as [->|Hc]; [lia|]).
  by apply elem_of_nil in Hc.
Qed.

Lemma len_app (a b : bytes) : len (a ++ b) = len a + len b.
Proof. unfold len. rewrite length_app. lia. Qed.

Lemma len_insert_at l position payload :
  len (insert_at l position payload) = len l + len payload.
Proof.
  unfold insert_at, len. rewrite !length_app, length_take, length_drop. lia.
Qed.

Lemma wf_insert_at l position payload :
  wf_bytes l → wf_bytes payload → wf_bytes (insert_at l position payload).
Proof.
  intros Hl Hp. unfold insert_at, wf_bytes. rewrite !Forall_app.
  split; [by apply Forall_take|]. split; [done|by apply Forall_drop].
Qed.

Lemma inject_shape n s :
  keeps n (buf s) → wp _inject_random_headers s (injected n) no_exn.
Proof.
  destruct s as [b r ?]. simpl. intros Hk. pose proof (keeps_len _ _ Hk) as Hn.
  assert (0 ≤ n) by (unfold len in Hn; lia).
  unfold _inject_random_headers, injected. wp_go; rewrite Hn in *.
  - apply wp_choice; [done|]. intros h r1 Hh.
    pose proof (proj1 (Forall_forall _ _) Forall_headers h Hh) as [Hh4 Hhw].
    wp_go. apply wp_randint; [lia|]. intros _ position r2 Hpos.
    wp_go. apply wp_randint; [lia|]. intros _ k r3 Hkk.
    wp_go. apply wp_os_urandom; [lia|]. intros extra r4 Hel Hew.
    wp_go. split; [|split; [done|]].
    + apply wf_insert_at; [apply Hk|]. by apply Forall_app.
    + rewrite Heqb0, len_insert_at, len_app. lia.
  - split; [apply Hk|]. split; [done|]. by rewrite Heqb0.
Qed.

Lemma bit_flip_shape n s :
  keeps n (buf s) →
  wp _bit_flip_mutation s (shape n) (value_error n (n < 10)).
Proof.
  destruct s as [b r ?]. simpl. intros Hk. pose proof (keeps_len _ _ Hk) as Hn.
  unfold _bit_flip_mutation. wp_go. rewrite Hn.
  apply wp_randint.
  - intros Hlt. split; [done|]. split; [done|].
    assert (n / 10 < 1) by lia.
    destruct (Z.lt_ge_cases n 10); [done|].
    assert (1 ≤ n / 10) by (apply Z.div_le_lower_bound; lia). lia.
  - intros _ num r1 Hnum. wp_go.
    eapply wp_mono;
      [apply (wp_for_break_inv (fun s => keeps n (buf s)))| |done]; [|done|].
    + intros _ [b' r' ?] _ Hk'. simpl in Hk'.
      pose proof (keeps_len _ _ Hk') as Hn'.
      wp_go; [done|]. apply Z.eqb_neq in Heqb0.
      assert (0 < len b') by (unfold len in *; lia).
      apply wp_randint; [lia|]. intros _ pos r2 Hpos.
      wp_go. apply wp_randint; [lia|]. intros _ k r3 Hkk.
      wp_go. apply wp_getitem; [lia|].
      assert (is_byte (Z.lxor (nth (Z.to_nat pos) b' 0) (Z.shiftl 1 k))) as Hx.
      { apply is_byte_lxor; [apply wf_nth, Hk'|by apply is_byte_bit_mask]. }
      wp_go. apply wp_setitem; [lia|done|]. wp_go. by apply keeps_insert.
    + intros ? s' Hk'. simpl in Hk'. by wp_go.
Qed.

Lemma boundary_shape n s :
  keeps n (buf s) →
  wp _boundary_value_mutation s (shape n) (value_error n (10 < n)).
Proof.
  destruct s as [b r ?]. simpl. intros Hk. pose proof (keeps_len _ _ Hk) as Hn.
  unfold _boundary_value_mutation. wp_go; rewrite Hn in *; [|done].
  apply Z.ltb_lt in Heqb0.
  apply wp_randint; [lia|]. intros _ num r1 Hnum.
  eapply wp_mono;
    [apply (wp_for_break_inv (fun s => keeps n (buf s)))| |done]; [|done|].
  - intros _ [b' r' ?] _ Hk'. simpl in Hk'.
    pose proof (keeps_len _ _ Hk') as Hn'.
    wp_go. apply wp_randint; [lia|]. intros _ pos r2 Hpos.
    wp_go.
    + apply wp_choice; [done|]. intros bv r3 _.
      wp_go. apply wp_setitem; [lia|apply is_byte_land|].
      wp_go. apply keeps_insert; [done|apply is_byte_land].
    + apply wp_randint; [by intros _|]. intros _ length r3 Hlength.
      wp_go.
      eapply wp_mono; [apply (wp_for_inv (fun s => keeps n (buf s)))| |done]; [|done|].
      * intros i [b2 r4 ?] Hi Hk2. apply elem_of_range in Hi. simpl in Hk2.
        pose proof (keeps_len _ _ Hk2) as Hn2.
        wp_go; [|done]. apply Z.ltb_lt in Heqb2.
        apply wp_choice; [done|]. intros value r5 _.
        eapply wp_mono; [apply (wp_for_inv (fun s => keeps n (buf s)))| |done]; [|done|done].
        intros j [b3 r6 ?] Hj Hk3. apply elem_of_range in Hj. simpl in Hk3.
        pose proof (keeps_len _ _ Hk3) as Hn3.
        wp_go; [|done]. apply Z.ltb_lt in Heqb3.
        apply wp_setitem; [lia|apply is_byte_land|].
        apply keeps_insert; [done|apply is_byte_land].
      * intros ? s' Hk2. simpl in Hk2. by wp_go.
  - intros ? s' Hk'. simpl in Hk'. by wp_go.
Qed.

Lemma repeat_byte_shape n s :
  keeps n (buf s) → wp _repeat_byte_mutation s (shape n) no_exn.
Proof.
  destruct s as [b r ?]. simpl. intros Hk. pose proof (keeps_len _ _ Hk) as Hn.
  unfold _repeat_byte_mutation. wp_go; rewrite Hn in *; [|done].
  apply Z.ltb_lt in Heqb0.
  apply wp_randint; [lia|]. intros _ pattern r1 Hpat.
  wp_go. apply wp_randint; [lia|]. intros _ start_pos r2 Hstart.
  wp_go. rewrite Hn. apply wp_randint; [lia|]. intros _ length r3 Hlength.
  eapply wp_mono; [apply (wp_for_inv (fun s => keeps n (buf s)))| |done]; [|done|].
  - intros i [b' r' ?] Hi Hk'. apply elem_of_range in Hi. simpl in Hk'.
    pose proof (keeps_len _ _ Hk') as Hn'.
    wp_go; [|done]. apply Z.ltb_lt in Heqb1.
    apply wp_setitem; [lia|unfold is_byte; lia|].
    apply keeps_insert; [done|unfold is_byte; lia].
  - intros ? s' Hk'. simpl in Hk'. by wp_go.
Qed.

Lemma arithmetic_shape n s :
  keeps n (buf s) → wp _arithmetic_mutation s (shape n) no_exn.
Proof.
  destruct s as [b r ?]. simpl. intros Hk. pose proof (keeps_len _ _ Hk) as Hn.
  unfold _arithmetic_mutation. wp_go; rewrite Hn in *; [|done].
  apply Z.ltb_lt in Heqb0.
  apply wp_randint; [lia|]. intros _ pos r1 Hpos.
  wp_go. apply wp_choice; [done|]. intros op r2 _.
  wp_go. apply wp_randint; [lia|]. intros _ value r3 Hvalue.
  wp_go. apply wp_getitem; [lia|].
  destruct op; (apply wp_setitem; [lia|apply is_byte_land|]);
    wp_go; (split; apply keeps_insert; [done|apply is_byte_land|done|apply is_byte_land]).
Qed.

Lemma wp_logger l m s (Q : unit → mstate → Prop) E :
  Q tt (MState (buf s) (rnd s) (logged s ++ [(l, m)])) → wp (logger l m) s Q E.
Proof. done. Qed.

Lemma wp_new_bytearray data s (Q : unit → mstate → Prop) E :
  Q tt (MState data (rnd s) (logged s)) → wp (new_bytearray data) s Q E.
Proof. done. Qed.

(** The value [randint] returns, from the draw it consumes. *)
Lemma wp_randint_exact lo hi s (Q : Z → mstate → Prop) E :
  lo ≤ hi →
  Q (lo + rnd s 0%nat mod (hi - lo + 1))
    (MState (buf s) (fun n => rnd s (S n)) (logged s)) →
  wp (randint lo hi) s Q E.
Proof.
  intros Hle HQ. unfold wp, randint. destruct (Z.ltb_spec hi lo); [lia|]. done.
Qed.

Lemma shape_mutated n t out s :
  t ≠ 6 → shape n out s → mutated n t out ∧ keeps n (buf s).
Proof.
  intros Ht [[Hl Hw] Hk]. split; [|done]. split; [done|].
  by destruct (Z.eqb_spec t 6).
Qed.

Lemma dispatch_shape t n s :
  keeps n (buf s) →
  wp (dispatch t) s (fun out s' => mutated n t out ∧ keeps n (buf s'))
     (value_error n (t = 7 ∧ n < 10 ∨ t = 8 ∧ 10 < n)).
Proof.
  intros Hk. unfold dispatch.
  destruct (Z.eqb_spec t 1) as [->|].
  { eapply wp_mono; [by apply corrupt_headers_shape| |done].
    intros out s'. by apply shape_mutated. }
  destruct (Z.eqb_spec t 2) as [->|].
  { eapply wp_mono; [by apply corrupt_headers_shape| |done].
    intros out s'. by apply shape_mutated. }
  destruct (Z.eqb_spec t 3) as [->|].
  { eapply wp_mono; [by apply compression_shape| |done].
    intros out s'. by apply shape_mutated. }
  destruct (Z.eqb_spec t 4) as [->|].
  { eapply wp_mono; [by apply crc_shape| |done].
    intros out s'. by apply shape_mutated. }
  destruct (Z.eqb_spec t 5) as [->|].
  { eapply wp_mono; [by apply file_sizes_shape| |done].
    intros out s'. by apply shape_mutated. }
  destruct (Z.eqb_spec t 6) as [->|].
  { eapply wp_mono; [by apply inject_shape| |done].
    intros out s' (Hw & Hk' & Hl). split; [|done]. split; [done|].
    simpl. by destruct (n <? 5000). }
  destruct (Z.eqb_spec t 7) as [->|].
  { eapply wp_mono; [by apply bit_flip_shape| |].
    - intros out s'. by apply shape_mutated.
    - intros e s' (-> & Hk' & Hn). split; [done|]. split; [done|]. by left. }
  destruct (Z.eqb_spec t 8) as [->|].
  { eapply wp_mono; [by apply boundary_shape| |].
    - intros out s'. by apply shape_mutated.
    - intros e s' (-> & Hk' & Hn). split; [done|]. split; [done|]. by right. }
  destruct (Z.eqb_spec t 9) as [->|].
  { eapply wp_mono; [by apply repeat_byte_shape| |done].
    intros out s'. by apply shape_mutated. }
  eapply wp_mono; [by apply arithmetic_shape| |done].
  intros out s'. by apply shape_mutated.
Qed.

(** [mutate_zip_structure] returns a buffer, except when it draws the
    bit-flip strategy for a buffer of one to nine bytes: the fallback is the
    strategy that has just failed. *)
Lemma mutate_shape data s :
  wf_bytes data →
  wp (mutate_zip_structure data) s
     (fun out _ => if len data =? 0 then out = data
                   else mutated (len data) (mutation_type s) out)
     (fun e _ => e = ValueError ∧ mutation_type s = 7 ∧ 0 < len data < 10).
Proof.
  intros Hw. unfold mutate_zip_structure.
  destruct (Z.eqb_spec (len data) 0) as [H0|H0].
  { by apply wp_ret. }
  assert (0 < len data) by (unfold len in *; lia).
  apply wp_bind, wp_new_bytearray, wp_bind, wp_randint_exact; [lia|].
  simpl buf. simpl rnd. simpl logged. change (10 - 1 + 1) with 10.
  fold (mutation_type s). set (t := mutation_type s).
  apply wp_try_except.
  eapply wp_mono; [apply (dispatch_shape t (len data)); by split| |].
  - intros out s' [Hm _]. done.
  - intros e s' (-> & Hk' & Hcase). cbv beta.
    apply wp_bind, wp_logger.
    eapply wp_mono; [apply (bit_flip_shape (len data)); apply Hk'| |].
    + intros out s'' [[Hl Hwf] _]. split; [done|].
      destruct Hcase as [[Ht Hn]|[Ht Hn]]; rewrite Ht; done.
    + intros e s'' (-> & _ & Hn). split; [done|].
      destruct Hcase as [[Ht _]|[_ ?]]; [|lia]. split; [done|lia].
Qed.

Lemma bit_flip_raises b r lg :
  len b < 10 →
  _bit_flip_mutation (MState b r lg) = Raise ValueError (MState b r lg).
Proof.
  intros Hn. unfold _bit_flip_mutation. unfold bind at 1. unfold data_len.
  cbn [buf]. assert (len b / 10 = 0) as -> by (apply Z.div_small; unfold len in *; lia).
  done.
Qed.

(** The one way [mutate_zip_structure] fails. *)
Lemma mutate_raises data s :
  0 < len data < 10 → mutation_type s = 7 →
  mutate_zip_structure data s
  = Raise ValueError
      (MState data (fun n => rnd s (S n)) (logged s ++ [(WARNING, MutationFailed)])).
Proof.
  intros Hn Ht. unfold mutate_zip_structure.
  destruct (Z.eqb_spec (len data) 0); [lia|].
  unfold bind at 1, new_bytearray. unfold bind at 1, randint at 1.
  change (10 <? 1) with false. cbv iota.
  unfold bind at 1, draw, ret. cbn [rnd buf logged].
  change (10 - 1 + 1) with 10. unfold mutation_type in Ht. rewrite Ht.
  change (dispatch 7) with _bit_flip_mutation.
  unfold try_except. rewrite bit_flip_raises by lia.
  unfold bind at 1, logger. cbn [rnd buf logged].
  by rewrite bit_flip_raises by lia.
Qed.

Lemma mutate_returns data s :
  wf_bytes data → len data = 0 ∨ 10 ≤ len data ∨ mutation_type s ≠ 7 →
  ∃ out s', mutate_zip_structure data s = Ret out s' ∧
            (if len data =? 0 then out = data
             else mutated (len data) (mutation_type s) out).
Proof.
  intros Hw Hcase. pose proof (mutate_shape data s Hw) as H. unfold wp in H.
  destruct (mutate_zip_structure data s) as [out s'|e s'|]; [|exfalso; lia|done].
  by exists out, s'.
Qed.

(** ** The dispatcher *)

Lemma in_place_shape f n s :
  f ∈ in_place_strategies → keeps n (buf s) →
  wp f s (shape n)
     (value_error n (f = _bit_flip_mutation ∧ n < 10 ∨
                     f = _boundary_value_mutation ∧ 10 < n)).
Proof.
  intros Hf Hk. unfold in_place_strategies in Hf.
  repeat (apply elem_of_cons in Hf as [->|Hf]);
    [ eapply wp_mono; [by apply corrupt_headers_shape|done|done]
    | eapply wp_mono; [by apply corrupt_headers_shape|done|done]
    | eapply wp_mono; [by apply compression_shape|done|done]
    | eapply wp_mono; [by apply crc_shape|done|done]
    | eapply wp_mono; [by apply file_sizes_shape|done|done]
    | eapply wp_mono; [by apply bit_flip_shape|done|]
    | eapply wp_mono; [by apply boundary_shape|done|]
    | eapply wp_mono; [by apply repeat_byte_shape|done|done]
    | eapply wp_mono; [by apply arithmetic_shape|done|done]
    | by apply elem_of_nil in Hf ].
  - intros e s' (-> & Hk' & Hn). split; [done|]. split; [done|]. by left.
  - intros e s' (-> & Hk' & Hn). split; [done|]. split; [done|]. by right.
Qed.

(** C9: for the empty input buffer, [mutate_zip_structure] returns the
    empty buffer, whatever strategy the tape would have selected: no draw is
    taken, nothing is logged and no exception (so no out-of-bounds access)
    occurs. *)
Theorem mutate_empty_buffer (s : mstate) :
  mutate_zip_structure [] s = Ret [] s.
Proof. reflexivity. Qed.

(** C7: for every input buffer and every strategy, an output buffer is never
    longer than the input plus 110 bytes (header injection adds at most 104),
    and for the nine other strategies it is no longer than the input.  The
    call ends, and the only exception is the [ValueError] of an empty
    [randint] range in the bit-flip strategy (buffers under 10 bytes) and in
    the boundary-value strategy. *)
Theorem strategy_output_length (t : Z) (data : bytes) (r : nat → Z)
    (lg : list log_record) :
  wf_bytes data →
  match dispatch t (MState data r lg) with
  | Ret out _ =>
      len out ≤ len data + 104 ∧ len out ≤ len data + 110 ∧
      (t ≠ 6 → len out ≤ len data)
  | Raise e _ =>
      e = ValueError ∧ (t = 7 ∧ len data < 10 ∨ t = 8 ∧ 10 < len data)
  | Diverge => False
  end.
Proof.
  intros Hw.
  pose proof (dispatch_shape t (len data) (MState data r lg) (conj eq_refl Hw)) as H.
  unfold wp in H. destruct (dispatch t (MState data r lg)) as [out s'|e s'|]; [| |done].
  - destruct H as [[_ Hl] _].
    destruct (Z.eqb_spec t 6) as [->|Ht]; simpl in Hl.
    + destruct (len data <? 5000); lia.
    + lia.
  - destruct H as (-> & _ & Hc). done.
Qed.

Lemma strategy_output_length_witness :
  match dispatch 6 (MState [1; 2; 3] (tape [0; 3; 90]) []) with
  | Ret out _ => len out ≤ 3 + 104 ∧ len out ≤ 3 + 110 ∧ (6 ≠ 6 → len out ≤ 3)
  | Raise e _ => e = ValueError ∧ (6 = 7 ∧ 3 < 10 ∨ 6 = 8 ∧ 10 < 3)
  | Diverge => False
  end.
Proof.
  apply (strategy_output_length 6 [1; 2; 3] (tape [0; 3; 90]) []).
  repeat constructor; unfold is_byte; lia.
Defined.

(** What holds of the nine strategies other than header injection: a buffer
    one of them returns has exactly the length of its input, and the
    bytearray is left at that length also when the strategy raises; so the
    length of what [mutate_zip_structure] returns differs from its input's
    only when header injection was drawn, and is then larger. *)
Lemma in_place_strategies_keep_length (data : bytes) (r : nat → Z)
    (lg : list log_record) :
  wf_bytes data →
  (∀ f, f ∈ in_place_strategies →
     match f (MState data r lg) with
     | Ret out s' => len out = len data ∧ len (buf s') = len data
     | Raise e s' => e = ValueError ∧ len (buf s') = len data
     | Diverge => False
     end) ∧
  match mutate_zip_structure data (MState [] r lg) with
  | Ret out _ =>
      len out = len data ∨
      (mutation_type (MState [] r lg) = 6 ∧ len data < len out)
  | Raise e _ => e = ValueError
  | Diverge => False
  end.
Proof.
  intros Hw. split.
  - intros f Hf.
    pose proof (in_place_shape f (len data) (MState data r lg) Hf (conj eq_refl Hw)) as H.
    unfold wp in H. destruct (f (MState data r lg)) as [out s'|e s'|]; [| |done].
    + destruct H as [[Hl _] [Hl' _]]. done.
    + destruct H as (-> & [Hl' _] & _). done.
  - pose proof (mutate_shape data (MState [] r lg) Hw) as H. unfold wp in H.
    destruct (mutate_zip_structure data (MState [] r lg)) as [out s'|e s'|]; [|apply H|done].
    destruct (Z.eqb_spec (len data) 0) as [H0|H0]; [left; by subst|].
    destruct H as [_ Hl].
    destruct (Z.eqb_spec (mutation_type (MState [] r lg)) 6) as [Ht|Ht]; simpl in Hl.
    + destruct (len data <? 5000); [right; split; [done|lia]|by left].
    + by left.
Qed.

Lemma in_place_strategies_keep_length_witness :
  match _arithmetic_mutation (MState (replicate 11 3) (tape [2; 1; 4]) []) with
  | Ret out s' => len out = 11 ∧ len (buf s') = 11
  | Raise e s' => e = ValueError ∧ len (buf s') = 11
  | Diverge => False
  end.
Proof.
  apply (proj1 (in_place_strategies_keep_length (replicate 11 3) (tape [2; 1; 4]) []
                  ltac:(repeat constructor; unfold is_byte; lia))).
  unfold in_place_strategies. do 8 (apply elem_of_cons; right). apply elem_of_cons. by left.
Defined.

(** C10: two of the nine strategies do not return for every input.  The
    bit-flip strategy raises [ValueError] on a one-byte buffer
    ([randint(1, min(100, 1 // 10))] is [randint(1, 0)]), as on every
    buffer under 10 bytes; the boundary-value strategy raises [ValueError]
    on a buffer of 11 bytes when it draws one mutation, the last position
    and the multi-byte branch ([randint(2, min(8, 11 - 10))] is
    [randint(2, 1)]).  In both runs the bytearray is left as it was. *)
Theorem in_place_strategies_can_raise :
  _bit_flip_mutation ∈ in_place_strategies ∧
  _boundary_value_mutation ∈ in_place_strategies ∧
  _bit_flip_mutation (MState [0x41] (tape []) [])
    = Raise ValueError (MState [0x41] (tape []) []) ∧
  (∀ data r lg, len data < 10 →
     _bit_flip_mutation (MState data r lg) = Raise ValueError (MState data r lg)) ∧
  ∃ s', _boundary_value_mutation (MState (replicate 11 0) (tape [0; 10; 999]) [])
          = Raise ValueError s' ∧
        buf s' = replicate 11 0.
Proof.
  split; [unfold in_place_strategies; do 5 (apply elem_of_cons; right);
          apply elem_of_cons; by left|].
  split; [unfold in_place_strategies; do 6 (apply elem_of_cons; right);
          apply elem_of_cons; by left|].
  split; [by apply bit_flip_raises|]. split; [apply bit_flip_raises|].
  eexists. split; [vm_compute; reflexivity|]. reflexivity.
Qed.

(** C1: a one-byte buffer for which the bit-flip strategy is drawn.  The
    strategy raises [ValueError] ([randint(1, 0)]), the handler logs the
    warning and calls the same strategy, and the exception reaches the
    caller. *)
Theorem mutate_raises_on_short_buffer :
  ∃ s', mutate_zip_structure [0x41] (MState [] (tape [6]) []) = Raise ValueError s' ∧
        buf s' = [0x41] ∧ logged s' = [(WARNING, MutationFailed)].
Proof. eexists. split; [by apply mutate_raises|done]. Qed.

(** ** Compression-method mutation on a buffer with one local header *)

(** For a position inside the buffer's index range a slice of four is the
    window of four bytes that starts there. *)
Lemma slice_window (b : bytes) pos :
  0 ≤ pos → slice b pos (pos + 4) = take 4 (drop (Z.to_nat pos) b).
Proof.
  intros Hpos. unfold slice, clamp.
  destruct (Z.ltb_spec pos 0); [lia|]. destruct (Z.ltb_spec (pos + 4) 0); [lia|].
  destruct (Z.le_gt_cases pos (len b)) as [Hle|Hgt].
  - rewrite (Z.min_l pos) by lia.
    destruct (Z.le_gt_cases (pos + 4) (len b)).
    + rewrite Z.min_l by lia. f_equal. lia.
    + rewrite Z.min_r by lia.
      rewrite !take_ge; [done| |]; rewrite length_drop; unfold len in *; lia.
  - rewrite !Z.min_r by lia. rewrite Z.sub_diag.
    rewrite (drop_ge b (Z.to_nat pos)) by (unfold len in *; lia).
    by rewrite take_nil.
Qed.

Lemma window_lookup (b : bytes) p k :
  (k < 4)%nat → take 4 (drop p b) !! k = b !! (p + k)%nat.
Proof. intros Hk. rewrite lookup_take_lt by done. by rewrite lookup_drop. Qed.

(** A window that an update does not touch is unchanged. *)
Lemma window_insert_outside (b : bytes) p i v :
  (i < p ∨ p + 4 ≤ i)%nat →
  take 4 (drop p (<[i := v]> b)) = take 4 (drop p b).
Proof.
  intros Hi. apply list_eq. intros k.
  destruct (decide (k < 4)%nat) as [Hk|Hk].
  - rewrite !window_lookup by done. apply list_lookup_insert_ne. lia.
  - rewrite !lookup_take_ge by lia. done.
Qed.

(** A window that holds a byte foreign to a signature is not that
    signature. *)
Lemma window_insert_inside (b : bytes) p i v sig :
  (p ≤ i < p + 4)%nat → (i < length b)%nat → v ∉ sig →
  take 4 (drop p (<[i := v]> b)) ≠ sig.
Proof.
  intros Hi Hlen Hv Heq. apply Hv. rewrite <- Heq.
  apply list_elem_of_lookup. exists (i - p)%nat.
  rewrite window_lookup by lia. replace (p + (i - p))%nat with i by lia.
  by apply list_lookup_insert_eq.
Qed.

Lemma method_codes_foreign : Forall (fun c => c ∉ local_sig) method_codes.
Proof.
  unfold method_codes, local_sig.
  repeat (apply Forall_cons; split); try apply Forall_nil_2.
  all: intros H; apply list_elem_of_In in H; simpl in H; lia.
Qed.

(** No method code is a byte of the local signature, so writing one never
    completes a local signature.  (Code 1 is a byte of the central one.) *)
Lemma method_code_foreign c : c ∈ method_codes → c ∉ local_sig.
Proof. apply (proj1 (Forall_forall _ _) method_codes_foreign c). Qed.

Lemma occurrences_spec sig data pos :
  pos ∈ occurrences sig data ↔
  0 ≤ pos < len data ∧ slice data pos (pos + 4) = sig.
Proof.
  unfold occurrences. rewrite list_elem_of_filter, elem_of_seqZ.
  split; intros [H1 H2]; (split; [done || lia|done || lia]).
Qed.

(** The first pass, over the local signature: the one header at offset 0 gets
    its method byte, and no signature appears. *)
Lemma compression_pass_local data s :
  buf s = data → 8 < len data → occurrences local_sig data = [0] →
  wp (with_fuel (fun fuel =>
        while_ fuel (fun pos s => pos <? len (buf s) - 8)
          (fun pos =>
             let* found := sig_at pos local_sig in
             (if found : bool then
                let* n := data_len in
                if pos + 8 <? n then
                  let* c := choice 0 method_codes in setitem (pos + 8) c
                else ret tt
              else ret tt) ;;
             ret (pos + 1))
          0)) s
     (fun _ s' => ∃ c, c ∈ method_codes ∧ buf s' = <[8%nat := c]> data)
     no_exn.
Proof.
  intros Hb Hlen Hocc.
  assert (∀ pos, 0 ≤ pos → slice data pos (pos + 4) = local_sig ↔ pos = 0) as Hsig.
  { intros pos Hpos. split.
    - intros Heq. destruct (Z.lt_ge_cases pos (len data)) as [Hlt|Hge].
      + assert (pos ∈ occurrences local_sig data) as Hin by (by apply occurrences_spec).
        rewrite Hocc in Hin. by apply list_elem_of_singleton in Hin.
      + rewrite slice_window in Heq by done. rewrite drop_ge in Heq; [done|].
        unfold len in Hge. lia.
    - intros ->. assert (0 ∈ occurrences local_sig data) as Hin.
      { rewrite Hocc. apply list_elem_of_singleton. done. }
      by apply occurrences_spec in Hin as [_ ?]. }
  eapply wp_mono;
    [apply (wp_scan
              (fun pos b => (pos = 0 ∧ b = data) ∨
                            (0 < pos ∧ ∃ c, c ∈ method_codes ∧ b = <[8%nat := c]> data))
              8 (len data)); [lia| | |]| |done].
  - intros pos b [[_ ->]|[_ (c & _ & ->)]]; [done|].
    unfold len. by rewrite length_insert.
  - left. by split.
  - clear s Hb. intros pos [b r lg] Hpos HI. simpl in HI.
    apply wp_bind, wp_sig_at. intros found Hfound. simpl in Hfound.
    destruct HI as [[-> ->]|[Hpos' (c & Hc & ->)]].
    + assert (found = true) as ->.
      { rewrite Hfound. apply bool_decide_eq_true. by apply Hsig. }
      apply wp_bind, wp_bind, wp_data_len. simpl.
      destruct (Z.ltb_spec (0 + 8) (len data)); [|lia].
      apply wp_bind, wp_choice; [done|]. intros c r' Hc.
      pose proof (proj1 (Forall_forall _ _) Forall_is_byte_method_codes c Hc).
      apply wp_setitem; [lia|done|]. apply wp_ret. split; [lia|].
      right. split; [lia|]. by exists c.
    + assert (found = false) as ->.
      { rewrite Hfound. apply bool_decide_eq_false.
        rewrite slice_window by lia.
        destruct (decide (Z.to_nat pos ≤ 8 < Z.to_nat pos + 4)%nat).
        - apply window_insert_inside; [done|unfold len in *; lia|].
          by apply method_code_foreign.
        - rewrite window_insert_outside by lia.
          rewrite <- slice_window by lia. rewrite Hsig; lia. }
      apply wp_bind, wp_ret, wp_ret. split; [lia|]. right. split; [lia|]. by exists c.
  - intros pos s' ([[-> _]|[_ H]] & _ & Hend); [lia|done].
Qed.

(** The second pass, over the central signature: a header at offset 0 is
    the local one, so every byte written lies past offset 8. *)
Lemma compression_pass_central b1 s :
  buf s = b1 → take 4 b1 = local_sig →
  wp (with_fuel (fun fuel =>
        while_ fuel (fun pos s => pos <? len (buf s) - 8)
          (fun pos =>
             let* found := sig_at pos central_sig in
             (if found : bool then
                let* n := data_len in
                if pos + 8 <? n then
                  let* c := choice 0 method_codes in setitem (pos + 8) c
                else ret tt
              else ret tt) ;;
             ret (pos + 1))
          0)) s
     (fun _ s' => len (buf s') = len b1 ∧ take 9 (buf s') = take 9 b1)
     no_exn.
Proof.
  intros Hb Hsig.
  eapply wp_mono;
    [apply (wp_scan (fun pos b => len b = len b1 ∧ take 9 b = take 9 b1)
              8 (len b1)); [lia| | |]| |done].
  - by intros pos b [? _].
  - by rewrite Hb.
  - clear s Hb. intros pos [b r lg] Hpos [Hlen Htake]. simpl in Hlen, Htake.
    apply wp_bind, wp_sig_at. intros found Hfound. simpl in Hfound.
    destruct found; [|apply wp_bind, wp_ret, wp_ret; split; [lia|done]].
    assert (0 < pos) as Hpos'.
    { destruct (decide (pos = 0)) as [->|]; [|lia]. exfalso.
      symmetry in Hfound. apply bool_decide_eq_true in Hfound.
      rewrite slice_window in Hfound by lia.
      change (Z.to_nat 0) with 0%nat in Hfound. rewrite drop_0 in Hfound.
      assert (take 4 b = take 4 b1) as Hb4.
      { pose proof (f_equal (take 4) Htake) as H4. rewrite !take_take in H4.
        exact H4. }
      rewrite Hb4, Hsig in Hfound. done. }
    apply wp_bind, wp_bind, wp_data_len. simpl.
    destruct (Z.ltb_spec (pos + 8) (len b)); [|apply wp_ret, wp_ret; split; [lia|done]].
    apply wp_bind, wp_choice; [done|]. intros c r' Hc.
    pose proof (proj1 (Forall_forall _ _) Forall_is_byte_method_codes c Hc).
    apply wp_setitem; [lia|done|]. apply wp_ret. split; [lia|].
    simpl. split; [unfold len; by rewrite length_insert|].
    rewrite take_insert_ge by lia. done.
  - by intros pos s' (? & _).
Qed.

Lemma compression_single_header data s :
  buf s = data → 8 < len data → occurrences local_sig data = [0] →
  wp _mutate_compression_methods s
     (fun out _ => ∃ c, c ∈ method_codes ∧ len out = len data ∧
                        take 9 out = take 9 (<[8%nat := c]> data))
     no_exn.
Proof.
  intros Hb Hlen Hocc. unfold _mutate_compression_methods.
  apply wp_bind. unfold for_. apply wp_bind, wp_bind.
  eapply wp_mono; [by apply (compression_pass_local data)| |done].
  intros ? s1 (c & Hc & Hb1). cbv beta.
  apply wp_ret, wp_bind, wp_bind.
  eapply wp_mono; [apply (compression_pass_central (<[8%nat := c]> data)); [done|]| |done].
  - rewrite take_insert_ge by lia.
    assert (0 ∈ occurrences local_sig data) as Hin.
    { rewrite Hocc. by apply list_elem_of_singleton. }
    apply occurrences_spec in Hin as [_ Hsig].
    rewrite slice_window in Hsig by lia. done.
  - intros ? s2 [Hl2 Htake]. cbv beta. apply wp_ret, wp_ret, wp_data_bytes.
    exists c. split; [done|]. split; [|done].
    rewrite Hl2. unfold len. by rewrite length_insert.
Qed.

(** C8: for every 200-byte buffer whose only local-entry-header signature
    stands at offset 0, the compression-method strategy returns a buffer (of
    200 bytes) whose byte at offset 8 is one of the nine method codes and
    whose bytes at offsets 0 to 7 are those of the input. *)
Theorem compression_method_single_header (data : bytes) (r : nat → Z)
    (lg : list log_record) :
  len data = 200 → occurrences local_sig data = [0] →
  ∃ out s',
    _mutate_compression_methods (MState data r lg) = Ret out s' ∧
    len out = 200 ∧
    nth 8 out 0 ∈ method_codes ∧
    ∀ i, (i < 8)%nat → nth i out 0 = nth i data 0.
Proof.
  intros Hlen Hocc.
  pose proof (compression_single_header data (MState data r lg) eq_refl
                ltac:(lia) Hocc) as H.
  unfold wp in H.
  destruct (_mutate_compression_methods (MState data r lg)) as [out s'|e s'|];
    [|done|done].
  destruct H as (c & Hc & Hl & Htake). exists out, s'.
  split; [done|]. split; [lia|].
  assert (∀ i, (i < 9)%nat → out !! i = <[8%nat := c]> data !! i) as Hlook.
  { intros i Hi. pose proof (f_equal (fun l : bytes => l !! i) Htake) as Hi'.
    cbv beta in Hi'. by rewrite !lookup_take_lt in Hi' by done. }
  assert (∀ (l : bytes) i x, l !! i = Some x → nth i l 0 = x) as Hnth.
  { intros l i x Hx. by apply nth_lookup_Some with (d := 0) in Hx. }
  split.
  - rewrite (Hnth out 8%nat c); [done|]. rewrite Hlook by lia.
    apply list_lookup_insert_eq. unfold len in Hlen. lia.
  - intros i Hi.
    destruct (lookup_lt_is_Some_2 data i) as [x Hx]; [unfold len in Hlen; lia|].
    rewrite (Hnth data i x Hx). apply Hnth. rewrite Hlook by lia.
    by rewrite list_lookup_insert_ne by lia.
Qed.

Lemma compression_method_single_header_witness :
  ∃ out s',
    _mutate_compression_methods
      (MState (local_sig ++ replicate 196 0) (tape [3]) []) = Ret out s' ∧
    len out = 200 ∧
    nth 8 out 0 ∈ method_codes ∧
    ∀ i, (i < 8)%nat → nth i out 0 = nth i (local_sig ++ replicate 196 0) 0.
Proof.
  apply (compression_method_single_header (local_sig ++ replicate 196 0) (tape [3]) []).
  - reflexivity.
  - vm_compute. reflexivity.
Defined.

(** ** Bit flips *)

Lemma length_apply_flips flips data :
  length (apply_flips flips data) = length data.
Proof.
  revert data. induction flips as [|f flips IH]; intros data; [done|].
  unfold apply_flips in *. simpl. rewrite IH. apply length_insert.
Qed.

Lemma wf_apply_flips flips data :
  Forall (fun f => is_byte f.2) flips → wf_bytes data →
  wf_bytes (apply_flips flips data).
Proof.
  revert data. induction flips as [|f flips IH]; intros data Hm Hw; [done|].
  apply Forall_cons in Hm as [Hf Hm]. unfold apply_flips in *. simpl.
  apply IH; [done|]. apply Forall_insert; [done|].
  apply is_byte_lxor; [by apply wf_nth|done].
Qed.

Lemma count_diff_refl a : count_diff a a = 0%nat.
Proof. induction a as [|x a IH]; [done|]. simpl. by rewrite bool_decide_eq_true_2. Qed.

(** The triangle inequality of the Hamming distance. *)
Lemma count_diff_triangle a b c :
  length a = length b →
  (count_diff a c ≤ count_diff a b + count_diff b c)%nat.
Proof.
  revert b c. induction a as [|x a IH]; intros [|y b] [|z c] Hl; simpl in *; try lia.
  specialize (IH b c ltac:(lia)).
  repeat case_bool_decide; subst; lia || done.
Qed.

Lemma count_diff_insert a i v :
  (count_diff a (<[i := v]> a) ≤ 1)%nat.
Proof.
  revert i. induction a as [|x a IH]; intros [|i]; simpl; [lia|lia| |].
  - rewrite count_diff_refl. case_bool_decide; lia.
  - rewrite bool_decide_eq_true_2 by done. apply IH.
Qed.

(** However the positions fall, a flip changes at most one position. *)
Lemma count_diff_apply_flips flips data :
  (count_diff data (apply_flips flips data) ≤ length flips)%nat.
Proof.
  revert data. induction flips as [|f flips IH]; intros data.
  - simpl. by rewrite count_diff_refl.
  - change (apply_flips (f :: flips) data)
      with (apply_flips flips (<[f.1 := Z.lxor (nth f.1 data 0) f.2]> data)).
    set (d := <[f.1 := Z.lxor (nth f.1 data 0) f.2]> data).
    pose proof (count_diff_triangle data d (apply_flips flips d)
                  ltac:(unfold d; by rewrite length_insert)).
    pose proof (count_diff_insert data f.1 (Z.lxor (nth f.1 data 0) f.2)).
    specialize (IH d). simpl. fold d in H0. lia.
Qed.

(** A position no flip names is left alone. *)
Lemma apply_flips_lookup_other flips (data : bytes) i :
  i ∉ flips.*1 → apply_flips flips data !! i = data !! i.
Proof.
  revert data. induction flips as [|f flips IH]; intros data Hi; [done|].
  rewrite fmap_cons in Hi. apply not_elem_of_cons in Hi as [Hne Hi].
  change (apply_flips (f :: flips) data)
    with (apply_flips flips (<[f.1 := Z.lxor (nth f.1 data 0) f.2]> data)).
  rewrite IH by done. by apply list_lookup_insert_ne.
Qed.

(** Distinct positions: every byte is the input's, or the input's with the
    mask of its one flip. *)
Lemma apply_flips_lookup flips (data : bytes) i :
  NoDup flips.*1 →
  apply_flips flips data !! i = data !! i ∨
  ∃ m, (i, m) ∈ flips ∧ apply_flips flips data !! i = Some (Z.lxor (nth i data 0) m).
Proof.
  revert data. induction flips as [|[p m] flips IH]; intros data Hnd; [by left|].
  rewrite fmap_cons in Hnd. apply NoDup_cons in Hnd as [Hp Hnd]. simpl in Hp.
  change (apply_flips ((p, m) :: flips) data)
    with (apply_flips flips (<[p := Z.lxor (nth p data 0) m]> data)).
  set (d := <[p := Z.lxor (nth p data 0) m]> data).
  destruct (IH d Hnd) as [Heq|(m' & Hin & Heq)].
  - rewrite Heq. unfold d. destruct (decide (i = p)) as [->|Hne].
    + destruct (decide (p < length data)%nat).
      * right. exists m. split; [by left|]. by apply list_lookup_insert_eq.
      * left. by rewrite list_insert_ge by lia.
    + left. by apply list_lookup_insert_ne.
  - right. exists m'. split; [by right|]. rewrite Heq.
    assert (i ≠ p) as Hne.
    { intros ->. apply Hp. apply list_elem_of_fmap. by exists (p, m'). }
    unfold d. do 2 f_equal.
    destruct (decide (i < length data)%nat).
    + destruct (lookup_lt_is_Some_2 data i) as [x Hx]; [done|].
      rewrite (nth_lookup_Some _ _ 0 x Hx).
      apply nth_lookup_Some. by rewrite list_lookup_insert_ne.
    + rewrite !nth_overflow; [done|lia|rewrite length_insert; lia].
Qed.

Lemma lxor_mask_ne x m : m ≠ 0 → Z.lxor x m ≠ x.
Proof.
  intros Hm Heq. apply Hm.
  assert (Z.lxor x (Z.lxor x m) = m) as H.
  { by rewrite <- Z.lxor_assoc, Z.lxor_nilpotent, Z.lxor_0_l. }
  rewrite Heq, Z.lxor_nilpotent in H. done.
Qed.

(** Moving a base buffer one differing position closer takes one off the
    distance. *)
Lemma count_diff_insert_base (d out : bytes) p x v :
  d !! p = Some x → out !! p = Some v → x ≠ v →
  count_diff d out = S (count_diff (<[p := v]> d) out).
Proof.
  revert out p. induction d as [|y d IH]; intros [|z out] [|p] Hd Ho Hne;
    simpl in *; try done.
  - injection Hd as ->. injection Ho as ->.
    rewrite bool_decide_eq_false_2 by done. rewrite bool_decide_eq_true_2 by done.
    done.
  - rewrite (IH out p Hd Ho Hne). lia.
Qed.

(** Distinct positions inside the buffer and masks that are not zero: as
    many positions change as there are flips. *)
Lemma count_diff_apply_flips_NoDup flips data :
  NoDup flips.*1 →
  Forall (fun f => (f.1 < length data)%nat ∧ f.2 ≠ 0) flips →
  count_diff data (apply_flips flips data) = length flips.
Proof.
  revert data. induction flips as [|[p m] flips IH]; intros data Hnd Hf.
  - simpl. apply count_diff_refl.
  - rewrite fmap_cons in Hnd. apply NoDup_cons in Hnd as [Hp Hnd]. simpl in Hp.
    apply Forall_cons in Hf as [[Hlt Hm] Hf]. simpl in Hlt, Hm.
    change (apply_flips ((p, m) :: flips) data)
      with (apply_flips flips (<[p := Z.lxor (nth p data 0) m]> data)).
    destruct (lookup_lt_is_Some_2 data p Hlt) as [x Hx].
    rewrite (nth_lookup_Some _ _ 0 x Hx).
    set (d := <[p := Z.lxor x m]> data).
    assert (apply_flips flips d !! p = Some (Z.lxor x m)) as Hout.
    { rewrite apply_flips_lookup_other by done. by apply list_lookup_insert_eq. }
    rewrite (count_diff_insert_base data _ p x (Z.lxor x m) Hx Hout);
      [|intros Heq; by apply (lxor_mask_ne x m)].
    fold d. simpl. f_equal. apply IH; [done|].
    eapply Forall_impl; [done|]. intros f [? ?]. split; [|done].
    unfold d. by rewrite length_insert.
Qed.

Lemma drawn_flips_shape k n r :
  0 < n →
  length (drawn_flips k n r) = k ∧
  Forall (fun f => (f.1 < Z.to_nat n)%nat ∧
                   ∃ j, 0 ≤ j ≤ 7 ∧ f.2 = Z.shiftl 1 j) (drawn_flips k n r).
Proof.
  intros Hn. revert r. induction k as [|k IH]; intros r; simpl; [by split|].
  destruct (IH (fun i => r (S (S i)))) as [Hl Hf]. split; [by rewrite Hl|].
  constructor; [|done]. simpl. split.
  - pose proof (Z.mod_pos_bound (r 0%nat) (n - 1 - 0 + 1)). lia.
  - exists (0 + r 1%nat mod (7 - 0 + 1)). split; [|done].
    pose proof (Z.mod_pos_bound (r 1%nat) (7 - 0 + 1)). lia.
Qed.

(** The loop of [_bit_flip_mutation] applies the flips the tape dictates. *)
Lemma bit_flip_loop l b r lg :
  0 < len b → wf_bytes b →
  wp (for_break l (fun _ : Z =>
        let* n := data_len in
        if n =? 0 then ret true
        else
          let* pos := randint 0 (n - 1) in
          let* k := randint 0 7 in
          let bit_mask := Z.shiftl 1 k in
          let* x := getitem pos in
          setitem pos (Z.lxor x bit_mask) ;;
          ret false))
     (MState b r lg)
     (fun _ s' => buf s' = apply_flips (drawn_flips (length l) (len b) r) b)
     no_exn.
Proof.
  revert b r. induction l as [|i l IH]; intros b r Hn Hw; [by apply wp_ret|].
  cbn [for_break length drawn_flips].
  apply wp_bind, wp_bind, wp_data_len. cbn [buf].
  destruct (Z.eqb_spec (len b) 0); [lia|].
  apply wp_bind, wp_randint_exact; [lia|]. cbn [buf rnd logged].
  apply wp_bind, wp_randint_exact; [lia|]. cbn [buf rnd logged].
  set (pos := 0 + r 0%nat mod (len b - 1 - 0 + 1)).
  set (k := 0 + r 1%nat mod (7 - 0 + 1)).
  assert (0 ≤ pos < len b).
  { unfold pos. pose proof (Z.mod_pos_bound (r 0%nat) (len b - 1 - 0 + 1)). lia. }
  assert (0 ≤ k ≤ 7).
  { unfold k. pose proof (Z.mod_pos_bound (r 1%nat) (7 - 0 + 1)). lia. }
  assert (is_byte (Z.lxor (nth (Z.to_nat pos) b 0) (Z.shiftl 1 k))) as Hx.
  { apply is_byte_lxor; [by apply wf_nth|by apply is_byte_bit_mask]. }
  apply wp_bind, wp_getitem; [done|].
  apply wp_bind, wp_setitem; [done|done|]. apply wp_ret.
  set (b' := <[Z.to_nat pos := Z.lxor (nth (Z.to_nat pos) b 0) (Z.shiftl 1 k)]> b).
  assert (len b' = len b) as Hl' by (unfold b', len; by rewrite length_insert).
  eapply wp_mono; [apply (IH b'); [lia|by apply Forall_insert]| |done].
  intros ? s' ->. cbv beta. by rewrite Hl'.
Qed.

Lemma bit_flip_applies_flips data r lg :
  wf_bytes data → 10 ≤ len data →
  wp _bit_flip_mutation (MState data r lg)
     (fun out s' => out = apply_flips (bit_flips data r) data)
     no_exn.
Proof.
  intros Hw Hn. unfold _bit_flip_mutation.
  assert (1 ≤ len data / 10) by (apply Z.div_le_lower_bound; lia).
  apply wp_bind, wp_data_len. cbn [buf].
  apply wp_bind, wp_randint_exact; [lia|]. cbn [buf rnd logged].
  apply wp_bind.
  eapply wp_mono; [apply bit_flip_loop; [lia|done]| |done].
  intros ? s' Hb. cbv beta. apply wp_data_bytes. rewrite Hb.
  unfold bit_flips, range. rewrite length_seqZ. by rewrite Z.sub_0_r.
Qed.

Lemma bit_flips_number data r :
  10 ≤ len data →
  1 ≤ len (bit_flips data r) ≤ Z.min 100 (len data / 10) ∧
  Forall (fun f => (f.1 < length data)%nat ∧
                   ∃ j, 0 ≤ j ≤ 7 ∧ f.2 = Z.shiftl 1 j) (bit_flips data r).
Proof.
  intros Hn. assert (1 ≤ len data / 10) by (apply Z.div_le_lower_bound; lia).
  unfold bit_flips.
  set (num := 1 + r 0%nat mod (Z.min 100 (len data / 10) - 1 + 1)).
  assert (1 ≤ num ≤ Z.min 100 (len data / 10)).
  { unfold num.
    pose proof (Z.mod_pos_bound (r 0%nat) (Z.min 100 (len data / 10) - 1 + 1)). lia. }
  destruct (drawn_flips_shape (Z.to_nat num) (len data) (fun i => r (S i)))
    as [Hl Hf]; [lia|].
  split; [unfold len at 1 3; rewrite Hl; lia|].
  eapply Forall_impl; [done|]. intros f [? ?]. split; [|done]. unfold len in *. lia.
Qed.

(** C3, as amended: for every buffer of length L of at least 10, the
    bit-flip strategy returns a buffer of length L, the input with n flips
    applied, where 1 <= n <= min(100, L/10) and the flips (a position and a
    one-bit mask each) are drawn with replacement.  The output differs from
    the input in at most n byte positions; when the n positions drawn are
    pairwise distinct (as they are under 20 bytes, where n = 1), it differs
    in exactly n positions, and at each of them in exactly one bit. *)
Theorem bit_flip_changes (data : bytes) (r : nat → Z) (lg : list log_record) :
  wf_bytes data → 10 ≤ len data →
  ∃ out s',
    _bit_flip_mutation (MState data r lg) = Ret out s' ∧
    out = apply_flips (bit_flips data r) data ∧
    len out = len data ∧
    1 ≤ len (bit_flips data r) ≤ Z.min 100 (len data / 10) ∧
    (count_diff data out ≤ length (bit_flips data r))%nat ∧
    (len data < 20 → NoDup (bit_flips data r).*1) ∧
    (NoDup (bit_flips data r).*1 →
       count_diff data out = length (bit_flips data r) ∧
       ∀ i x y, data !! i = Some x → out !! i = Some y → x ≠ y →
                differ_in_one_bit x y).
Proof.
  intros Hw Hn. pose proof (bit_flip_applies_flips data r lg Hw Hn) as H.
  unfold wp in H.
  destruct (_bit_flip_mutation (MState data r lg)) as [out s'|e s'|]; [|done|done].
  destruct (bit_flips_number data r Hn) as [Hnum Hf].
  exists out, s'. subst out. split; [done|]. split; [done|].
  split; [unfold len; by rewrite length_apply_flips|]. split; [done|].
  split; [apply count_diff_apply_flips|].
  split.
  { intros H20. assert (len data / 10 < 2) by (apply Z.div_lt_upper_bound; lia).
    revert Hnum. clear Hf.
    destruct (bit_flips data r) as [|f [|f' fl]]; intros Hnum;
      [constructor|apply NoDup_singleton|].
    unfold len in *. cbn [length] in Hnum. lia. }
  intros Hnd. split.
  - apply count_diff_apply_flips_NoDup; [done|].
    eapply Forall_impl; [done|]. intros f [? (j & Hj & ->)]. split; [done|].
    rewrite Z.shiftl_1_l. apply Z.pow_nonzero; lia.
  - intros i x y Hx Hy Hne.
    destruct (apply_flips_lookup (bit_flips data r) data i Hnd) as [Heq|(m & Hin & Heq)].
    + rewrite Heq, Hx in Hy. by injection Hy.
    + rewrite Heq in Hy. injection Hy as <-.
      rewrite (nth_lookup_Some _ _ 0 x Hx).
      apply (proj1 (Forall_forall _ _) Hf) in Hin as [_ (j & Hj & Hm)].
      simpl in Hm. exists j. split; [done|]. rewrite <- Hm.
      by rewrite <- Z.lxor_assoc, Z.lxor_nilpotent, Z.lxor_0_l.
Qed.

Lemma bit_flip_changes_witness :
  ∃ out s',
    _bit_flip_mutation (MState (replicate 20 0) (tape [1; 0; 0; 5; 1]) []) = Ret out s' ∧
    out = apply_flips (bit_flips (replicate 20 0) (tape [1; 0; 0; 5; 1])) (replicate 20 0) ∧
    len out = 20 ∧
    1 ≤ len (bit_flips (replicate 20 0) (tape [1; 0; 0; 5; 1])) ≤ 2 ∧
    Nat.le (count_diff (replicate 20 0) out)
           (length (bit_flips (replicate 20 0) (tape [1; 0; 0; 5; 1]))) ∧
    (20 < 20 → NoDup (bit_flips (replicate 20 0) (tape [1; 0; 0; 5; 1])).*1) ∧
    (NoDup (bit_flips (replicate 20 0) (tape [1; 0; 0; 5; 1])).*1 →
       count_diff (replicate 20 0) out
         = length (bit_flips (replicate 20 0) (tape [1; 0; 0; 5; 1])) ∧
       ∀ i x y, replicate 20 0 !! i = Some x → out !! i = Some y → x ≠ y →
                differ_in_one_bit x y).
Proof.
  apply (bit_flip_changes (replicate 20 0) (tape [1; 0; 0; 5; 1]) []).
  - repeat constructor; unfold is_byte; lia.
  - vm_compute. discriminate.
Defined.

(** C3, as stated, fails: two flips of the same bit of the same byte leave
    a 20-byte buffer unchanged (no position differs, where the claim
    promises at least one), and two flips of different bits of one byte
    change that byte in two bits. *)
Lemma bit_flip_flips_collide :
  (∃ out s',
     _bit_flip_mutation (MState (replicate 20 0) (tape [1; 0; 0; 0; 0]) []) = Ret out s' ∧
     count_diff (replicate 20 0) out = 0%nat) ∧
  (∃ out s',
     _bit_flip_mutation (MState (replicate 20 0) (tape [1; 0; 0; 0; 1]) []) = Ret out s' ∧
     nth 0 (replicate 20 0) 0 = 0 ∧ nth 0 out 0 = 3 ∧ ¬ differ_in_one_bit 0 3).
Proof.
  split.
  - eexists _, _. split; [vm_compute; reflexivity|]. reflexivity.
  - eexists _, _. split; [vm_compute; reflexivity|]. split; [done|]. split; [done|].
    intros (k & Hk & Hx). change (Z.lxor 0 3) with 3 in Hx.
    rewrite Z.shiftl_1_l in Hx.
    assert (k = 0 ∨ k = 1 ∨ 2 ≤ k) as [->|[->|Hge]] by lia; [done|done|].
    assert (2 ^ 2 ≤ 2 ^ k) by (apply Z.pow_le_mono_r; lia). lia.
Qed.

(** ** The oracle adapter *)

(** C5: an exit code of 2 or 8 is classified as a crash whatever the
    captured output, and a timeout of the tool is a crash with no process
    handle. *)
Theorem fatal_codes_and_timeout_are_crashes (decode : bytes → string)
    (p : process_result) (iteration : Z) :
  returncode p = 2 ∨ returncode p = 8 →
  (analyze_7zip_result decode (Some p)).1 = true ∧
  (run_7zip_test decode iteration (Exited p)).1 = (true, Some p) ∧
  (run_7zip_test decode iteration TimedOut).1 = (true, None) ∧
  (analyze_7zip_result decode None).1 = true.
Proof.
  intros Hcode.
  assert ((analyze_7zip_result decode (Some p)).1 = true) as Ha.
  { unfold analyze_7zip_result. destruct Hcode as [-> | ->]; reflexivity. }
  split; [done|]. split; [|done].
  unfold run_7zip_test. destruct (analyze_7zip_result decode (Some p)) as [v recs].
  simpl in *. by subst.
Qed.

Lemma fatal_codes_and_timeout_are_crashes_witness :
  (analyze_7zip_result decode_ascii (Some (ProcessResult (encode "Everything is Ok") [] 2))).1
    = true ∧
  (run_7zip_test decode_ascii 1 (Exited (ProcessResult (encode "Everything is Ok") [] 2))).1
    = (true, Some (ProcessResult (encode "Everything is Ok") [] 2)) ∧
  (run_7zip_test decode_ascii 1 TimedOut).1 = (true, None) ∧
  (analyze_7zip_result decode_ascii None).1 = true.
Proof.
  apply (fatal_codes_and_timeout_are_crashes decode_ascii
           (ProcessResult (encode "Everything is Ok") [] 2) 1).
  left. reflexivity.
Defined.

(** ** The scheduler *)

Arguments mutate_zip_structure : simpl never.
Arguments run_7zip_test : simpl never.
Arguments crash_like : simpl never.

(** On a disk whose files can all be opened, [open] reads the file. *)
Lemma open_rb_initial path l m disk tp :
  open_rb path (add_log l m (initial disk tp)) = disk !! path.
Proof. unfold open_rb. cbn. by rewrite bool_decide_eq_false_2 by set_solver. Qed.

Lemma crash_like_app runs i (v : bool) :
  crash_like (runs ++ [(i, v)]) = (crash_like runs + (if v then 1 else 0))%nat.
Proof.
  unfold crash_like. rewrite filter_app, length_app. f_equal.
  rewrite filter_cons, filter_nil. simpl. by destruct v.
Qed.

Ltac counts_done :=
  repeat split; try done; try lia;
  try (intros [? ?]; first [done | lia]); try (intros; first [done | lia]).

(** What the loop keeps true, however it ends: the counter is the number of
    crash-like verdicts seen and never passes 50; every crash directory made
    is counted, and all are unless the run ended in an exception; the run
    stops early exactly when the counter reaches 50 without an exception;
    and the iteration in which it reaches 50 is the last one run. *)
Lemma fuzz_loop_counts decode env base todo :
  ∀ s why s',
  fuzz_loop decode env base todo s = (why, s') →
  counted s → crash_count s < 50 →
  crash_count s' = Z.of_nat (crash_like (tested s')) ∧
  crash_count s' ≤ 50 ∧
  Z.of_nat (length (crash_records s')) ≤ crash_count s' ∧
  (why ≠ RunError → Z.of_nat (length (crash_records s')) = crash_count s') ∧
  (why = EarlyLimit ↔ crash_count s' = 50 ∧ why ≠ RunError) ∧
  (crash_count s' = 50 → last (tested s') = Some (iteration_count s', true)).
Proof.
  induction todo as [|i rest IH]; intros s why s' Hrun [Hc Hr] Hlt.
  { injection Hrun as <- <-. counts_done. }
  cbn [fuzz_loop] in Hrun.
  destruct (mutate_zip_structure base _) as [mutated_data m|e m|];
    [|injection Hrun as <- <-; simpl; counts_done ..].
  destruct (temp_file_written (env i));
    [|injection Hrun as <- <-; simpl; counts_done].
  destruct (run_7zip_test decode i (tool (env i))) as [[crash_detected pr] recs].
  destruct crash_detected.
  - unfold save_crash in Hrun.
    destruct (crash_dir_made (env i)).
    + rewrite orb_true_r in Hrun.
      assert (∀ ok lv msg,
        (if 50 <=? crash_count (print_stats (add_log lv msg
              (add_crash_record (CrashRecord i mutated_data pr ok)
                 (incr_crash_count (add_tested i true
                    (add_logs recs (after_engine m (set_iteration_count i s))))))))
         then (EarlyLimit, add_log INFO StoppingEarly (print_stats (add_log lv msg
              (add_crash_record (CrashRecord i mutated_data pr ok)
                 (incr_crash_count (add_tested i true
                    (add_logs recs (after_engine m (set_iteration_count i s)))))))))
         else fuzz_loop decode env base rest (print_stats (add_log lv msg
              (add_crash_record (CrashRecord i mutated_data pr ok)
                 (incr_crash_count (add_tested i true
                    (add_logs recs (after_engine m (set_iteration_count i s)))))))))
        = (why, s') →
        crash_count s' = Z.of_nat (crash_like (tested s')) ∧
        crash_count s' ≤ 50 ∧
        Z.of_nat (length (crash_records s')) ≤ crash_count s' ∧
        (why ≠ RunError → Z.of_nat (length (crash_records s')) = crash_count s') ∧
        (why = EarlyLimit ↔ crash_count s' = 50 ∧ why ≠ RunError) ∧
        (crash_count s' = 50 → last (tested s') = Some (iteration_count s', true)))
        as Hstep.
      { intros ok lv msg Hrun'. cbn in Hrun'.
        destruct (Z.leb_spec 50 (crash_count s + 1)).
        - injection Hrun' as <- <-. cbn.
          rewrite crash_like_app, length_app, last_snoc. simpl.
          counts_done.
        - apply IH in Hrun'; [done| |cbn; lia].
          split; cbn; [rewrite crash_like_app|rewrite length_app]; simpl; lia. }
      destruct (crash_files_written (env i)); by eapply Hstep.
    + injection Hrun as <- <-. cbn. rewrite crash_like_app, last_snoc. simpl.
      counts_done.
  - assert (∀ s0, crash_count s0 = crash_count s →
                  tested s0 = tested s ++ [(i, false)] →
                  crash_records s0 = crash_records s →
        (if 50 <=? crash_count s0 then (EarlyLimit, add_log INFO StoppingEarly s0)
         else fuzz_loop decode env base rest s0) = (why, s') →
        crash_count s' = Z.of_nat (crash_like (tested s')) ∧
        crash_count s' ≤ 50 ∧
        Z.of_nat (length (crash_records s')) ≤ crash_count s' ∧
        (why ≠ RunError → Z.of_nat (length (crash_records s')) = crash_count s') ∧
        (why = EarlyLimit ↔ crash_count s' = 50 ∧ why ≠ RunError) ∧
        (crash_count s' = 50 → last (tested s') = Some (iteration_count s', true)))
      as Hstep.
    { intros s0 H1 H2 H3 Hrun'. destruct (Z.leb_spec 50 (crash_count s0)); [lia|].
      apply IH in Hrun'; [done| |lia].
      split; [rewrite H1, H2, crash_like_app; simpl; lia|rewrite H3, H1; done]. }
    rewrite orb_false_r in Hrun.
    destruct (i mod 100 =? 0); refine (Hstep _ _ _ _ Hrun); reflexivity.
Qed.

(** A run in which every iteration ends in an archived crash stops at the
    iteration that brings the counter to 50. *)
Lemma fuzz_loop_all_crash decode env base :
  wf_bytes base → len base = 0 ∨ 10 ≤ len base →
  (∀ i, 1 ≤ i ≤ 50 → crash_like_iteration decode env i) →
  ∀ n s m,
    Z.of_nat n = 50 - crash_count s → (0 < n)%nat → 0 ≤ crash_count s →
    Z.of_nat n ≤ m →
    ∃ s', fuzz_loop decode env base (seqZ (crash_count s + 1) m) s = (EarlyLimit, s') ∧
          crash_count s' = 50 ∧ iteration_count s' = 50 ∧
          tested s' = tested s ++
            ((fun i => (i, true)) <$> seqZ (crash_count s + 1) (Z.of_nat n)).
Proof.
  intros Hw Hlen Henv. induction n as [|n IH]; intros s m Hn Hpos Hc Hm; [lia|].
  rewrite (seqZ_cons _ m) by lia. rewrite (seqZ_cons _ (Z.of_nat (S n))) by lia.
  set (i := crash_count s + 1).
  assert (i = crash_count s + 1) as Hi by done. clearbody i.
  destruct (Henv i ltac:(lia)) as (Htemp & Hverdict & Hdir).
  cbn [fuzz_loop].
  destruct (mutate_returns base (MState [] (random (set_iteration_count i s))
              (log (set_iteration_count i s))) Hw) as (mutated_data & m' & -> & _);
    [destruct Hlen; [by left|right; by left]|].
  rewrite Htemp.
  destruct (run_7zip_test decode i (tool (env i))) as [[crash_detected pr] recs].
  simpl in Hverdict. subst crash_detected.
  unfold save_crash. rewrite Hdir, orb_true_r.
  assert (∀ ok lv msg, ∃ s',
    (if 50 <=? crash_count (print_stats (add_log lv msg
          (add_crash_record (CrashRecord i mutated_data pr ok)
             (incr_crash_count (add_tested i true
                (add_logs recs (after_engine m' (set_iteration_count i s))))))))
     then (EarlyLimit, add_log INFO StoppingEarly (print_stats (add_log lv msg
          (add_crash_record (CrashRecord i mutated_data pr ok)
             (incr_crash_count (add_tested i true
                (add_logs recs (after_engine m' (set_iteration_count i s)))))))))
     else fuzz_loop decode env base (seqZ (Z.succ i) (Z.pred m)) (print_stats (add_log lv msg
          (add_crash_record (CrashRecord i mutated_data pr ok)
             (incr_crash_count (add_tested i true
                (add_logs recs (after_engine m' (set_iteration_count i s)))))))))
    = (EarlyLimit, s') ∧
    crash_count s' = 50 ∧ iteration_count s' = 50 ∧
    tested s' = tested s ++ (i, true) ::
      ((fun i => (i, true)) <$> seqZ (Z.succ i) (Z.pred (Z.of_nat (S n))))) as Hstep.
  { intros ok lv msg.
    set (s1 := print_stats (add_log lv msg
          (add_crash_record (CrashRecord i mutated_data pr ok)
             (incr_crash_count (add_tested i true
                (add_logs recs (after_engine m' (set_iteration_count i s)))))))).
    assert (crash_count s1 = i) as Hc1 by done.
    assert (tested s1 = tested s ++ [(i, true)]) as Ht1 by done.
    assert (iteration_count s1 = i) as Hi1 by done.
    destruct (Z.leb_spec 50 (crash_count s1)).
    - eexists. split; [done|]. cbn.
      replace (Z.pred (Z.of_nat (S n))) with 0 by lia.
      rewrite seqZ_nil by lia. repeat split; try done; lia.
    - destruct (IH s1 (Z.pred m)) as (s' & Hrun & H50 & Hit & Htested); try lia.
      exists s'. rewrite Hc1 in Hrun, Htested.
      replace (i + 1) with (Z.succ i) in Hrun, Htested by lia.
      split; [done|]. split; [done|]. split; [done|].
      replace (Z.pred (Z.of_nat (S n))) with (Z.of_nat n) by lia.
      by rewrite Htested, Ht1, <- app_assoc. }
  destruct (crash_files_written (env i)); apply Hstep.
Qed.

(** A run from a fresh fuzzer, the base file being there.  Whatever
    happens, the crash counter is the number of crash-like verdicts seen, it
    never passes 50, the crash directories are as many unless an exception
    ended the run, the run stops early exactly when the counter reaches 50,
    and no iteration follows the one in which it does.  When the budget is at
    least 50 and each of the first 50 iterations ends in a crash-like verdict
    whose crash directory can be made, the loop stops early at iteration 50
    with the counter at 50 and exactly 50 crash directories: never 51. *)
Lemma crash_counter_and_early_stop (decode : bytes → string) (self : fuzzer)
    (iterations : Z) (env : Z → io_env) (disk : gmap string bytes)
    (tp : nat → Z) (base : bytes) :
  disk !! base_zip_path self = Some base →
  ∃ why s',
    fuzz decode self iterations env (initial disk tp) = Some (why, s') ∧
    crash_count s' = Z.of_nat (crash_like (tested s')) ∧
    crash_count s' ≤ 50 ∧
    (why ≠ RunError → Z.of_nat (length (crash_records s')) = crash_count s') ∧
    (why = EarlyLimit ↔ crash_count s' = 50 ∧ why ≠ RunError) ∧
    (crash_count s' = 50 → last (tested s') = Some (iteration_count s', true)) ∧
    (50 ≤ iterations → wf_bytes base → len base = 0 ∨ 10 ≤ len base →
     (∀ i, 1 ≤ i ≤ 50 → crash_like_iteration decode env i) →
     why = EarlyLimit ∧ crash_count s' = 50 ∧ iteration_count s' = 50 ∧
     length (crash_records s') = 50%nat ∧
     tested s' = (fun i => (i, true)) <$> seqZ 1 50).
Proof.
  intros Hbase. unfold fuzz. rewrite open_rb_initial, Hbase.
  set (s0 := add_log INFO (BaseZipLoaded (len base))
               (add_log INFO (StartingFuzzing iterations) (initial disk tp))).
  destruct (fuzz_loop decode env base (range 1 (iterations + 1)) s0)
    as [why s1] eqn:Hrun.
  pose proof (fuzz_loop_counts decode env base _ s0 why s1 Hrun) as Hcounts.
  destruct Hcounts as (H1 & H2 & H3 & H4 & H5 & H6); [by split|done|].
  eexists why, _. split; [done|].
  assert (∀ s, crash_count (add_log INFO (FuzzingCompleted (crash_count (print_stats s)))
                 (print_stats s)) = crash_count s) as Ec by done.
  assert (∀ s, tested (add_log INFO (FuzzingCompleted (crash_count (print_stats s)))
                 (print_stats s)) = tested s) as Et by done.
  assert (∀ s, crash_records (add_log INFO (FuzzingCompleted (crash_count (print_stats s)))
                 (print_stats s)) = crash_records s) as Er by done.
  assert (∀ s, iteration_count (add_log INFO (FuzzingCompleted (crash_count (print_stats s)))
                 (print_stats s)) = iteration_count s) as Ei by done.
  rewrite Ec, Et, Er, Ei.
  set (s1' := match why with RunError => add_log ERROR FuzzingError s1 | _ => s1 end).
  assert (crash_count s1' = crash_count s1) as -> by (by destruct why).
  assert (tested s1' = tested s1) as -> by (by destruct why).
  assert (crash_records s1' = crash_records s1) as -> by (by destruct why).
  assert (iteration_count s1' = iteration_count s1) as -> by (by destruct why).
  do 5 (split; [done|]).
  intros Hbudget Hw Hlen Henv.
  destruct (fuzz_loop_all_crash decode env base Hw Hlen Henv 50 s0 (iterations + 1 - 1))
    as (s2 & Hrun2 & Hc2 & Hi2 & Ht2); [done|lia|done|lia|].
  unfold range in Hrun. change (crash_count s0 + 1) with 1 in Hrun2, Ht2.
  rewrite Hrun2 in Hrun. injection Hrun as <- <-.
  split; [done|]. split; [done|]. split; [done|]. split; [|done].
  specialize (H4 ltac:(done)). lia.
Qed.

Lemma crash_counter_and_early_stop_witness :
  ∃ s',
    fuzz decode_ascii sample_fuzzer 60 always_timeout (initial sample_disk (tape []))
      = Some (EarlyLimit, s') ∧
    crash_count s' = 50 ∧ iteration_count s' = 50 ∧
    length (crash_records s') = 50%nat.
Proof.
  destruct (crash_counter_and_early_stop decode_ascii sample_fuzzer 60 always_timeout
              sample_disk (tape []) sample_seed)
    as (why & s' & Hrun & _ & _ & _ & _ & _ & Hall).
  - reflexivity.
  - destruct Hall as (-> & Hc & Hi & Hr & _).
    + lia.
    + repeat constructor; unfold is_byte; lia.
    + right. vm_compute. discriminate.
    + intros i _. repeat split.
    + exists s'. repeat split; assumption.
Defined.

(** C4: a run in which the verdict of every iteration is crash-like and the
    budget is 60, and in which no crash directory can be made.  The claim
    has the loop stop after 50 crash records with the counter at 50; the
    [OSError] of [os.makedirs], which stands before the [try] of
    [save_crash], ends the run in its first iteration instead, with the
    counter at 1 and no crash record. *)
Theorem crash_like_run_stops_short (decode : bytes → string) :
  (∀ i, (run_7zip_test decode i (tool (no_crash_dir i))).1.1 = true) ∧
  (∀ i, temp_file_written (no_crash_dir i) = true) ∧
  ∃ s',
    fuzz decode sample_fuzzer 60 no_crash_dir (initial sample_disk (tape []))
      = Some (RunError, s') ∧
    crash_count s' = 1 ∧ iteration_count s' = 1 ∧
    tested s' = [(1, true)] ∧ crash_records s' = [].
Proof.
  split; [done|]. split; [done|].
  eexists. split; [vm_compute; reflexivity|]. repeat split.
Qed.

(** C6: the crash directory of the first iteration cannot be made.  The
    counter has been incremented, but [os.makedirs] stands before the [try]
    of [save_crash]: the exception leaves the method, the loop ends in its
    first iteration of three and only the error of the run is logged. *)
Theorem crash_dir_failure_ends_the_run (decode : bytes → string) :
  ∃ s',
    fuzz decode sample_fuzzer 3 no_crash_dir (initial sample_disk (tape []))
      = Some (RunError, s') ∧
    crash_count s' = 1 ∧ iteration_count s' = 1 ∧
    tested s' = [(1, true)] ∧ crash_records s' = [] ∧
    log s' = [ (INFO, StartingFuzzing 3); (INFO, BaseZipLoaded 22);
               (WARNING, TimeoutTesting 1); (ERROR, FuzzingError);
               (INFO, Progress 1 1); (INFO, FuzzingCompleted 1) ].
Proof. eexists. split; [vm_compute; reflexivity|]. repeat split. Qed.

(** When it is the files of the crash record that cannot be written, the
    error is logged, the counter is incremented and the loop goes on. *)
Lemma crash_files_failure_is_contained (decode : bytes → string) :
  ∃ s',
    fuzz decode sample_fuzzer 3 no_crash_files (initial sample_disk (tape []))
      = Some (Completed, s') ∧
    crash_count s' = 3 ∧ iteration_count s' = 3 ∧
    tested s' = [(1, true); (2, true); (3, true)] ∧
    cr_complete <$> crash_records s' = [false; false; false] ∧
    filter (fun r => r.1 = ERROR) (log s')
      = [(ERROR, ErrorSavingCrash); (ERROR, ErrorSavingCrash); (ERROR, ErrorSavingCrash)].
Proof. eexists. split; [vm_compute; reflexivity|]. repeat split. Qed.

Lemma save_crash_files_failure io iteration data pr s :
  crash_dir_made io = true → crash_files_written io = false →
  ∃ s', save_crash io iteration data pr s = inl s' ∧
        crash_count s' = crash_count s + 1 ∧
        log s' = log s ++ [(ERROR, ErrorSavingCrash)].
Proof. intros Hd Hf. unfold save_crash. rewrite Hd, Hf. by eexists. Qed.

Lemma save_crash_dir_failure io iteration data pr s :
  crash_dir_made io = false →
  ∃ s', save_crash io iteration data pr s = inr s' ∧
        crash_count s' = crash_count s + 1 ∧ log s' = log s.
Proof. intros Hd. unfold save_crash. rewrite Hd. by eexists. Qed.

(** ** Start-up *)

(** C2: the code does not do what the claim, the docstring of
    [create_base_zip] and the comment at its call in [main] say.  When the
    seed path does not exist, the constructor logs the error and the process
    exits with status 1: no archive is synthesized (the files are as they
    were), no iteration runs, and [create_base_zip] is never reached. *)
Theorem missing_seed_is_fatal (decode : bytes → string)
    (zip_archive : list (string * bytes) → bytes) (args : arguments)
    (env : Z → io_env) (s : state) :
  path_exists (arg_base_zip args) s = false →
  ∃ s', main decode zip_archive args env s = (1, s') ∧
        files s' = files s ∧ path_exists (arg_base_zip args) s' = false ∧
        tested s' = tested s ∧ crash_records s' = crash_records s ∧
        log s' = log s ++ [ (ERROR, BaseZipNotFound (arg_base_zip args));
                            (INFO, LogFile) ].
Proof.
  intros Hmissing. unfold main, init.
  change (path_exists (arg_base_zip args)
            (State 0 0 (files s) (crash_records s) (tested s) (log s) (random s)
                   (denied s)))
    with (path_exists (arg_base_zip args) s).
  rewrite Hmissing. cbn [negb]. eexists. split; [done|].
  split; [done|]. split; [exact Hmissing|]. cbn. by rewrite <- app_assoc.
Qed.

Lemma missing_seed_is_fatal_witness :
  ∃ s', main decode_ascii stored_archive sample_arguments always_timeout
          (initial disk_without_seed (tape [])) = (1, s') ∧
        files s' = disk_without_seed ∧ path_exists "seed.zip" s' = false ∧
        tested s' = [] ∧ crash_records s' = [] ∧
        log s' = [ (ERROR, BaseZipNotFound "seed.zip"); (INFO, LogFile) ].
Proof.
  apply (missing_seed_is_fatal decode_ascii stored_archive sample_arguments
           always_timeout (initial disk_without_seed (tape []))).
  reflexivity.
Defined.

(** The run of C2 on a disk that holds the tool and no seed archive: the
    process exits with status 1, the path still does not exist afterwards,
    and no iteration has run. *)
Lemma missing_seed_is_not_synthesized :
  path_exists "seed.zip" (initial disk_without_seed (tape [])) = false ∧
  ∃ s', main decode_ascii stored_archive sample_arguments always_timeout
          (initial disk_without_seed (tape [])) = (1, s') ∧
        path_exists "seed.zip" s' = false ∧
        iteration_count s' = 0 ∧ tested s' = [] ∧
        log s' = [ (ERROR, BaseZipNotFound "seed.zip"); (INFO, LogFile) ].
Proof.
  split; [reflexivity|]. eexists. split; [reflexivity|]. repeat split.
Qed.

(** ** Further properties *)

(** From ten bytes on, [mutate_zip_structure] always returns: a well-formed
    buffer, of the length of the input or, from header injection, up to 104
    bytes longer. *)
Theorem mutation_returns_from_ten_bytes (data : bytes) (s : mstate) :
  wf_bytes data → 10 ≤ len data →
  ∃ out s', mutate_zip_structure data s = Ret out s' ∧
            wf_bytes out ∧ len data ≤ len out ≤ len data + 104.
Proof.
  intros Hw Hn.
  destruct (mutate_returns data s Hw) as (out & s' & Hrun & Hout); [right; by left|].
  exists out, s'. split; [done|].
  destruct (Z.eqb_spec (len data) 0); [lia|]. destruct Hout as [Hwf Hl].
  split; [done|].
  destruct ((mutation_type s =? 6) && (len data <? 5000)); lia.
Qed.

Lemma mutation_returns_from_ten_bytes_witness :
  ∃ out s', mutate_zip_structure (replicate 11 7) (MState [] (tape [7; 0; 10; 500]) [])
              = Ret out s' ∧
            wf_bytes out ∧ 11 ≤ len out ≤ 11 + 104.
Proof.
  apply (mutation_returns_from_ten_bytes (replicate 11 7)
           (MState [] (tape [7; 0; 10; 500]) [])).
  - repeat constructor; unfold is_byte; lia.
  - vm_compute. discriminate.
Defined.

(** Size-field mutation never writes outside the buffer: it raises nothing
    and returns a buffer of the length of its input. *)
Theorem file_sizes_stay_in_bounds (data : bytes) (r : nat → Z)
    (lg : list log_record) :
  wf_bytes data →
  ∃ out s', _mutate_file_sizes (MState data r lg) = Ret out s' ∧
            len out = len data ∧ wf_bytes out.
Proof.
  intros Hw.
  pose proof (file_sizes_shape (len data) (MState data r lg) (conj eq_refl Hw)) as H.
  unfold wp in H.
  destruct (_mutate_file_sizes (MState data r lg)) as [out s'|e s'|]; [|done|done].
  destruct H as [[Hl Hwf] _]. by exists out, s'.
Qed.

Lemma file_sizes_stay_in_bounds_witness :
  ∃ out s', _mutate_file_sizes
              (MState (local_sig ++ replicate 23 0) (tape [305419896; 1]) [])
              = Ret out s' ∧
            len out = 27 ∧ wf_bytes out.
Proof.
  apply (file_sizes_stay_in_bounds (local_sig ++ replicate 23 0)
           (tape [305419896; 1]) []).
  repeat constructor; unfold is_byte; lia.
Defined.

(** A budget of zero iterations: no mutation, no run of the tool, no draw
    from the tape, and the final statistics are logged with an iteration
    count of 0. *)
Theorem zero_budget_runs_nothing (decode : bytes → string) (self : fuzzer)
    (env : Z → io_env) (disk : gmap string bytes) (tp : nat → Z) (base : bytes) :
  disk !! base_zip_path self = Some base →
  ∃ s', fuzz decode self 0 env (initial disk tp) = Some (Completed, s') ∧
        tested s' = [] ∧ crash_records s' = [] ∧ random s' = tp ∧
        iteration_count s' = 0 ∧ crash_count s' = 0 ∧
        log s' = [ (INFO, StartingFuzzing 0); (INFO, BaseZipLoaded (len base));
                   (INFO, Progress 0 0); (INFO, FuzzingCompleted 0) ].
Proof.
  intros Hbase. unfold fuzz. rewrite open_rb_initial, Hbase.
  eexists. split; [reflexivity|]. repeat split.
Qed.

Lemma zero_budget_runs_nothing_witness :
  ∃ s', fuzz decode_ascii sample_fuzzer 0 always_timeout (initial sample_disk (tape []))
          = Some (Completed, s') ∧
        tested s' = [] ∧ crash_records s' = [] ∧ random s' = tape [] ∧
        iteration_count s' = 0 ∧ crash_count s' = 0 ∧
        log s' = [ (INFO, StartingFuzzing 0); (INFO, BaseZipLoaded (len sample_seed));
                   (INFO, Progress 0 0); (INFO, FuzzingCompleted 0) ].
Proof.
  apply (zero_budget_runs_nothing decode_ascii sample_fuzzer always_timeout
           sample_disk (tape []) sample_seed).
  reflexivity.
Defined.

(** ** The classifier *)

Lemma prefix_spec (a b : string) :
  String.prefix a b = true ↔ ∃ rest, b = String.append a rest.
Proof.
  revert b. induction a as [|c a IH]; intros b.
  - split; [intros _; by exists b|intros _; by destruct b].
  - destruct b as [|d b]; simpl; [split; [done|by intros [rest ?]]|].
    destruct (Ascii.ascii_dec c d) as [->|Hne].
    + rewrite IH. split; intros [rest Hr]; exists rest; [by rewrite Hr|].
      by injection Hr.
    + split; [done|]. intros [rest Hr]. by injection Hr.
Qed.

(** [contains] is Python's [in] on strings. *)
Lemma contains_spec (needle text : string) :
  contains needle text = true ↔ is_substring needle text.
Proof.
  unfold is_substring. induction text as [|c text IH].
  - change (contains needle EmptyString)
      with (String.prefix needle EmptyString || false).
    rewrite orb_false_r, prefix_spec. split.
    + intros [rest Hr]. by exists EmptyString, rest.
    + intros ([|d before] & after & Hr); [by exists after|done].
  - change (contains needle (String c text))
      with (String.prefix needle (String c text) || contains needle text).
    rewrite orb_true_iff, prefix_spec, IH. split.
    + intros [[rest Hr]|(before & after & Hr)].
      * by exists EmptyString, rest.
      * exists (String c before), after. simpl. by rewrite Hr.
    + intros ([|d before] & after & Hr).
      * left. by exists after.
      * right. injection Hr as -> Hr. by exists before, after.
Qed.

(** The verdict of the classifier on a run that ended: it is a crash exactly
    when the exit code is 2 or 8, or one of the eight indicators stands in
    the decoded standard output or standard error; the exit code plays no
    other part (a code of 0 with an indicator in the output is a crash, a
    code of 1 or 7 without one is not). *)
Theorem classifier_verdict (decode : bytes → string) (p : process_result) :
  (analyze_7zip_result decode (Some p)).1 = true ↔
  returncode p = 2 ∨ returncode p = 8 ∨
  ∃ indicator, indicator ∈ crash_indicators ∧
    (is_substring indicator (decode (stdout p)) ∨
     is_substring indicator (decode (stderr p))).
Proof.
  unfold analyze_7zip_result.
  destruct (Z.eqb_spec (returncode p) 2) as [H2|H2]; [by split; [left|]|].
  destruct (Z.eqb_spec (returncode p) 8) as [H8|H8]; [by split; [right; left|]|].
  assert (∀ text,
    existsb (fun indicator => contains indicator text) crash_indicators = true ↔
    ∃ indicator, indicator ∈ crash_indicators ∧ is_substring indicator text) as Hex.
  { intros text. rewrite existsb_exists. split; intros (i & Hi & Hc); exists i.
    - split; [by apply list_elem_of_In|by apply contains_spec].
    - split; [by apply list_elem_of_In|by apply contains_spec]. }
  destruct (existsb _ crash_indicators || existsb _ crash_indicators) eqn:Hany; simpl.
  - split; [|done]. intros _. right. right.
    apply orb_true_iff in Hany as [Ho|He].
    + apply Hex in Ho as (i & Hi & Hs). exists i. split; [done|by left].
    + apply Hex in He as (i & Hi & Hs). exists i. split; [done|by right].
  - split; [done|]. intros [?|[?|(i & Hi & [Hs|Hs])]]; [done|done| |].
    + apply orb_false_iff in Hany as [Ho _].
      assert (existsb (fun indicator => contains indicator (decode (stdout p)))
                crash_indicators = true) as Ht by (apply Hex; by exists i).
      by rewrite Ho in Ht.
    + apply orb_false_iff in Hany as [_ He].
      assert (existsb (fun indicator => contains indicator (decode (stderr p)))
                crash_indicators = true) as Ht by (apply Hex; by exists i).
      by rewrite He in Ht.
Qed.

(** ** One iteration of the loop *)

(** What one turn of the loop does: it ends the run in an exception before
    any verdict (the engine raised, or the temporary file could not be
    written), or it reaches a verdict and then either fails to make the crash
    directory, or goes on to the early-stop test. *)
Lemma fuzz_loop_iteration decode env base i rest s :
  wf_bytes base →
  (∃ s1, fuzz_loop decode env base (i :: rest) s = (RunError, s1) ∧
         crash_count s1 = crash_count s ∧ tested s1 = tested s ∧
         crash_records s1 = crash_records s ∧ iteration_count s1 = i ∧
         files s1 = files s ∧
         ((∃ e m, mutate_zip_structure base (MState [] (random s) (log s)) = Raise e m) ∨
          temp_file_written (env i) = false)) ∨
  (∃ mutated_data m pr s1,
     mutate_zip_structure base (MState [] (random s) (log s)) = Ret mutated_data m ∧
     temp_file_written (env i) = true ∧
     tested s1 = tested s ++ [(i, (run_7zip_test decode i (tool (env i))).1.1)] ∧
     iteration_count s1 = i ∧ files s1 = files s ∧
     (((run_7zip_test decode i (tool (env i))).1.1 = true ∧
       crash_dir_made (env i) = false ∧
       fuzz_loop decode env base (i :: rest) s = (RunError, s1) ∧
       crash_count s1 = crash_count s + 1 ∧
       crash_records s1 = crash_records s) ∨
      (((run_7zip_test decode i (tool (env i))).1.1 = true ∧
        crash_dir_made (env i) = true ∧
        crash_count s1 = crash_count s + 1 ∧
        crash_records s1 = crash_records s ++
          [CrashRecord i mutated_data pr (crash_files_written (env i))]) ∨
       ((run_7zip_test decode i (tool (env i))).1.1 = false ∧
        crash_count s1 = crash_count s ∧
        crash_records s1 = crash_records s)) ∧
      fuzz_loop decode env base (i :: rest) s =
        (if 50 <=? crash_count s1 then (EarlyLimit, add_log INFO StoppingEarly s1)
         else fuzz_loop decode env base rest s1))).
Proof.
  intros Hw. cbn [fuzz_loop set_iteration_count random log].
  destruct (mutate_zip_structure base (MState [] (random s) (log s)))
    as [mutated_data m|e m|] eqn:Hm.
  - destruct (temp_file_written (env i)) eqn:Htemp.
    + right. destruct (run_7zip_test decode i (tool (env i))) as [[v pr] recs].
      cbn [fst snd]. destruct v.
      * unfold save_crash. destruct (crash_dir_made (env i)) eqn:Hdir.
        -- rewrite orb_true_r.
           destruct (crash_files_written (env i));
             lazymatch goal with
             | |- context [fuzz_loop _ _ _ rest ?s3] => exists mutated_data, m, pr, s3
             end;
             (do 5 (split; [done|])); right; (split; [left; done|done]).
        -- lazymatch goal with
           | |- context [(RunError, ?s3) = _] => exists mutated_data, m, pr, s3
           end.
           do 5 (split; [done|]). by left.
      * rewrite orb_false_r. destruct (i mod 100 =? 0);
          lazymatch goal with
          | |- context [fuzz_loop _ _ _ rest ?s3] => exists mutated_data, m, pr, s3
          end;
          (do 5 (split; [done|])); right; (split; [right; done|done]).
    + left. eexists. split; [done|]. repeat split; try done. by right.
  - left. eexists. split; [done|]. repeat split; try done. left. by eexists _, _.
  - exfalso. pose proof (mutate_shape base (MState [] (random s) (log s)) Hw) as H.
    unfold wp in H. by rewrite Hm in H.
Qed.

(** ** Runs without a crash *)

Lemma fuzz_loop_all_benign decode env base :
  wf_bytes base → len base = 0 ∨ 10 ≤ len base →
  ∀ todo s,
    crash_count s < 50 →
    (∀ i, i ∈ todo → benign_iteration decode env i) →
    ∃ s', fuzz_loop decode env base todo s = (Completed, s') ∧
          crash_count s' = crash_count s ∧
          crash_records s' = crash_records s ∧
          tested s' = tested s ++ ((fun i => (i, false)) <$> todo) ∧
          iteration_count s' = default (iteration_count s) (last todo).
Proof.
  intros Hw Hlen. induction todo as [|i rest IH]; intros s Hc Hall.
  { exists s. simpl. by rewrite app_nil_r. }
  destruct (Hall i ltac:(by left)) as [Htemp Hv].
  destruct (fuzz_loop_iteration decode env base i rest s Hw)
    as [(s1 & _ & _ & _ & _ & _ & _ & [(e & m & Hraise)|Hno])
       |(mutated_data & m & pr & s1 & _ & _ & Ht1 & Hi1 & _ & Hcase)].
  - destruct (mutate_returns base (MState [] (random s) (log s)) Hw)
      as (out & m' & Hret & _); [destruct Hlen; [by left|right; by left]|].
    by rewrite Hret in Hraise.
  - by rewrite Htemp in Hno.
  - rewrite Hv in Hcase, Ht1.
    destruct Hcase as [(? & _)|[[(? & _)|(_ & Hc1 & Hr1)] Hrun]]; [done|done|].
    rewrite Hrun. destruct (Z.leb_spec 50 (crash_count s1)); [lia|].
    destruct (IH s1) as (s' & Hrun' & Hc' & Hr' & Ht' & Hi'); [lia|intros; apply Hall; by right|].
    exists s'. split; [done|]. split; [lia|]. split; [by rewrite Hr'|].
    split; [rewrite Ht', Ht1, <- app_assoc; done|].
    rewrite Hi', Hi1. destruct rest as [|j rest]; [done|].
    rewrite (last_cons_cons i j rest).
    destruct (last_is_Some (j :: rest)) as [_ [x ->]]; done.
Qed.

(** A run in which no verdict is crash-like (a tool that cannot be launched
    is such a case: every iteration is then reported benign) uses its whole
    budget: every iteration is run, in order, the counter stays at 0 and no
    crash directory is made. *)
Theorem benign_run_exhausts_budget (decode : bytes → string) (self : fuzzer)
    (iterations : Z) (env : Z → io_env) (disk : gmap string bytes)
    (tp : nat → Z) (base : bytes) :
  disk !! base_zip_path self = Some base →
  wf_bytes base → len base = 0 ∨ 10 ≤ len base →
  (∀ i, 1 ≤ i ≤ iterations → benign_iteration decode env i) →
  ∃ s',
    fuzz decode self iterations env (initial disk tp) = Some (Completed, s') ∧
    crash_count s' = 0 ∧ crash_records s' = [] ∧
    tested s' = (fun i => (i, false)) <$> seqZ 1 iterations ∧
    iteration_count s' = Z.max 0 iterations.
Proof.
  intros Hbase Hw Hlen Hall. unfold fuzz. rewrite open_rb_initial, Hbase.
  set (s0 := add_log INFO (BaseZipLoaded (len base))
               (add_log INFO (StartingFuzzing iterations) (initial disk tp))).
  destruct (fuzz_loop_all_benign decode env base Hw Hlen (range 1 (iterations + 1)) s0)
    as (s1 & Hrun & Hc & Hr & Ht & Hi); [done| |].
  { intros i Hi. apply elem_of_range in Hi. apply Hall. lia. }
  rewrite Hrun. eexists. split; [done|]. cbn.
  rewrite Hc, Hr, Ht, Hi. unfold range. replace (iterations + 1 - 1) with iterations by lia.
  do 3 (split; [done|]).
  destruct (Z.le_gt_cases iterations 0).
  - rewrite seqZ_nil by done. simpl. lia.
  - rewrite last_lookup, length_seqZ.
    rewrite lookup_seqZ_lt by lia. simpl. lia.
Qed.

Lemma benign_run_exhausts_budget_witness :
  ∃ s',
    fuzz decode_ascii sample_fuzzer 5 never_launched (initial sample_disk (tape []))
      = Some (Completed, s') ∧
    crash_count s' = 0 ∧ crash_records s' = [] ∧
    tested s' = (fun i => (i, false)) <$> seqZ 1 5 ∧
    iteration_count s' = Z.max 0 5.
Proof.
  apply (benign_run_exhausts_budget decode_ascii sample_fuzzer 5 never_launched
           sample_disk (tape []) sample_seed).
  - reflexivity.
  - repeat constructor; unfold is_byte; lia.
  - right. vm_compute. discriminate.
  - intros i _. split; reflexivity.
Defined.

(** ** Failures while writing a crash record *)

Lemma fuzz_loop_survives_file_failures decode env base :
  wf_bytes base → len base = 0 ∨ 10 ≤ len base →
  ∀ todo s,
    (∀ i, i ∈ todo → temp_file_written (env i) = true ∧ crash_dir_made (env i) = true) →
    records_reflect env (crash_records s) →
    ∃ why s', fuzz_loop decode env base todo s = (why, s') ∧
              why ≠ RunError ∧ records_reflect env (crash_records s').
Proof.
  intros Hw Hlen. induction todo as [|i rest IH]; intros s Hall Hrec.
  { by exists Completed, s. }
  destruct (Hall i ltac:(by left)) as [Htemp Hdir].
  destruct (fuzz_loop_iteration decode env base i rest s Hw)
    as [(s1 & _ & _ & _ & _ & _ & _ & [(e & m & Hraise)|Hno])
       |(mutated_data & m & pr & s1 & _ & _ & Ht1 & Hi1 & _ & Hcase)].
  - destruct (mutate_returns base (MState [] (random s) (log s)) Hw)
      as (out & m' & Hret & _); [destruct Hlen; [by left|right; by left]|].
    by rewrite Hret in Hraise.
  - by rewrite Htemp in Hno.
  - destruct Hcase as [(_ & Hd & _)|[Hstate Hrun]]; [by rewrite Hdir in Hd|].
    assert (records_reflect env (crash_records s1)) as Hrec1.
    { destruct Hstate as [(_ & _ & _ & ->)|(_ & _ & ->)]; [|done].
      apply Forall_app. split; [done|]. by constructor. }
    rewrite Hrun. destruct (50 <=? crash_count s1).
    + by eexists EarlyLimit, _.
    + apply IH; [intros; apply Hall; by right|done].
Qed.

(** A failure to write the files of a crash record never ends the run: when
    the seed has no or at least 10 bytes, every temporary file is written
    and every crash directory is made, the run ends by its budget or by the
    early stop, whatever happens to the files; every crash-like verdict is
    counted and has its directory, which is complete exactly when its files
    could be written. *)
Theorem crash_file_failures_never_end_the_run (decode : bytes → string)
    (self : fuzzer) (iterations : Z) (env : Z → io_env)
    (disk : gmap string bytes) (tp : nat → Z) (base : bytes) :
  disk !! base_zip_path self = Some base →
  wf_bytes base → len base = 0 ∨ 10 ≤ len base →
  (∀ i, 1 ≤ i ≤ iterations →
        temp_file_written (env i) = true ∧ crash_dir_made (env i) = true) →
  ∃ why s',
    fuzz decode self iterations env (initial disk tp) = Some (why, s') ∧
    why ≠ RunError ∧
    crash_count s' = Z.of_nat (crash_like (tested s')) ∧
    length (crash_records s') = crash_like (tested s') ∧
    records_reflect env (crash_records s').
Proof.
  intros Hbase Hw Hlen Hall. unfold fuzz. rewrite open_rb_initial, Hbase.
  set (s0 := add_log INFO (BaseZipLoaded (len base))
               (add_log INFO (StartingFuzzing iterations) (initial disk tp))).
  destruct (fuzz_loop_survives_file_failures decode env base Hw Hlen
              (range 1 (iterations + 1)) s0)
    as (why & s1 & Hrun & Hwhy & Hrec); [|by constructor|].
  { intros i Hi. apply elem_of_range in Hi. apply Hall. lia. }
  destruct (fuzz_loop_counts decode env base _ s0 why s1 Hrun)
    as (H1 & _ & _ & H4 & _); [by split|done|].
  rewrite Hrun. exists why. eexists. split; [done|]. split; [done|].
  destruct why; [| |done]; cbn; (split; [done|]); (split; [|done]);
    specialize (H4 ltac:(done)); lia.
Qed.

Lemma crash_file_failures_never_end_the_run_witness :
  ∃ why s',
    fuzz decode_ascii sample_fuzzer 4 flaky_crash_files (initial sample_disk (tape []))
      = Some (why, s') ∧
    why ≠ RunError ∧
    crash_count s' = Z.of_nat (crash_like (tested s')) ∧
    length (crash_records s') = crash_like (tested s') ∧
    records_reflect flaky_crash_files (crash_records s').
Proof.
  apply (crash_file_failures_never_end_the_run decode_ascii sample_fuzzer 4
           flaky_crash_files sample_disk (tape []) sample_seed).
  - reflexivity.
  - repeat constructor; unfold is_byte; lia.
  - right. vm_compute. discriminate.
  - intros i _. split; reflexivity.
Defined.

(** ** The order of the iterations *)

Lemma fmap_fst_snoc (runs : list (Z * bool)) i v :
  (runs ++ [(i, v)]).*1 = runs.*1 ++ [i].
Proof. by rewrite fmap_app. Qed.

Lemma crash_runs_snoc (runs : list (Z * bool)) i (v : bool) :
  (filter (fun run => run.2 = true) (runs ++ [(i, v)])).*1
  = (filter (fun run => run.2 = true) runs).*1 ++ (if v then [i] else []).
Proof.
  rewrite filter_app, fmap_app. f_equal.
  rewrite filter_cons, filter_nil. simpl. by destruct v.
Qed.

Lemma fuzz_loop_in_order decode env base :
  wf_bytes base →
  ∀ (m : nat) s k,
    0 ≤ k →
    (tested s).*1 = seqZ 1 k →
    cr_iteration <$> crash_records s = (filter (fun run => run.2 = true) (tested s)).*1 →
    ∀ why s',
      fuzz_loop decode env base (seqZ (k + 1) (Z.of_nat m)) s = (why, s') →
      ∃ k', k ≤ k' ≤ k + Z.of_nat m ∧
            (tested s').*1 = seqZ 1 k' ∧
            (cr_iteration <$> crash_records s') `prefix_of`
              (filter (fun run => run.2 = true) (tested s')).*1 ∧
            (why ≠ RunError →
             cr_iteration <$> crash_records s'
             = (filter (fun run => run.2 = true) (tested s')).*1) ∧
            (cr_iteration <$> crash_records s'
             = (filter (fun run => run.2 = true) (tested s')).*1 ∨
             why = RunError ∧
             (filter (fun run => run.2 = true) (tested s')).*1
             = (cr_iteration <$> crash_records s') ++ [iteration_count s'] ∧
             last (tested s') = Some (iteration_count s', true)).
Proof.
  intros Hw. induction m as [|m IH]; intros s k Hk Ht Hr why s' Hrun.
  { rewrite seqZ_nil in Hrun by done. injection Hrun as <- <-.
    exists k. split; [lia|]. split; [done|]. split; [by rewrite Hr|].
    split; [done|by left]. }
  rewrite seqZ_cons in Hrun by lia.
  replace (Z.pred (Z.of_nat (S m))) with (Z.of_nat m) in Hrun by lia.
  destruct (fuzz_loop_iteration decode env base (k + 1)
              (seqZ (Z.succ (k + 1)) (Z.of_nat m)) s Hw)
    as [(s1 & Hrun1 & _ & Ht1 & Hr1 & _)
       |(mutated_data & m' & pr & s1 & _ & _ & Ht1 & Hi1 & _ & Hcase)].
  - rewrite Hrun1 in Hrun. injection Hrun as <- <-.
    exists k. rewrite Ht1, Hr1. split; [lia|]. split; [done|].
    split; [by rewrite Hr|]. split; [done|by left].
  - assert ((tested s1).*1 = seqZ 1 (k + 1)) as Ht1'.
    { rewrite Ht1, fmap_fst_snoc, Ht. rewrite (seqZ_app 1 k 1) by lia.
      f_equal. rewrite seqZ_cons, seqZ_nil by lia. f_equal. lia. }
    destruct Hcase as [(Hv & _ & Hrun1 & _ & Hr1)|[Hstate Hrun1]].
    + rewrite Hrun1 in Hrun. injection Hrun as <- <-.
      exists (k + 1). split; [lia|]. split; [done|].
      split; [rewrite Hr1, Hr, Ht1, crash_runs_snoc; by apply prefix_app_r|].
      split; [done|]. right. split; [done|].
      rewrite Hr1, Hr, Ht1, Hi1, crash_runs_snoc, last_snoc. by rewrite Hv.
    + assert (cr_iteration <$> crash_records s1
              = (filter (fun run => run.2 = true) (tested s1)).*1) as Hr1'.
      { rewrite Ht1, crash_runs_snoc.
        destruct Hstate as [(-> & _ & _ & ->)|(-> & _ & ->)].
        - by rewrite fmap_app, Hr.
        - by rewrite app_nil_r. }
      rewrite Hrun1 in Hrun. destruct (50 <=? crash_count s1).
      * injection Hrun as <- <-. exists (k + 1). cbn [add_log tested crash_records].
        split; [lia|]. split; [done|]. split; [by rewrite Hr1'|].
        split; [done|by left].
      * replace (Z.succ (k + 1)) with (k + 1 + 1) in Hrun by lia.
        destruct (IH s1 (k + 1) ltac:(lia) Ht1' Hr1' why s' Hrun)
          as (k' & Hk' & H1 & H2 & H3).
        exists k'. split; [lia|done].
Qed.

(** The iterations are run in order and each is tested at most once: the
    runs of the tool are those of iterations 1, 2, ..., up to the number of
    runs, which is within the budget.  A crash directory is made only for a
    crash-like run, in the order of the runs and at most one per iteration,
    so that no two crash directories bear the same iteration number.  Every
    crash-like run has its directory, but for one case: when an exception
    ended the run, the last run of all may be a crash-like one without a
    directory, and then it is the only one. *)
Theorem crash_records_in_iteration_order (decode : bytes → string)
    (self : fuzzer) (iterations : Z) (env : Z → io_env)
    (disk : gmap string bytes) (tp : nat → Z) (base : bytes) :
  disk !! base_zip_path self = Some base → wf_bytes base →
  ∃ why s',
    fuzz decode self iterations env (initial disk tp) = Some (why, s') ∧
    (tested s').*1 = seqZ 1 (len (tested s')) ∧
    len (tested s') ≤ Z.max 0 iterations ∧
    (cr_iteration <$> crash_records s') `prefix_of`
      (filter (fun run => run.2 = true) (tested s')).*1 ∧
    (why ≠ RunError →
     cr_iteration <$> crash_records s'
     = (filter (fun run => run.2 = true) (tested s')).*1) ∧
    NoDup (cr_iteration <$> crash_records s') ∧
    (cr_iteration <$> crash_records s'
     = (filter (fun run => run.2 = true) (tested s')).*1 ∨
     why = RunError ∧
     (filter (fun run => run.2 = true) (tested s')).*1
     = (cr_iteration <$> crash_records s') ++ [iteration_count s'] ∧
     last (tested s') = Some (iteration_count s', true)).
Proof.
  intros Hbase Hw. unfold fuzz. rewrite open_rb_initial, Hbase.
  set (s0 := add_log INFO (BaseZipLoaded (len base))
               (add_log INFO (StartingFuzzing iterations) (initial disk tp))).
  destruct (fuzz_loop decode env base (range 1 (iterations + 1)) s0)
    as [why s1] eqn:Hrun.
  unfold range in Hrun. replace (iterations + 1 - 1) with iterations in Hrun by lia.
  assert (seqZ 1 iterations = seqZ (0 + 1) (Z.of_nat (Z.to_nat iterations))) as Hseq.
  { destruct (Z.le_gt_cases iterations 0).
    - rewrite !seqZ_nil; [done|lia|done].
    - by rewrite Z2Nat.id by lia. }
  rewrite Hseq in Hrun.
  destruct (fuzz_loop_in_order decode env base Hw (Z.to_nat iterations) s0 0
              ltac:(done) ltac:(done) ltac:(done) why s1 Hrun)
    as (k' & Hk' & H1 & H2 & H3 & H4).
  exists why. eexists. split; [done|].
  assert (len (tested s1) = k') as Hlen.
  { unfold len. rewrite <- (length_fmap fst), H1, length_seqZ. lia. }
  assert (∀ s, tested (add_log INFO (FuzzingCompleted (crash_count (print_stats s)))
                 (print_stats s)) = tested s) as Et by done.
  assert (∀ s, crash_records (add_log INFO (FuzzingCompleted (crash_count (print_stats s)))
                 (print_stats s)) = crash_records s) as Er by done.
  assert (∀ s, iteration_count (add_log INFO (FuzzingCompleted (crash_count (print_stats s)))
                 (print_stats s)) = iteration_count s) as Ei by done.
  rewrite Et, Er, Ei.
  set (s1' := match why with RunError => add_log ERROR FuzzingError s1 | _ => s1 end).
  assert (tested s1' = tested s1) as -> by (by destruct why).
  assert (crash_records s1' = crash_records s1) as -> by (by destruct why).
  assert (iteration_count s1' = iteration_count s1) as -> by (by destruct why).
  rewrite Hlen. split; [done|]. split; [lia|]. split; [done|]. split; [done|].
  split; [|done].
  assert (NoDup (filter (fun run => run.2 = true) (tested s1)).*1) as Hnd.
  { eapply sublist_NoDup; [|apply fmap_sublist, sublist_filter].
    rewrite H1. apply NoDup_seqZ. }
  destruct H2 as [more Hmore]. rewrite Hmore in Hnd.
  by apply NoDup_app in Hnd as [? _].
Qed.

Lemma crash_records_in_iteration_order_witness :
  ∃ why s',
    fuzz decode_ascii sample_fuzzer 4 flaky_crash_files (initial sample_disk (tape []))
      = Some (why, s') ∧
    (tested s').*1 = seqZ 1 (len (tested s')) ∧
    len (tested s') ≤ Z.max 0 4 ∧
    (cr_iteration <$> crash_records s') `prefix_of`
      (filter (fun run => run.2 = true) (tested s')).*1 ∧
    (why ≠ RunError →
     cr_iteration <$> crash_records s'
     = (filter (fun run => run.2 = true) (tested s')).*1) ∧
    NoDup (cr_iteration <$> crash_records s') ∧
    (cr_iteration <$> crash_records s'
     = (filter (fun run => run.2 = true) (tested s')).*1 ∨
     why = RunError ∧
     (filter (fun run => run.2 = true) (tested s')).*1
     = (cr_iteration <$> crash_records s') ++ [iteration_count s'] ∧
     last (tested s') = Some (iteration_count s', true)).
Proof.
  apply (crash_records_in_iteration_order decode_ascii sample_fuzzer 4
           flaky_crash_files sample_disk (tape []) sample_seed).
  - reflexivity.
  - repeat constructor; unfold is_byte; lia.
Defined.

(** ** A temporary file that cannot be written *)

Lemma fuzz_loop_benign_prefix decode env base :
  wf_bytes base → len base = 0 ∨ 10 ≤ len base →
  ∀ pre rest s,
    crash_count s < 50 →
    (∀ i, i ∈ pre → benign_iteration decode env i) →
    ∃ s1, fuzz_loop decode env base (pre ++ rest) s = fuzz_loop decode env base rest s1 ∧
          crash_count s1 = crash_count s ∧
          crash_records s1 = crash_records s ∧
          tested s1 = tested s ++ ((fun i => (i, false)) <$> pre).
Proof.
  intros Hw Hlen. induction pre as [|i pre IH]; intros rest s Hc Hall.
  { exists s. simpl. by rewrite app_nil_r. }
  destruct (Hall i ltac:(by left)) as [Htemp Hv].
  destruct (fuzz_loop_iteration decode env base i (pre ++ rest) s Hw)
    as [(s1 & _ & _ & _ & _ & _ & _ & [(e & m & Hraise)|Hno])
       |(mutated_data & m & pr & s1 & _ & _ & Ht1 & Hi1 & _ & Hcase)].
  - destruct (mutate_returns base (MState [] (random s) (log s)) Hw)
      as (out & m' & Hret & _); [destruct Hlen; [by left|right; by left]|].
    by rewrite Hret in Hraise.
  - by rewrite Htemp in Hno.
  - rewrite Hv in Hcase, Ht1.
    destruct Hcase as [(? & _)|[[(? & _)|(_ & Hc1 & Hr1)] Hrun]]; [done|done|].
    change ((i :: pre) ++ rest) with (i :: (pre ++ rest)). rewrite Hrun.
    destruct (Z.leb_spec 50 (crash_count s1)); [lia|].
    destruct (IH rest s1) as (s2 & Hrun' & Hc' & Hr' & Ht');
      [lia|intros; apply Hall; by right|].
    exists s2. split; [done|]. split; [lia|]. split; [by rewrite Hr'|].
    rewrite Ht', Ht1, <- app_assoc. done.
Qed.

(** A temporary file that cannot be written ends the run: when iterations
    1 to [k - 1] are benign and the file of iteration [k] cannot be
    written, the exception is caught by [fuzz], which logs the error and the
    final statistics; the tool is not run for iteration [k], and no later
    iteration is started. *)
Theorem temp_file_failure_ends_the_run (decode : bytes → string) (self : fuzzer)
    (iterations k : Z) (env : Z → io_env) (disk : gmap string bytes)
    (tp : nat → Z) (base : bytes) :
  disk !! base_zip_path self = Some base →
  wf_bytes base → len base = 0 ∨ 10 ≤ len base →
  1 ≤ k ≤ iterations →
  (∀ i, 1 ≤ i < k → benign_iteration decode env i) →
  temp_file_written (env k) = false →
  ∃ s',
    fuzz decode self iterations env (initial disk tp) = Some (RunError, s') ∧
    iteration_count s' = k ∧
    tested s' = (fun i => (i, false)) <$> seqZ 1 (k - 1) ∧
    crash_count s' = 0 ∧ crash_records s' = [] ∧
    (ERROR, FuzzingError) ∈ log s' ∧
    last (log s') = Some (INFO, FuzzingCompleted 0).
Proof.
  intros Hbase Hw Hlen Hk Hall Hfail. unfold fuzz.
  rewrite open_rb_initial, Hbase.
  set (s0 := add_log INFO (BaseZipLoaded (len base))
               (add_log INFO (StartingFuzzing iterations) (initial disk tp))).
  assert (range 1 (iterations + 1)
          = seqZ 1 (k - 1) ++ k :: seqZ (k + 1) (iterations - k)) as ->.
  { unfold range. replace (iterations + 1 - 1) with ((k - 1) + (iterations - k + 1)) by lia.
    rewrite seqZ_app by lia. f_equal.
    rewrite seqZ_cons by lia. f_equal; [lia|]. f_equal; lia. }
  destruct (fuzz_loop_benign_prefix decode env base Hw Hlen (seqZ 1 (k - 1))
              (k :: seqZ (k + 1) (iterations - k)) s0)
    as (s1 & -> & Hc1 & Hr1 & Ht1); [done| |].
  { intros i Hi. apply elem_of_seqZ in Hi. apply Hall. lia. }
  destruct (fuzz_loop_iteration decode env base k (seqZ (k + 1) (iterations - k)) s1 Hw)
    as [(s2 & -> & Hc2 & Ht2 & Hr2 & Hi2 & _)
       |(? & ? & ? & ? & _ & Htemp & _)]; [|by rewrite Hfail in Htemp].
  eexists. split; [done|]. cbn.
  rewrite Hi2, Ht2, Ht1, Hc2, Hc1, Hr2, Hr1.
  change (crash_count s0) with 0. change (tested s0) with (@nil (Z * bool)).
  change (crash_records s0) with (@nil crash_record).
  do 4 (split; [done|]). split.
  - apply elem_of_app. left. apply elem_of_app. left. apply elem_of_app. right.
    by apply list_elem_of_singleton.
  - apply last_snoc.
Qed.

Lemma temp_file_failure_ends_the_run_witness :
  ∃ s',
    fuzz decode_ascii sample_fuzzer 5 temp_file_fails_at_3 (initial sample_disk (tape []))
      = Some (RunError, s') ∧
    iteration_count s' = 3 ∧
    tested s' = [(1, false); (2, false)] ∧
    crash_count s' = 0 ∧ crash_records s' = [] ∧
    (ERROR, FuzzingError) ∈ log s' ∧
    last (log s') = Some (INFO, FuzzingCompleted 0).
Proof.
  apply (temp_file_failure_ends_the_run decode_ascii sample_fuzzer 5 3
           temp_file_fails_at_3 sample_disk (tape []) sample_seed).
  - reflexivity.
  - repeat constructor; unfold is_byte; lia.
  - right. vm_compute. discriminate.
  - lia.
  - intros i Hi. assert (i = 1 ∨ i = 2) as [-> | ->] by lia; split; reflexivity.
  - reflexivity.
Defined.

(** ** The constructor, the seed archive and the exit status *)

Lemma find_7zip_Some s path :
  find_7zip s = Some path → path ∈ possible_paths ∧ path_exists path s = true.
Proof.
  unfold find_7zip. intros H. apply find_some in H as [Hin Hex].
  split; [by apply list_elem_of_In|done].
Qed.

Lemma find_7zip_None s path :
  find_7zip s = None → path ∈ possible_paths → path_exists path s = false.
Proof.
  unfold find_7zip. intros H Hin.
  apply list_elem_of_In in Hin.
  pose proof (find_none _ _ H _ Hin) as Hnone. cbv beta in Hnone.
  by destruct (path_exists path s).
Qed.

Lemma find_7zip_not_empty s : find_7zip s ≠ Some ""%string.
Proof.
  intros [Hin _]%find_7zip_Some.
  unfold possible_paths in Hin.
  repeat (apply elem_of_cons in Hin as [Hin|Hin]; [discriminate|]).
  by apply elem_of_nil in Hin.
Qed.

Lemma path_exists_reset path s :
  path_exists path
    (State 0 0 (files s) (crash_records s) (tested s) (log s) (random s) (denied s))
  = path_exists path s.
Proof. reflexivity. Qed.

Lemma find_7zip_reset s :
  find_7zip (State 0 0 (files s) (crash_records s) (tested s) (log s) (random s) (denied s))
  = find_7zip s.
Proof. reflexivity. Qed.

Lemma init_Some base sp dbg s self s1 :
  init base sp dbg s = (Some self, s1) →
  path_exists base s = true ∧ tool_resolves sp s ∧
  base_zip_path self = base ∧ debug self = dbg ∧
  sevenzip_path self ≠ ""%string ∧
  (∀ path, sp = Some path → path ≠ ""%string → sevenzip_path self = path) ∧
  (sp = None ∨ sp = Some ""%string →
   find_7zip s = Some (sevenzip_path self)) ∧
  files s1 = files s ∧ crash_count s1 = 0 ∧ iteration_count s1 = 0 ∧
  tested s1 = tested s ∧ crash_records s1 = crash_records s.
Proof.
  unfold init. rewrite path_exists_reset, find_7zip_reset.
  destruct (path_exists base s) eqn:Hbase; cbn [negb]; [|discriminate].
  intros H.
  assert (∀ tool,
    (if bool_decide (tool = ""%string)
     then (None, add_log ERROR SevenZipNotFound
                   (State 0 0 (files s) (crash_records s) (tested s) (log s) (random s) (denied s)))
     else (Some (Fuzzer base tool dbg),
           add_log INFO (BaseZip base) (add_log INFO (SevenZipPath tool)
             (State 0 0 (files s) (crash_records s) (tested s) (log s) (random s) (denied s)))))
    = (Some self, s1) →
    tool ≠ ""%string ∧ self = Fuzzer base tool dbg ∧
    files s1 = files s ∧ crash_count s1 = 0 ∧ iteration_count s1 = 0 ∧
    tested s1 = tested s ∧ crash_records s1 = crash_records s) as Hend.
  { intros tool. case_bool_decide; [discriminate|].
    intros [= <- <-]. done. }
  destruct sp as [path|].
  - destruct (bool_decide (path = ""%string)) eqn:Hpath.
    + apply bool_decide_eq_true in Hpath as ->.
      destruct (find_7zip s) as [tool|] eqn:Hfind; [|discriminate].
      apply Hend in H as (Hne & -> & ? & ? & ? & ? & ?).
      apply find_7zip_Some in Hfind as Hfound.
      split_and!; try done.
      * right. by exists tool.
      * by intros path [= <-] ?.
    + apply bool_decide_eq_false in Hpath.
      apply Hend in H as (Hne & -> & ? & ? & ? & ? & ?).
      split_and!; try done.
      * left. by exists path.
      * by intros ? [= <-] _.
      * intros [?|[= ?]]; done.
  - destruct (find_7zip s) as [tool|] eqn:Hfind; [|discriminate].
    apply Hend in H as (Hne & -> & ? & ? & ? & ? & ?).
    apply find_7zip_Some in Hfind as Hfound.
    split_and!; try done.
    right. by exists tool.
Qed.

Lemma init_accepts base sp dbg s :
  path_exists base s = true → tool_resolves sp s →
  ∃ self s1, init base sp dbg s = (Some self, s1).
Proof.
  intros Hbase Htool. unfold init. rewrite path_exists_reset, find_7zip_reset, Hbase.
  cbn [negb].
  assert ((∃ tool, find_7zip s = Some tool ∧ tool ≠ ""%string)
          ∨ (∃ path, sp = Some path ∧ path ≠ ""%string))
    as [(tool & Hfind & Hne)|(path & -> & Hne)].
  { destruct Htool as [?|(path & Hin & Hex)]; [by right|]. left.
    destruct (find_7zip s) as [tool|] eqn:Hfind.
    - exists tool. split; [done|]. intros ->. by apply (find_7zip_not_empty s).
    - by rewrite (find_7zip_None s path Hfind Hin) in Hex. }
  - destruct sp as [path|].
    + destruct (bool_decide (path = ""%string)) eqn:Hpath.
      * rewrite Hfind. rewrite bool_decide_eq_false_2 by done. by eexists _, _.
      * rewrite Hpath. by eexists _, _.
    + rewrite Hfind. rewrite bool_decide_eq_false_2 by done. by eexists _, _.
  - rewrite !bool_decide_eq_false_2 by done. by eexists _, _.
Qed.

(** The constructor makes a fuzzer exactly when the seed archive exists and
    a tool is known: a non-empty path given by the caller, which is taken
    as it is and never looked up on disk, or else the first of the four
    standard places that exists.  An empty path counts as none given.  The
    fuzzer starts with both counters at zero. *)
Theorem constructor_accepts (base : string) (given : option string)
    (dbg : bool) (s : state) :
  ((∃ self, (init base given dbg s).1 = Some self) ↔
   path_exists base s = true ∧ tool_resolves given s) ∧
  (∀ self, (init base given dbg s).1 = Some self →
     base_zip_path self = base ∧ debug self = dbg ∧
     sevenzip_path self ≠ ""%string ∧
     (∀ path, given = Some path → path ≠ ""%string → sevenzip_path self = path) ∧
     (given = None ∨ given = Some ""%string →
      find_7zip s = Some (sevenzip_path self)) ∧
     crash_count (init base given dbg s).2 = 0 ∧
     iteration_count (init base given dbg s).2 = 0).
Proof.
  split; [split|].
  - intros [self Hself]. destruct (init base given dbg s) as [o s1] eqn:Hinit.
    cbn in Hself. subst o. by apply init_Some in Hinit as (? & ? & _).
  - intros [Hbase Htool].
    destruct (init_accepts base given dbg s Hbase Htool) as (self & s1 & ->).
    by exists self.
  - intros self Hself. destruct (init base given dbg s) as [o s1] eqn:Hinit.
    cbn in Hself. subst o. cbn [snd].
    by apply init_Some in Hinit as (_ & _ & ? & ? & ? & ? & ? & _ & ? & ? & _).
Qed.






(** A seed path that is a directory: the constructor passes, [open] raises
    in [fuzz], and the process exits with status 1 without an iteration. *)
Lemma unreadable_seed_exits_with_status_1 :
  path_exists "seed.zip" unreadable_seed = true ∧
  ∃ s', main decode_ascii stored_archive sample_arguments always_timeout
          unreadable_seed = (1, s') ∧
        tested s' = [] ∧
        log s' = [ (INFO, SevenZipPath "7z.exe"); (INFO, BaseZip "seed.zip");
                   (INFO, StartingFuzzing 100); (CRITICAL, FatalError);
                   (INFO, LogFile) ].
Proof.
  split; [reflexivity|]. eexists. split; [vm_compute; reflexivity|]. repeat split.
Qed.

(** ** What the header-driven strategies leave alone *)

Lemma wp_returns {A} (m : M A) s (a : A) s0 :
  wp m s (fun a' s' => a' = a ∧ s' = s0) no_exn → m s = Ret a s0.
Proof.
  unfold wp. destruct (m s) as [a' s'| |]; [|done|done]. by intros [-> ->].
Qed.

Lemma occurrences_nil signature data pos :
  occurrences signature data = [] → 0 ≤ pos < len data →
  slice data pos (pos + 4) ≠ signature.
Proof.
  intros Hocc Hpos Hs.
  assert (pos ∈ occurrences signature data) as Hin.
  { apply list_elem_of_filter. split; [done|]. apply elem_of_seqZ. lia. }
  rewrite Hocc in Hin. by apply elem_of_nil in Hin.
Qed.

(** A scan that finds nothing leaves the state as it is. *)
Lemma wp_scan_idle K (body : Z → M Z) s :
  0 ≤ K →
  (∀ pos, 0 ≤ pos < len (buf s) - K →
     wp (body pos) s (fun pos' s' => pos' = pos + 1 ∧ s' = s) no_exn) →
  wp (with_fuel (fun fuel =>
        while_ fuel (fun pos s => pos <? len (buf s) - K) body 0)) s
     (fun _ s' => s' = s) no_exn.
Proof.
  intros HK Hbody. apply wp_with_fuel.
  eapply wp_mono;
    [apply (wp_while (fun pos s' => 0 ≤ pos ∧ s' = s)
                     (fun pos _ => Z.to_nat (len (buf s) - pos))) | |done].
  - intros pos s' [Hpos ->] Hc. apply Z.ltb_lt in Hc.
    eapply wp_mono; [apply Hbody; lia| |done].
    intros pos' s'' [-> ->]. cbv beta. split; [split; [lia|done]|lia].
  - done.
  - unfold len. lia.
  - by intros pos s' [[_ ->] _].
Qed.

Lemma corrupt_headers_idle signature size p data r lg :
  occurrences signature data = [] →
  corrupt_headers signature size p (MState data r lg) = Ret data (MState data r lg).
Proof.
  intros Hocc. apply wp_returns. unfold corrupt_headers. wp_go.
  eapply wp_mono; [apply (wp_scan_idle 4); [lia|]| |done].
  - intros pos Hpos. simpl in Hpos.
    apply wp_bind, wp_sig_at. intros found Hfound. simpl in Hfound.
    rewrite bool_decide_eq_false_2 in Hfound by (apply occurrences_nil; [done|lia]).
    subst found. by wp_go.
  - intros _ s' ->. by wp_go.
Qed.

Lemma file_sizes_idle data r lg :
  occurrences local_sig data = [] →
  _mutate_file_sizes (MState data r lg) = Ret data (MState data r lg).
Proof.
  intros Hocc. apply wp_returns. unfold _mutate_file_sizes. wp_go.
  eapply wp_mono; [apply (wp_scan_idle 26); [lia|]| |done].
  - intros pos Hpos. simpl in Hpos.
    apply wp_bind, wp_sig_at. intros found Hfound. simpl in Hfound.
    rewrite bool_decide_eq_false_2 in Hfound by (apply occurrences_nil; [done|lia]).
    subst found. by wp_go.
  - intros _ s' ->. by wp_go.
Qed.

Lemma compression_idle data r lg :
  free_of [local_sig; central_sig] data →
  _mutate_compression_methods (MState data r lg) = Ret data (MState data r lg).
Proof.
  intros Hfree. apply wp_returns. unfold _mutate_compression_methods. wp_go.
  eapply wp_mono;
    [apply (wp_for_inv (fun s => s = MState data r lg))| |done]; [|done|].
  - intros signature s Hsig ->. wp_go.
    eapply wp_mono; [apply (wp_scan_idle 8); [lia|]| |done].
    + intros pos Hpos. simpl in Hpos.
      apply wp_bind, wp_sig_at. intros found Hfound. simpl in Hfound.
      rewrite bool_decide_eq_false_2 in Hfound
        by (apply occurrences_nil; [by apply (proj1 (Forall_forall _ _) Hfree)|lia]).
      subst found. by wp_go.
    + intros _ s' ->. by wp_go.
  - intros _ s' ->. by wp_go.
Qed.

Lemma crc_idle data r lg :
  free_of [local_sig; central_sig] data →
  _corrupt_crc_values (MState data r lg) = Ret data (MState data r lg).
Proof.
  intros Hfree. apply wp_returns. unfold _corrupt_crc_values. wp_go.
  eapply wp_mono;
    [apply (wp_for_inv (fun s => s = MState data r lg))| |done]; [|done|].
  - intros signature s Hsig ->. wp_go.
    eapply wp_mono; [apply (wp_scan_idle 16); [lia|]| |done].
    + intros pos Hpos. simpl in Hpos.
      apply wp_bind, wp_sig_at. intros found Hfound. simpl in Hfound.
      rewrite bool_decide_eq_false_2 in Hfound
        by (apply occurrences_nil; [by apply (proj1 (Forall_forall _ _) Hfree)|lia]).
      subst found. by wp_go.
    + intros _ s' ->. by wp_go.
  - intros _ s' ->. by wp_go.
Qed.

(** On a buffer in which the signatures they scan for stand nowhere, the
    five header-driven strategies do nothing: the buffer comes back as it
    was, nothing is drawn from the random source and nothing is logged. *)
Theorem header_strategies_skip_plain_data (mutation_type : Z) (data : bytes)
    (r : nat → Z) (lg : list log_record) :
  1 ≤ mutation_type ≤ 5 → free_of (searched mutation_type) data →
  dispatch mutation_type (MState data r lg) = Ret data (MState data r lg).
Proof.
  intros Hmt Hfree.
  assert (mutation_type = 1 ∨ mutation_type = 2 ∨ mutation_type = 3 ∨
          mutation_type = 4 ∨ mutation_type = 5) as [->|[->|[->|[->| ->]]]] by lia.
  - apply (corrupt_headers_idle local_sig 30 400). by inversion Hfree.
  - apply (corrupt_headers_idle central_sig 46 300). by inversion Hfree.
  - by apply compression_idle.
  - by apply crc_idle.
  - apply file_sizes_idle. by inversion Hfree.
Qed.

Lemma header_strategies_skip_plain_data_witness :
  dispatch 4 (MState (replicate 40 0x50) (tape [9; 9]) [])
  = Ret (replicate 40 0x50) (MState (replicate 40 0x50) (tape [9; 9]) []).
Proof.
  apply (header_strategies_skip_plain_data 4 (replicate 40 0x50) (tape [9; 9]) []).
  - lia.
  - repeat constructor.
Defined.

(** ** The header fields the scans write *)

Lemma only_header_fields_insert signature lo hi data b (k : nat) v :
  only_header_fields signature lo hi data b →
  (∃ p, p ∈ occurrences signature data ∧ p + lo ≤ Z.of_nat k < p + hi) →
  only_header_fields signature lo hi data (<[k := v]> b).
Proof.
  intros [Hlen Hfr] Hk. split.
  - unfold len in *. by rewrite length_insert.
  - intros i Hi. destruct (decide (k = i)) as [<-|Hne]; [done|].
    rewrite list_lookup_insert_ne in Hi by done. by apply Hfr.
Qed.

Lemma scanned_to_found signature lo hi data pos b :
  0 ≤ pos < len data → scanned_to signature lo hi data pos b →
  slice b pos (pos + 4) = signature → pos ∈ occurrences signature data.
Proof.
  intros Hpos [Hsuf _] Hfound. apply occurrences_spec. split; [done|].
  rewrite slice_window in * by lia. rewrite <- Hfound. f_equal.
  apply list_eq. intros i. rewrite !lookup_drop. symmetry. apply Hsuf. lia.
Qed.

Lemma scanned_to_insert signature lo hi data pos pos' b (k : Z) v :
  scanned_to signature lo hi data pos' b →
  pos ∈ occurrences signature data → pos + lo ≤ k < pos + hi → 0 ≤ k → k < pos' →
  scanned_to signature lo hi data pos' (<[Z.to_nat k := v]> b).
Proof.
  intros [Hsuf Hfr] Hocc Hk Hk0 Hlt. split.
  - intros i Hi. rewrite list_lookup_insert_ne by lia. by apply Hsuf.
  - apply only_header_fields_insert; [done|]. exists pos. split; [done|lia].
Qed.

Lemma scanned_to_mono signature lo hi data pos pos' b :
  pos ≤ pos' → scanned_to signature lo hi data pos b →
  scanned_to signature lo hi data pos' b.
Proof. intros Hle [Hsuf Hfr]. split; [|done]. intros i Hi. apply Hsuf. lia. Qed.

Lemma scanned_to_len signature lo hi data pos b :
  scanned_to signature lo hi data pos b → len b = len data.
Proof. by intros [_ [? _]]. Qed.

Lemma scanned_to_start signature lo hi data :
  scanned_to signature lo hi data 0 data.
Proof. split; [done|]. split; [done|]. by intros i []. Qed.

Lemma corrupt_headers_frame signature size p data r lg :
  4 ≤ size →
  wp (corrupt_headers signature size p) (MState data r lg)
     (fun out _ => only_header_fields signature 4 size data out) no_exn.
Proof.
  intros Hsize. unfold corrupt_headers. wp_go.
  eapply wp_mono;
    [apply (wp_scan (scanned_to signature 4 size data) 4 (len data)); [lia|..]| |done].
  - intros pos b. apply scanned_to_len.
  - apply scanned_to_start.
  - clear r lg. intros pos [b r lg] Hpos HI. simpl in HI.
    pose proof (scanned_to_len _ _ _ _ _ _ HI) as Hn.
    apply wp_bind, wp_sig_at. intros found Hfound. simpl in Hfound.
    destruct found.
    + symmetry in Hfound. apply bool_decide_eq_true in Hfound.
      apply (scanned_to_found signature 4 size data pos b) in Hfound; [|lia|done].
      wp_go. rewrite Hn.
      set (header_size := Z.min size (len data - pos)).
      assert (4 ≤ header_size ≤ size) as Hhs by (subst header_size; lia).
      eapply wp_mono;
        [apply (wp_for_inv
                  (fun s => scanned_to signature 4 size data (pos + header_size) (buf s)))
        | |done].
      * intros i [b' r' lg'] Hi HJ. apply elem_of_range in Hi. simpl in HJ.
        pose proof (scanned_to_len _ _ _ _ _ _ HJ) as Hn'.
        wp_go; [|done].
        apply wp_randint; [lia|]. intros _ v r2 Hv.
        apply wp_setitem; [subst header_size; lia|unfold is_byte; lia|].
        simpl. apply scanned_to_insert with (pos := pos); [done|done|lia|lia|lia].
      * simpl. apply scanned_to_mono with (pos := pos); [lia|done].
      * intros ? s' HJ. cbv beta in HJ. wp_go. split; [lia|].
        apply scanned_to_mono with (pos := pos + header_size); [lia|done].
    + wp_go. split; [lia|]. apply scanned_to_mono with (pos := pos); [lia|done].
  - intros pos s' [[_ Hfr] _]. by wp_go.
Qed.

Lemma file_sizes_frame data r lg :
  wp _mutate_file_sizes (MState data r lg)
     (fun out _ => only_header_fields local_sig 18 26 data out) no_exn.
Proof.
  unfold _mutate_file_sizes. wp_go.
  eapply wp_mono;
    [apply (wp_scan (scanned_to local_sig 18 26 data) 26 (len data)); [lia|..]| |done].
  - intros pos b. apply scanned_to_len.
  - apply scanned_to_start.
  - clear r lg. intros pos [b r lg] Hpos HI. simpl in HI.
    apply wp_bind, wp_sig_at. intros found Hfound. simpl in Hfound.
    destruct found.
    + symmetry in Hfound. apply bool_decide_eq_true in Hfound.
      pose proof (scanned_to_len _ _ _ _ _ _ HI) as Hn.
      apply (scanned_to_found local_sig 18 26 data pos b) in Hfound; [|lia|done].
      wp_go.
      eapply wp_mono;
        [apply (wp_for_inv (fun s => scanned_to local_sig 18 26 data (pos + 26) (buf s)))
        | |done].
      * intros offset [b' r' lg'] Hoff HJ. simpl in HJ.
        assert (offset = 18 ∨ offset = 22) as Hoffset.
        { repeat (apply elem_of_cons in Hoff as [->|Hoff]; [lia|]).
          by apply elem_of_nil in Hoff. }
        pose proof (scanned_to_len _ _ _ _ _ _ HJ) as Hn'.
        wp_go; [|done]. apply Z.ltb_lt in Heqb0. simpl in Heqb0.
        apply wp_randint; [lia|]. intros _ size r2 Hv.
        eapply wp_mono;
          [apply (wp_for_inv
                    (fun s => scanned_to local_sig 18 26 data (pos + 26) (buf s)))
          | |done]; [|done|done].
        intros i [b2 r3 lg3] Hi HJ2. apply elem_of_range in Hi. simpl in HJ2.
        pose proof (scanned_to_len _ _ _ _ _ _ HJ2) as Hn2.
        apply wp_setitem; [lia|apply is_byte_land|].
        simpl. apply scanned_to_insert with (pos := pos); [done|done|lia|lia|lia].
      * simpl. apply scanned_to_mono with (pos := pos); [lia|done].
      * intros ? s' HJ. cbv beta in HJ. wp_go. split; [lia|].
        apply scanned_to_mono with (pos := pos + 26); [lia|done].
    + wp_go. split; [lia|]. apply scanned_to_mono with (pos := pos); [lia|done].
  - intros pos s' [[_ Hfr] _]. by wp_go.
Qed.

Lemma wp_Ret {A} (m : M A) s (Q : A → mstate → Prop) :
  wp m s Q no_exn → ∃ a s', m s = Ret a s' ∧ Q a s'.
Proof.
  unfold wp. destruct (m s) as [a s'| |]; [|done|done]. intros HQ. by exists a, s'.
Qed.

(** The scans over headers write only into headers that the input holds:
    whatever is drawn, a byte that [_corrupt_local_headers] changes lies at
    an offset 4 to 29 from a place where the local signature stands in the
    input, one that [_corrupt_central_directory] changes at an offset 4 to
    45 from a central signature of the input, and one that
    [_mutate_file_sizes] changes at an offset 18 to 25 (the two size fields)
    from a local signature of the input.  The three strategies return for
    every buffer, with a buffer of the same length. *)
Theorem scans_write_header_fields_only (data : bytes) (r : nat → Z)
    (lg : list log_record) :
  (∃ out s', _corrupt_local_headers (MState data r lg) = Ret out s' ∧
             only_header_fields local_sig 4 30 data out) ∧
  (∃ out s', _corrupt_central_directory (MState data r lg) = Ret out s' ∧
             only_header_fields central_sig 4 46 data out) ∧
  (∃ out s', _mutate_file_sizes (MState data r lg) = Ret out s' ∧
             only_header_fields local_sig 18 26 data out).
Proof.
  split; [|split].
  - apply (wp_Ret (corrupt_headers local_sig 30 400)).
    apply corrupt_headers_frame. lia.
  - apply (wp_Ret (corrupt_headers central_sig 46 300)).
    apply corrupt_headers_frame. lia.
  - apply wp_Ret, file_sizes_frame.
Qed.

(** ** The start of the buffer *)

Lemma same_start_insert k data b (i : Z) v :
  same_start k data b → Z.of_nat k ≤ i →
  same_start k data (<[Z.to_nat i := v]> b).
Proof.
  intros [Hlen Htake] Hi. split.
  - unfold len in *. by rewrite length_insert.
  - rewrite take_insert_ge by lia. done.
Qed.

Lemma only_header_fields_same_start signature lo hi data out (k : nat) :
  Z.of_nat k ≤ lo → only_header_fields signature lo hi data out →
  same_start k data out.
Proof.
  intros Hk [Hlen Hfr]. split; [done|].
  apply list_eq. intros i. rewrite !lookup_take.
  destruct (decide (i < k)%nat) as [Hi|Hi]; [|done].
  destruct (decide (out !! i = data !! i)) as [|Hne]; [done|].
  destruct (Hfr i Hne) as (p & Hp & Hrange).
  apply occurrences_spec in Hp as [Hp _]. lia.
Qed.

Lemma compression_same_start data r lg :
  wp _mutate_compression_methods (MState data r lg)
     (fun out _ => same_start 8 data out) no_exn.
Proof.
  unfold _mutate_compression_methods. wp_go.
  eapply wp_mono;
    [apply (wp_for_inv (fun s => same_start 8 data (buf s)))| |done]; [|done|].
  - clear r lg. intros signature s _ HI. wp_go.
    eapply wp_mono;
      [apply (wp_scan (fun _ => same_start 8 data) 8 (len data)); [lia|..]| |done].
    + by intros _ b [? _].
    + done.
    + clear s HI. intros pos [b r lg] Hpos HI. simpl in HI.
      pose proof (proj1 HI) as Hn.
      wp_go; try (split; [lia|done]).
      apply wp_choice; [done|]. intros code r' Hc.
      pose proof (proj1 (Forall_forall _ _) Forall_is_byte_method_codes code Hc).
      apply wp_setitem; [simpl in *; lia|done|]. wp_go. split; [lia|].
      apply same_start_insert; [done|lia].
    + intros pos s' [HI' _]. by wp_go.
  - intros ? s' HI. cbv beta in HI. by wp_go.
Qed.

Lemma crc_same_start data r lg :
  wp _corrupt_crc_values (MState data r lg)
     (fun out _ => same_start 14 data out) no_exn.
Proof.
  unfold _corrupt_crc_values. wp_go.
  eapply wp_mono;
    [apply (wp_for_inv (fun s => same_start 14 data (buf s)))| |done]; [|done|].
  - clear r lg. intros signature s _ HI. wp_go.
    eapply wp_mono;
      [apply (wp_scan (fun _ => same_start 14 data) 16 (len data)); [lia|..]| |done].
    + by intros _ b [? _].
    + done.
    + clear s HI. intros pos [b r lg] Hpos HI. simpl in HI.
      pose proof (proj1 HI) as Hn.
      wp_go; try (split; [lia|done]).
      set (off := if bool_decide (signature = local_sig) then 14 else 16) in *.
      assert (14 ≤ off) by (subst off; destruct (bool_decide (signature = local_sig)); lia).
      eapply wp_mono;
        [apply (wp_for_inv (fun s => same_start 14 data (buf s)))| |done]; [|done|].
      * intros i [b' r' lg'] Hi HI'. apply elem_of_range in Hi. simpl in HI'.
        pose proof (proj1 HI') as Hn'.
        apply wp_bind, wp_randint; [lia|]. intros _ v r2 Hv.
        apply wp_setitem; [simpl in *; lia|unfold is_byte; lia|].
        apply same_start_insert; [done|lia].
      * intros ? s' HI'. cbv beta in HI'. wp_go. split; [lia|done].
    + intros pos s' [HI' _]. by wp_go.
  - intros ? s' HI. cbv beta in HI. by wp_go.
Qed.

(** The header-driven strategies never touch the start of the buffer, where
    the signature of the first header stands: whatever is drawn, the first
    4 bytes survive [_corrupt_local_headers] and
    [_corrupt_central_directory], the first 8
    [_mutate_compression_methods], the first 14 [_corrupt_crc_values] and
    the first 18 [_mutate_file_sizes]; each of them returns, and keeps the
    length. *)
Theorem header_strategies_spare_the_start (mutation_type : Z) (data : bytes)
    (r : nat → Z) (lg : list log_record) :
  1 ≤ mutation_type ≤ 5 →
  ∃ out s', dispatch mutation_type (MState data r lg) = Ret out s' ∧
            len out = len data ∧
            take (first_touched mutation_type) out
              = take (first_touched mutation_type) data.
Proof.
  intros Hmt.
  assert (mutation_type = 1 ∨ mutation_type = 2 ∨ mutation_type = 3 ∨
          mutation_type = 4 ∨ mutation_type = 5) as [->|[->|[->|[->| ->]]]] by lia.
  - apply (wp_Ret (corrupt_headers local_sig 30 400)).
    eapply wp_mono; [apply corrupt_headers_frame; lia| |done].
    intros out s' H. cbv beta in H.
    apply (only_header_fields_same_start _ _ _ _ _ 4) in H; [exact H|lia].
  - apply (wp_Ret (corrupt_headers central_sig 46 300)).
    eapply wp_mono; [apply corrupt_headers_frame; lia| |done].
    intros out s' H. cbv beta in H.
    apply (only_header_fields_same_start _ _ _ _ _ 4) in H; [exact H|lia].
  - apply (wp_Ret _mutate_compression_methods), compression_same_start.
  - apply (wp_Ret _corrupt_crc_values), crc_same_start.
  - apply (wp_Ret _mutate_file_sizes).
    eapply wp_mono; [apply file_sizes_frame| |done].
    intros out s' H. cbv beta in H.
    apply (only_header_fields_same_start _ _ _ _ _ 18) in H; [exact H|lia].
Qed.

Lemma header_strategies_spare_the_start_witness :
  ∃ out s', dispatch 1 (MState sample_seed (tape [0; 77]) []) = Ret out s' ∧
            len out = len sample_seed ∧ take 4 out = take 4 sample_seed.
Proof.
  apply (header_strategies_spare_the_start 1 sample_seed (tape [0; 77]) []). lia.
Defined.

(** ** What the byte-level strategies write *)

Lemma with_run_extend (data : bytes) (start k : nat) pattern :
  (start + k < length data)%nat →
  <[(start + k)%nat := pattern]> (with_run data start k pattern)
  = with_run data start (S k) pattern.
Proof.
  intros Hlt. unfold with_run.
  rewrite insert_app_r_alt by (rewrite length_take; lia).
  rewrite length_take_le by lia.
  replace (start + k - start)%nat with k by lia.
  rewrite insert_app_r_alt by (by rewrite length_replicate).
  rewrite length_replicate, Nat.sub_diag.
  destruct (lookup_lt_is_Some_2 data (start + k)%nat Hlt) as [x Hx].
  rewrite (drop_S _ _ _ Hx). cbn [insert list_insert].
  rewrite replicate_S_end, <- !app_assoc. cbn [app].
  by replace (start + S k)%nat with (S (start + k)) by lia.
Qed.

Lemma length_with_run (data : bytes) (start k : nat) pattern :
  (start + k ≤ length data)%nat →
  length (with_run data start k pattern) = length data.
Proof.
  intros Hle. unfold with_run.
  rewrite !length_app, length_take_le, length_replicate, length_drop by lia. lia.
Qed.

Lemma with_run_zero (data : bytes) start pattern :
  with_run data start 0 pattern = data.
Proof. unfold with_run. cbn [replicate app]. by rewrite Nat.add_0_r, take_drop. Qed.

Lemma repeat_byte_run data r lg :
  wp _repeat_byte_mutation (MState data r lg)
     (fun out s' =>
        if 20 <? len data then
          ∃ (pattern : Z) (start length : nat),
            is_byte pattern ∧ Z.of_nat start ≤ len data - 10 ∧
            Nat.le 5 length ∧ Nat.le length 50 ∧
            Nat.le (start + length) (List.length data) ∧
            out = with_run data start length pattern
        else out = data ∧ s' = MState data r lg)
     no_exn.
Proof.
  unfold _repeat_byte_mutation. apply wp_bind, wp_data_len. cbn [buf].
  destruct (Z.ltb_spec 20 (len data)) as [Hn|Hn]; [|by wp_go].
  apply wp_bind, wp_bind.
  apply wp_randint; [lia|]. intros _ pattern r1 Hpat.
  apply wp_bind, wp_randint; [lia|]. intros _ start_pos r2 Hstart.
  apply wp_bind, wp_data_len. cbn [buf].
  apply wp_bind, wp_randint; [lia|]. intros _ length r3 Hlength.
  set (start := Z.to_nat start_pos).
  eapply wp_mono;
    [apply (wp_for (fun k s => buf s = with_run data start k pattern) no_exn _
                   (range 0 length) 0%nat)| |done].
  - intros i x [b r' lg'] Hx Hb. cbn [buf] in Hb. cbn [Nat.add] in *.
    unfold range in Hx. apply lookup_seqZ in Hx as [-> Hi].
    assert (start + i < List.length data)%nat as Hin
      by (subst start; unfold len in *; lia).
    apply wp_bind, wp_data_len. cbn [buf].
    assert (len b = len data) as Hlen.
    { unfold len. rewrite Hb, length_with_run; [done|lia]. }
    rewrite Hlen. destruct (Z.ltb_spec (start_pos + (0 + Z.of_nat i)) (len data)) as [_|Hge];
      [|subst start; unfold len in *; lia].
    apply wp_setitem; [lia|unfold is_byte; lia|]. cbn [buf].
    replace (Z.to_nat (start_pos + (0 + Z.of_nat i))) with (start + i)%nat
      by (subst start; lia).
    rewrite Hb. by apply with_run_extend.
  - cbn [buf]. by rewrite with_run_zero.
  - intros ? s' Hb. cbv beta in Hb. cbn [Nat.add] in Hb.
    apply wp_data_bytes. rewrite Hb.
    unfold range. rewrite length_seqZ.
    exists pattern, start, (Z.to_nat (length - 0)).
    split; [unfold is_byte; lia|].
    subst start. unfold len in *. repeat split; try lia.
Qed.

(** [_repeat_byte_mutation] overwrites one run of bytes with one byte value:
    on a buffer of more than 20 bytes the output is the input with the
    bytes from [start] to [start + length - 1] set to [pattern], for a run
    of 5 to 50 bytes that starts at most at the tenth byte from the end and
    lies inside the buffer; so the guard [start_pos + i < len(data)] never
    fails.  A buffer of 20 bytes or fewer comes back unchanged, and nothing
    is drawn.  The strategy returns for every buffer. *)
Theorem repeat_byte_writes_one_run (data : bytes) (r : nat → Z)
    (lg : list log_record) :
  ∃ out s',
    _repeat_byte_mutation (MState data r lg) = Ret out s' ∧
    if 20 <? len data then
      ∃ (pattern : Z) (start length : nat),
        is_byte pattern ∧ Z.of_nat start ≤ len data - 10 ∧
        Nat.le 5 length ∧ Nat.le length 50 ∧
        Nat.le (start + length) (List.length data) ∧
        out = with_run data start length pattern
    else out = data ∧ s' = MState data r lg.
Proof. apply wp_Ret, repeat_byte_run. Qed.

Lemma land_byte_add b value :
  is_byte b → 1 ≤ value ≤ 255 → Z.land (b + value) 0xFF ≠ b.
Proof.
  unfold is_byte. intros Hb Hv. change 0xFF with (Z.ones 8).
  rewrite Z.land_ones by lia. change (2 ^ 8) with 256.
  destruct (Z.lt_ge_cases (b + value) 256).
  - rewrite Z.mod_small by lia. lia.
  - replace (b + value) with (b + value - 256 + 1 * 256) by lia.
    rewrite Z_mod_plus_full, Z.mod_small by lia. lia.
Qed.

Lemma land_byte_sub b value :
  is_byte b → 1 ≤ value ≤ 255 → Z.land (b - value) 0xFF ≠ b.
Proof.
  unfold is_byte. intros Hb Hv. change 0xFF with (Z.ones 8).
  rewrite Z.land_ones by lia. change (2 ^ 8) with 256.
  destruct (Z.lt_ge_cases (b - value) 0).
  - replace (b - value) with (b - value + 256 + (-1) * 256) by lia.
    rewrite Z_mod_plus_full, Z.mod_small by lia. lia.
  - rewrite Z.mod_small by lia. lia.
Qed.

Lemma count_diff_insert_other (data : bytes) (pos : nat) b v :
  data !! pos = Some b → v ≠ b → count_diff data (<[pos := v]> data) = 1%nat.
Proof.
  intros Hb Hne.
  rewrite (count_diff_insert_base data (<[pos := v]> data) pos b v); [|done| |done].
  - by rewrite count_diff_refl.
  - apply list_lookup_insert_eq. by eapply lookup_lt_Some.
Qed.

Lemma arithmetic_one_byte data r lg :
  wf_bytes data →
  wp _arithmetic_mutation (MState data r lg)
     (fun out s' =>
        if 10 <? len data then
          ∃ (pos : nat) (op : operation) (value b : Z),
            data !! pos = Some b ∧ 1 ≤ value ≤ 255 ∧
            out = <[pos := apply_operation op b value]> data ∧
            Nat.le (count_diff data out) 1 ∧
            (op ≠ Mul → count_diff data out = 1%nat)
        else out = data ∧ s' = MState data r lg)
     no_exn.
Proof.
  intros Hw. unfold _arithmetic_mutation. apply wp_bind, wp_data_len. cbn [buf].
  destruct (Z.ltb_spec 10 (len data)) as [Hn|Hn]; [|by wp_go].
  apply wp_bind, wp_bind.
  apply wp_randint; [lia|]. intros _ pos r1 Hpos.
  apply wp_bind, wp_choice; [done|]. intros op r2 _.
  apply wp_bind, wp_randint; [lia|]. intros _ value r3 Hvalue.
  apply wp_bind, wp_getitem; [lia|].
  assert (Z.to_nat pos < List.length data)%nat as Hin by (unfold len in *; lia).
  destruct (lookup_lt_is_Some_2 data (Z.to_nat pos) Hin) as [b Hb].
  assert (nth (Z.to_nat pos) data 0 = b) as Hnth by (by apply nth_lookup_Some).
  rewrite Hnth.
  assert (is_byte b) as Hbyte.
  { by apply (proj1 (Forall_lookup _ _) Hw (Z.to_nat pos)). }
  assert (wp (setitem pos (apply_operation op b value)) (MState data r3 lg)
            (fun _ s' => buf s' = <[Z.to_nat pos := apply_operation op b value]> data)
            no_exn) as Hset.
  { apply wp_setitem; [lia| |done]. destruct op; apply is_byte_land. }
  eapply wp_mono; [destruct op; exact Hset| |done].
  intros ? s' Hbuf. cbv beta in Hbuf. apply wp_data_bytes. rewrite Hbuf.
  exists (Z.to_nat pos), op, value, b.
  split; [done|]. split; [done|]. split; [done|].
  split; [apply count_diff_insert|].
  intros Hop. apply (count_diff_insert_other data _ b); [done|].
  destruct op; [by apply land_byte_add|by apply land_byte_sub|done].
Qed.

(** [_arithmetic_mutation] changes at most one byte: on a buffer of more
    than 10 bytes the output is the input with the byte at one position
    replaced by that byte plus, minus or times a value from 1 to 255, modulo
    256.  Adding and subtracting always change the byte; multiplying may
    leave it (times 1, or a zero byte).  A buffer of 10 bytes or fewer comes
    back unchanged, and nothing is drawn.  The strategy returns for every
    buffer. *)
Theorem arithmetic_changes_one_byte (data : bytes) (r : nat → Z)
    (lg : list log_record) :
  wf_bytes data →
  ∃ out s',
    _arithmetic_mutation (MState data r lg) = Ret out s' ∧
    if 10 <? len data then
      ∃ (pos : nat) (op : operation) (value b : Z),
        data !! pos = Some b ∧ 1 ≤ value ≤ 255 ∧
        out = <[pos := apply_operation op b value]> data ∧
        Nat.le (count_diff data out) 1 ∧
        (op ≠ Mul → count_diff data out = 1%nat)
    else out = data ∧ s' = MState data r lg.
Proof. intros Hw. by apply wp_Ret, arithmetic_one_byte. Qed.

Lemma arithmetic_changes_one_byte_witness :
  ∃ out s',
    _arithmetic_mutation (MState (replicate 11 200) (tape [3; 0; 99]) []) = Ret out s' ∧
    ∃ (pos : nat) (op : operation) (value b : Z),
      replicate 11 200 !! pos = Some b ∧ 1 ≤ value ≤ 255 ∧
      out = <[pos := apply_operation op b value]> (replicate 11 200) ∧
      Nat.le (count_diff (replicate 11 200) out) 1 ∧
      (op ≠ Mul → count_diff (replicate 11 200) out = 1%nat).
Proof.
  apply (arithmetic_changes_one_byte (replicate 11 200) (tape [3; 0; 99]) []).
  repeat constructor; unfold is_byte; lia.
Defined.

Lemma clamp_inside n position : 0 ≤ position ≤ n → clamp n position = position.
Proof.
  intros Hp. unfold clamp. destruct (Z.ltb_spec position 0); lia.
Qed.

Lemma inject_block data r lg :
  wp _inject_random_headers (MState data r lg)
     (fun out s' =>
        if len data <? 5000 then
          ∃ (header extra : bytes) (position : nat),
            header ∈ headers ∧ Nat.le position (List.length data) ∧
            10 ≤ len extra ≤ 100 ∧ wf_bytes extra ∧
            out = take position data ++ header ++ extra ++ drop position data
        else out = data ∧ s' = MState data r lg)
     no_exn.
Proof.
  unfold _inject_random_headers. apply wp_bind, wp_data_len. cbn [buf].
  assert (0 ≤ len data) by (unfold len; lia).
  destruct (Z.ltb_spec (len data) 5000) as [Hn|Hn]; [|by apply wp_data_bytes].
  apply wp_bind, wp_choice; [done|]. intros header r1 Hheader.
  apply wp_bind, wp_randint; [lia|]. intros _ position r2 Hposition.
  apply wp_bind, wp_randint; [lia|]. intros _ k r3 Hk.
  apply wp_bind, wp_os_urandom; [lia|]. intros extra r4 Hlen Hextra.
  apply wp_bind, wp_data_bytes, wp_ret. cbn [buf].
  exists header, extra, (Z.to_nat position).
  split; [done|]. split; [unfold len in *; lia|]. split; [lia|]. split; [done|].
  unfold insert_at. rewrite clamp_inside by lia. by rewrite <- app_assoc.
Qed.

(** [_inject_random_headers] inserts one block and removes nothing: on a
    buffer of fewer than 5000 bytes the output is the input cut at one
    position (from 0 to its length) with one of the six signatures and 10
    to 100 further bytes put in between, so the input can be read off the
    output by dropping the block.  A buffer of 5000 bytes or more comes back
    unchanged, and nothing is drawn.  The strategy returns for every
    buffer. *)
Theorem injection_inserts_one_block (data : bytes) (r : nat → Z)
    (lg : list log_record) :
  ∃ out s',
    _inject_random_headers (MState data r lg) = Ret out s' ∧
    if len data <? 5000 then
      ∃ (header extra : bytes) (position : nat),
        header ∈ headers ∧ Nat.le position (List.length data) ∧
        10 ≤ len extra ≤ 100 ∧ wf_bytes extra ∧
        out = take position data ++ header ++ extra ++ drop position data
    else out = data ∧ s' = MState data r lg.
Proof. apply wp_Ret, inject_block. Qed.

(** ** Boundary values *)

(** [for] with [break], telling the turn that breaks from the others. *)
Lemma wp_for_break_exit {A} (I : nat → mstate → Prop) (B : mstate → Prop) E
    (body : A → M bool) :
  ∀ l k s,
  (∀ i x s, l !! i = Some x → I (k + i)%nat s →
     wp (body x) s (fun c s' => if c : bool then B s' else I (S (k + i)) s') E) →
  I k s →
  wp (for_break l body) s (fun _ s' => B s' ∨ I (k + length l)%nat s') E.
Proof.
  induction l as [|x l IH]; intros k s Hbody HI.
  - apply wp_ret. right. by rewrite Nat.add_0_r.
  - change (for_break (x :: l) body)
      with (bind (body x) (fun c => if c : bool then ret tt else for_break l body)).
    apply wp_bind.
    eapply wp_mono; [apply (Hbody 0%nat x); [done|by rewrite Nat.add_0_r]| |done].
    intros c s' HI'. cbv beta in HI'. rewrite Nat.add_0_r in HI'.
    destruct c.
    + apply wp_ret. by left.
    + eapply wp_mono; [apply (IH (S k))| |done]; [|done|].
      * intros i y s'' Hl Hi.
        replace (S k + i)%nat with (k + S i)%nat in * by lia.
        by apply (Hbody (S i)).
      * intros ? s'' [?|HI'']; [by left|right].
        cbn [length]. by replace (k + S (length l))%nat with (S k + length l)%nat by lia.
Qed.

Lemma count_diff_same (a b : bytes) :
  length a = length b → (∀ i : nat, b !! i = a !! i) → count_diff a b = 0%nat.
Proof.
  intros _ Heq. rewrite (list_eq b a Heq). apply count_diff_refl.
Qed.

(** Buffers that differ inside a window only differ in at most as many
    places as the window is wide. *)
Lemma count_diff_window (a b : bytes) (start width : nat) :
  differs_within start width a b → (count_diff a b ≤ width)%nat.
Proof.
  revert b start width. induction a as [|x a IH]; intros [|y b] start width [Hlen Hw];
    simpl in *; try lia.
  destruct start as [|start].
  - destruct width as [|width].
    + pose proof (Hw 0%nat) as H0. simpl in H0.
      case_bool_decide as Hxy; [|exfalso; assert (Some y ≠ Some x) as Hne by congruence;
                                  specialize (H0 Hne); lia].
      rewrite (count_diff_same a b); [lia|lia|].
      intros i. destruct (decide (b !! i = a !! i)) as [|Hne]; [done|].
      specialize (Hw (S i) Hne). lia.
    + assert (count_diff a b ≤ width)%nat.
      { apply (IH b 0%nat width). split; [lia|].
        intros i Hne. specialize (Hw (S i) Hne). lia. }
      case_bool_decide; lia.
  - pose proof (Hw 0%nat) as H0. simpl in H0.
    case_bool_decide as Hxy; [|exfalso; assert (Some y ≠ Some x) as Hne by congruence;
                                specialize (H0 Hne); lia].
    assert (count_diff a b ≤ width)%nat; [|lia].
    apply (IH b start width). split; [lia|].
    intros i Hne. specialize (Hw (S i) Hne). lia.
Qed.

Lemma differs_within_refl start width (a : bytes) : differs_within start width a a.
Proof. split; [done|]. by intros i []. Qed.

Lemma differs_within_insert start width (a b : bytes) (k : nat) v :
  differs_within start width a b → (start ≤ k < start + width)%nat →
  differs_within start width a (<[k := v]> b).
Proof.
  intros [Hlen Hw] Hk. split; [by rewrite length_insert|].
  intros i Hi. destruct (decide (k = i)) as [<-|Hne]; [done|].
  rewrite list_lookup_insert_ne in Hi by done. by apply Hw.
Qed.

Lemma count_diff_step (data b : bytes) (k : nat) i v :
  length b = length data → (count_diff data b ≤ k)%nat →
  (count_diff data (<[i := v]> b) ≤ S k)%nat.
Proof.
  intros Hlen Hk.
  pose proof (count_diff_triangle data b (<[i := v]> b) ltac:(done)).
  pose proof (count_diff_insert b i v). lia.
Qed.

(** The multi-byte branch: every write falls into the window of [length]
    bytes from [pos]. *)
Lemma boundary_sequence b r lg pos length :
  0 ≤ pos → 0 ≤ length → pos + length ≤ len b →
  wp (for_ (range 0 length) (fun i =>
        let* n := data_len in
        if pos + i <? n then
          let* value := choice 0 boundary_values in
          for_ (range 0 (Z.min 4 (length - i))) (fun j =>
            let* n := data_len in
            if pos + i + j <? n then
              setitem (pos + i + j) (Z.land (Z.shiftr value (j * 8)) 0xFF)
            else ret tt)
        else ret tt))%py
     (MState b r lg)
     (fun _ s' => differs_within (Z.to_nat pos) (Z.to_nat length) b (buf s'))
     no_exn.
Proof.
  intros Hpos Hlength Hfit.
  set (J := fun s : mstate => differs_within (Z.to_nat pos) (Z.to_nat length) b (buf s)).
  apply (wp_for_inv J); [|apply differs_within_refl].
  intros i [b1 r1 lg1] Hi HJ. apply elem_of_range in Hi.
  apply wp_bind, wp_data_len. cbn [buf].
  destruct (pos + i <? len b1); [|done].
  apply wp_bind, wp_choice; [done|]. intros value r2 _.
  apply (wp_for_inv J); [|done].
  intros j [b2 r3 lg3] Hj HJ2. apply elem_of_range in Hj.
  apply wp_bind, wp_data_len. cbn [buf].
  destruct (Z.ltb_spec (pos + i + j) (len b2)); [|done].
  apply wp_setitem; [lia|apply is_byte_land|].
  apply differs_within_insert; [done|lia].
Qed.

Lemma boundary_few_bytes data r lg :
  wp _boundary_value_mutation (MState data r lg)
     (fun out s' =>
        len out = len data ∧ Nat.le (count_diff data out) 27 ∧
        (len data ≤ 10 → out = data ∧ s' = MState data r lg))
     (fun e s' =>
        e = ValueError ∧ 10 < len data ∧ len (buf s') = len data ∧
        Nat.le (count_diff data (buf s')) 19).
Proof.
  unfold _boundary_value_mutation. apply wp_bind, wp_data_len. cbn [buf].
  destruct (Z.ltb_spec 10 (len data)) as [Hn|Hn].
  2:{ apply wp_bind, wp_ret, wp_data_bytes. cbn [buf].
      split; [done|]. rewrite count_diff_refl. split; [unfold Nat.le; lia|done]. }
  apply wp_bind, wp_bind.
  apply wp_randint; [lia|]. intros _ num r1 Hnum.
  set (I := fun (k : nat) (s : mstate) =>
              length (buf s) = length data ∧ Nat.le (count_diff data (buf s)) k).
  set (B := fun s : mstate =>
              length (buf s) = length data ∧ Nat.le (count_diff data (buf s)) 27).
  set (E := fun (e : exn) (s : mstate) =>
              e = ValueError ∧ 10 < len data ∧ len (buf s) = len data ∧
              Nat.le (count_diff data (buf s)) 19).
  eapply wp_mono;
    [apply (wp_for_break_exit I B E _ (range 0 num) 0%nat)| |done].
  - intros i x [b r' lg'] Hx [Hlen Hcount]. cbn [buf Nat.add] in *.
    unfold range in Hx. apply lookup_seqZ in Hx as [_ Hi].
    assert (len b = len data) as Hlen' by (unfold len; lia).
    apply wp_bind, wp_data_len. cbn [buf]. rewrite Hlen'.
    apply wp_bind, wp_randint; [lia|]. intros _ pos r2 Hpos.
    apply wp_bind, wp_random_lt. intros single r3.
    destruct single.
    + apply wp_bind, wp_choice; [done|]. intros c r4 _.
      apply wp_bind, wp_setitem; [lia|apply is_byte_land|].
      apply wp_ret. unfold I. cbv beta iota. cbn [buf].
      split; [by rewrite length_insert|]. by apply count_diff_step.
    + apply wp_bind, wp_data_len. cbn [buf]. rewrite Hlen'.
      apply wp_bind, wp_randint.
      { intros _. unfold E. cbn [buf]. split; [done|]. split; [done|].
        split; [done|]. unfold Nat.le in *. lia. }
      intros _ length r4 Hlength.
      apply wp_bind.
      eapply wp_mono; [apply boundary_sequence; lia| |done].
      intros ? [b' r5 lg5] Hw. apply wp_ret. unfold B. cbv beta iota. cbn [buf] in *.
      pose proof (count_diff_window _ _ _ _ Hw) as Hwin.
      destruct Hw as [Hlen2 _]. split; [lia|].
      pose proof (count_diff_triangle data b b' ltac:(lia)).
      unfold Nat.le in *. lia.
  - unfold I. cbn [buf]. split; [done|]. rewrite count_diff_refl. unfold Nat.le. lia.
  - intros ? s' Hend. unfold I, B in Hend. cbv beta in Hend. apply wp_data_bytes.
    assert (length (buf s') = length data ∧ Nat.le (count_diff data (buf s')) 27)
      as [Hlen Hcount].
    { destruct Hend as [?|[Hlen Hcount]]; [done|]. split; [done|].
      unfold range in Hcount. rewrite length_seqZ in Hcount.
      unfold Nat.le in *. lia. }
    split; [unfold len; lia|]. split; [done|lia].
Qed.

(** [_boundary_value_mutation] changes few bytes: the buffer returned has
    the length of the input and differs from it in at most 27 positions
    (up to 19 single bytes, then one sequence of up to 8 bytes, after which
    the loop ends), whatever is drawn.  When the strategy raises (the empty
    range of [randint] for a sequence at the last byte) it is [ValueError],
    on a buffer of more than 10 bytes, and the bytearray then differs from
    the input in at most 19 positions.  A buffer of 10 bytes or fewer comes
    back unchanged, and nothing is drawn. *)
Theorem boundary_value_changes_few_bytes (data : bytes) (r : nat → Z)
    (lg : list log_record) :
  wp _boundary_value_mutation (MState data r lg)
     (fun out s' =>
        len out = len data ∧ Nat.le (count_diff data out) 27 ∧
        (len data ≤ 10 → out = data ∧ s' = MState data r lg))
     (fun e s' =>
        e = ValueError ∧ 10 < len data ∧ len (buf s') = len data ∧
        Nat.le (count_diff data (buf s')) 19).
Proof. apply boundary_few_bytes. Qed.

(** ** The byte-level strategies through the dispatcher *)

Lemma wp_conj {A} (m : M A) s (Q1 Q2 : A → mstate → Prop)
    (E1 E2 : exn → mstate → Prop) :
  wp m s Q1 E1 → wp m s Q2 E2 →
  wp m s (fun a s' => Q1 a s' ∧ Q2 a s') (fun e s' => E1 e s' ∧ E2 e s').
Proof. unfold wp. by destruct (m s). Qed.

Lemma count_diff_le_length (a b : bytes) : (count_diff a b ≤ length a)%nat.
Proof.
  revert b. induction a as [|x a IH]; intros [|y b]; simpl; try lia.
  specialize (IH b). case_bool_decide; lia.
Qed.

Lemma count_diff_app (a1 a2 b1 b2 : bytes) :
  length a1 = length b1 →
  count_diff (a1 ++ a2) (b1 ++ b2) = (count_diff a1 b1 + count_diff a2 b2)%nat.
Proof.
  revert b1. induction a1 as [|x a1 IH]; intros [|y b1] Hlen; simpl in *; try lia.
  rewrite (IH b1) by lia. lia.
Qed.

Lemma count_diff_with_run (data : bytes) (start k : nat) pattern :
  (start + k ≤ length data)%nat →
  (count_diff data (with_run data start k pattern) ≤ k)%nat.
Proof.
  intros Hle. unfold with_run.
  rewrite <- (take_drop start data) at 1.
  rewrite count_diff_app by done. rewrite count_diff_refl.
  rewrite <- (take_drop k (drop start data)).
  rewrite count_diff_app by (rewrite length_take, length_drop, length_replicate; lia).
  rewrite drop_drop, count_diff_refl.
  pose proof (count_diff_le_length (take k (drop start data)) (replicate k pattern)) as H.
  rewrite length_take, length_drop in H. lia.
Qed.

Lemma bit_flip_few b r lg :
  wf_bytes b → 10 ≤ len b →
  wp _bit_flip_mutation (MState b r lg)
     (fun out _ => length out = length b ∧
                   Z.of_nat (count_diff b out) ≤ Z.min 100 (len b / 10))
     no_exn.
Proof.
  intros Hw Hn.
  eapply wp_mono; [by apply bit_flip_applies_flips| |done].
  intros out s' ->. cbv beta. split; [apply length_apply_flips|].
  pose proof (count_diff_apply_flips (bit_flips b r) b).
  destruct (bit_flips_number b r Hn) as [Hnum _]. unfold len in Hnum at 1 2. lia.
Qed.

Lemma byte_level_dispatch t data r lg :
  wf_bytes data → 10 ≤ len data → 7 ≤ t ≤ 10 →
  wp (try_except (dispatch t)
        (fun _ => logger WARNING MutationFailed ;; _bit_flip_mutation)%py)
     (MState data r lg)
     (fun out _ => len out = len data ∧ wf_bytes out ∧
                   Z.of_nat (count_diff data out) ≤ change_bound t (len data))
     no_exn.
Proof.
  intros Hw Hn Ht. apply wp_try_except.
  assert (keeps (len data) data) as Hk by done.
  assert (0 ≤ len data / 10) by (apply Z.div_pos; lia).
  assert (t = 7 ∨ t = 8 ∨ t = 9 ∨ t = 10) as [->|[->|[->| ->]]] by lia.
  - change (dispatch 7) with _bit_flip_mutation.
    eapply wp_mono;
      [apply wp_conj; [apply (bit_flip_shape (len data)); exact Hk
                      |by apply bit_flip_few]| |].
    + intros out s' [[[Hl Hwf] _] [_ Hc]]. done.
    + by intros e s' [_ ?].
  - change (dispatch 8) with _boundary_value_mutation.
    eapply wp_mono;
      [apply wp_conj; [apply (boundary_shape (len data)); exact Hk
                      |apply boundary_few_bytes]| |].
    + intros out s' [[[Hl Hwf] _] (_ & Hc & _)]. cbv beta.
      split; [done|]. split; [done|]. unfold change_bound, Nat.le in *. cbn. lia.
    + intros e [b' r' lg'] [(_ & [Hl' Hw'] & _) (_ & _ & _ & Hc)]. cbn [buf] in *.
      apply wp_bind, wp_logger. cbn [buf rnd logged].
      eapply wp_mono;
        [apply wp_conj; [apply (bit_flip_shape (len data)); by split
                        |apply bit_flip_few; [done|lia]]| |].
      * intros out s' [[[Hl Hwf] _] [Hlen Hflips]]. cbv beta.
        split; [done|]. split; [done|].
        pose proof (count_diff_triangle data b' out ltac:(unfold len in *; lia)).
        rewrite Hl' in Hflips. unfold change_bound, Nat.le in *. cbn. lia.
      * intros e' s' [(_ & _ & Hlt) _]. lia.
  - change (dispatch 9) with _repeat_byte_mutation.
    eapply wp_mono;
      [apply wp_conj; [apply (repeat_byte_shape (len data)); exact Hk
                      |apply repeat_byte_run]| |].
    + intros out s' [[[Hl Hwf] _] Hrun]. cbv beta.
      split; [done|]. split; [done|]. unfold change_bound. cbn.
      destruct (20 <? len data).
      * destruct Hrun as (pattern & start & length & _ & _ & _ & Hle & Hfit & ->).
        pose proof (count_diff_with_run data start length pattern Hfit).
        unfold Nat.le in *. lia.
      * destruct Hrun as [-> _]. rewrite count_diff_refl. lia.
    + by intros e s' [[] _].
  - change (dispatch 10) with _arithmetic_mutation.
    eapply wp_mono;
      [apply wp_conj; [apply (arithmetic_shape (len data)); exact Hk
                      |by apply arithmetic_one_byte]| |].
    + intros out s' [[[Hl Hwf] _] Hone]. cbv beta.
      split; [done|]. split; [done|]. unfold change_bound. cbn.
      destruct (10 <? len data).
      * destruct Hone as (pos & op & value & b & _ & _ & _ & Hle & _).
        unfold Nat.le in *. lia.
      * destruct Hone as [-> _]. rewrite count_diff_refl. lia.
    + by intros e s' [[] _].
Qed.

(** The four byte-level strategies change few bytes, also through the
    [try]/[except] of the dispatcher: when [mutate_zip_structure] draws one
    of them for a buffer of at least 10 bytes it returns a well-formed
    buffer of the same length that differs from the input in at most
    min(100, L/10) positions for bit flips, 50 for a repeated byte, 1 for
    arithmetic, and for boundary values 27 or, when that strategy raised and
    the bit-flip fallback ran on the bytes it had already changed,
    19 + min(100, L/10); so never in more than 119 positions. *)
Theorem byte_level_strategies_change_few_bytes (data : bytes) (s : mstate) :
  wf_bytes data → 10 ≤ len data → 7 ≤ mutation_type s ≤ 10 →
  ∃ out s',
    mutate_zip_structure data s = Ret out s' ∧
    len out = len data ∧ wf_bytes out ∧
    Z.of_nat (count_diff data out) ≤ change_bound (mutation_type s) (len data) ∧
    change_bound (mutation_type s) (len data) ≤ 119.
Proof.
  intros Hw Hn Ht.
  assert (wp (mutate_zip_structure data) s
            (fun out _ => len out = len data ∧ wf_bytes out ∧
                          Z.of_nat (count_diff data out)
                            ≤ change_bound (mutation_type s) (len data))
            no_exn) as H.
  { unfold mutate_zip_structure. destruct (Z.eqb_spec (len data) 0); [lia|].
    apply wp_bind, wp_new_bytearray, wp_bind, wp_randint_exact; [lia|].
    cbn [buf rnd logged]. change (10 - 1 + 1) with 10. fold (mutation_type s).
    by apply byte_level_dispatch. }
  apply wp_Ret in H as (out & s' & Hrun & Hl & Hwf & Hc).
  exists out, s'. split; [done|]. split; [done|]. split; [done|]. split; [done|].
  assert (0 ≤ len data / 10) by (apply Z.div_pos; lia).
  unfold change_bound.
  destruct (mutation_type s =? 7); [lia|].
  destruct (mutation_type s =? 8); [lia|].
  destruct (mutation_type s =? 9); lia.
Qed.

Lemma byte_level_strategies_change_few_bytes_witness :
  ∃ out s',
    mutate_zip_structure (replicate 30 65) (MState [] (tape [7; 4; 3; 5; 1]) [])
      = Ret out s' ∧
    len out = 30 ∧ wf_bytes out ∧
    Z.of_nat (count_diff (replicate 30 65) out) ≤ 27 ∧ 27 ≤ 119.
Proof.
  apply (byte_level_strategies_change_few_bytes (replicate 30 65)
           (MState [] (tape [7; 4; 3; 5; 1]) [])).
  - repeat constructor; unfold is_byte; lia.
  - vm_compute. discriminate.
  - vm_compute. split; discriminate.
Defined.

(** ** What is archived *)

(** *** The engine does not read the log *)

Lemma blind_ret {A} (a : A) : log_blind (ret a).
Proof. by intros s s' H. Qed.

Lemma blind_raise {A} e : log_blind (@raise A e).
Proof. by intros s s' H. Qed.

Lemma blind_bind {A B} (m : M A) (k : A → M B) :
  log_blind m → (∀ a, log_blind (k a)) → log_blind (bind m k).
Proof.
  intros Hm Hk s s' H. unfold bind. specialize (Hm s s' H).
  destruct (m s) as [a t|e t|], (m s') as [a' t'|e' t'|]; try done.
  destruct Hm as [<- Ht]. by apply Hk.
Qed.

Lemma blind_try_except {A} (m : M A) h :
  log_blind m → (∀ e, log_blind (h e)) → log_blind (try_except m h).
Proof.
  intros Hm Hh s s' H. unfold try_except. specialize (Hm s s' H).
  destruct (m s) as [a t|e t|], (m s') as [a' t'|e' t'|]; try done.
  destruct Hm as [<- Ht]. by apply Hh.
Qed.

Lemma blind_for {A} (l : list A) (body : A → M unit) :
  (∀ x, log_blind (body x)) → log_blind (for_ l body).
Proof.
  intros Hbody. induction l as [|x l IH]; [apply blind_ret|].
  change (for_ (x :: l) body) with (bind (body x) (fun _ => for_ l body)).
  by apply blind_bind.
Qed.

Lemma blind_for_break {A} (l : list A) (body : A → M bool) :
  (∀ x, log_blind (body x)) → log_blind (for_break l body).
Proof.
  intros Hbody. induction l as [|x l IH]; [apply blind_ret|].
  change (for_break (x :: l) body)
    with (bind (body x) (fun c => if c : bool then ret tt else for_break l body)).
  apply blind_bind; [done|]. intros []; [apply blind_ret|done].
Qed.

Lemma while_unfold {A} fuel (cond : A → mstate → bool) (body : A → M A) a s :
  while_ fuel cond body a s
  = if cond a s then
      match fuel with
      | O => Diverge
      | S f => bind (body a) (while_ f cond body) s
      end
    else Ret a s.
Proof. by destruct fuel. Qed.

Lemma blind_while {A} (cond : A → mstate → bool) (body : A → M A) :
  (∀ a s s', same_engine s s' → cond a s = cond a s') →
  (∀ a, log_blind (body a)) →
  ∀ fuel a, log_blind (while_ fuel cond body a).
Proof.
  intros Hcond Hbody. induction fuel as [|fuel IH]; intros a s s' H;
    rewrite !while_unfold, <- (Hcond a s s' H); destruct (cond a s); try done.
  by apply (blind_bind (body a) (while_ fuel cond body)).
Qed.

Lemma blind_with_fuel {A} (m : nat → M A) :
  (∀ fuel, log_blind (m fuel)) → log_blind (with_fuel m).
Proof.
  intros Hm s s' H. unfold with_fuel. destruct H as [Hb Hr]. rewrite <- Hb.
  by apply Hm.
Qed.

Lemma blind_draw : log_blind draw.
Proof. intros s s' [Hb Hr]. unfold draw. rewrite Hb, Hr. by split. Qed.

Lemma blind_randint a b : log_blind (randint a b).
Proof.
  unfold randint. destruct (b <? a); [apply blind_raise|].
  apply blind_bind; [apply blind_draw|]. intros r. apply blind_ret.
Qed.

Lemma blind_random_lt p : log_blind (random_lt p).
Proof.
  unfold random_lt. apply blind_bind; [apply blind_draw|]. intros r. apply blind_ret.
Qed.

Lemma blind_choice {A} (d : A) l : log_blind (choice d l).
Proof.
  unfold choice. destruct l; [apply blind_raise|].
  apply blind_bind; [apply blind_draw|]. intros r. apply blind_ret.
Qed.

Lemma blind_urandom n : log_blind (urandom n).
Proof.
  induction n as [|n IH]; simpl; [apply blind_ret|].
  apply blind_bind; [apply blind_draw|]. intros r.
  apply blind_bind; [done|]. intros rest. apply blind_ret.
Qed.

Lemma blind_os_urandom n : log_blind (os_urandom n).
Proof.
  unfold os_urandom. destruct (n <? 0); [apply blind_raise|apply blind_urandom].
Qed.

Lemma blind_data_len : log_blind data_len.
Proof. intros s s' [Hb Hr]. unfold data_len. by rewrite Hb. Qed.

Lemma blind_data_bytes : log_blind data_bytes.
Proof. intros s s' [Hb Hr]. unfold data_bytes. by rewrite Hb. Qed.

Lemma blind_getitem i : log_blind (getitem i).
Proof.
  intros s s' [Hb Hr]. unfold getitem. rewrite <- Hb.
  by destruct (index (len (buf s)) i).
Qed.

Lemma blind_setitem i v : log_blind (setitem i v).
Proof.
  intros s s' [Hb Hr]. unfold setitem. rewrite <- Hb.
  destruct (index (len (buf s)) i); [|done].
  by destruct ((0 <=? v) && (v <? 256)).
Qed.

Lemma blind_sig_at pos signature : log_blind (sig_at pos signature).
Proof. intros s s' [Hb Hr]. unfold sig_at. by rewrite Hb. Qed.

Lemma blind_new_bytearray data : log_blind (new_bytearray data).
Proof. intros s s' [Hb Hr]. unfold new_bytearray. by split. Qed.

Lemma blind_logger l m : log_blind (logger l m).
Proof. by intros s s' [Hb Hr]. Qed.

Lemma scan_cond_blind K (pos : Z) s s' :
  same_engine s s' → (pos <? len (buf s) - K) = (pos <? len (buf s') - K).
Proof. intros [Hb _]. by rewrite Hb. Qed.

Ltac blind_step :=
  lazymatch goal with
  | |- log_blind (bind _ _) => apply blind_bind; [|intros ?]
  | |- log_blind (ret _) => apply blind_ret
  | |- log_blind (raise _) => apply blind_raise
  | |- log_blind (try_except _ _) => apply blind_try_except; [|intros ?]
  | |- log_blind (for_ _ _) => apply blind_for; intros ?
  | |- log_blind (for_break _ _) => apply blind_for_break; intros ?
  | |- log_blind (with_fuel _) => apply blind_with_fuel; intros ?
  | |- log_blind (while_ _ _ _ _) =>
      apply blind_while; [intros ? ? ?; apply scan_cond_blind|intros ?]
  | |- log_blind draw => apply blind_draw
  | |- log_blind (randint _ _) => apply blind_randint
  | |- log_blind (random_lt _) => apply blind_random_lt
  | |- log_blind (choice _ _) => apply blind_choice
  | |- log_blind (os_urandom _) => apply blind_os_urandom
  | |- log_blind data_len => apply blind_data_len
  | |- log_blind data_bytes => apply blind_data_bytes
  | |- log_blind (getitem _) => apply blind_getitem
  | |- log_blind (setitem _ _) => apply blind_setitem
  | |- log_blind (sig_at _ _) => apply blind_sig_at
  | |- log_blind (new_bytearray _) => apply blind_new_bytearray
  | |- log_blind (logger _ _) => apply blind_logger
  | |- log_blind (if ?c then _ else _) => destruct c
  | |- log_blind (match ?o with _ => _ end) => destruct o
  end.

Ltac blind := repeat (blind_step; cbv beta).

Lemma bit_flip_blind : log_blind _bit_flip_mutation.
Proof. unfold _bit_flip_mutation. blind. Qed.

Lemma dispatch_blind t : log_blind (dispatch t).
Proof.
  unfold dispatch.
  repeat (lazymatch goal with |- log_blind (if ?c then _ else _) => destruct c end).
  - unfold _corrupt_local_headers. blind.
  - unfold _corrupt_central_directory. blind.
  - unfold _mutate_compression_methods. blind.
  - unfold _corrupt_crc_values. blind.
  - unfold _mutate_file_sizes. blind.
  - unfold _inject_random_headers. blind.
  - apply bit_flip_blind.
  - unfold _boundary_value_mutation. blind.
  - unfold _repeat_byte_mutation. blind.
  - unfold _arithmetic_mutation. blind.
Qed.

(** [mutate_zip_structure] writes to the log and never reads it. *)
Lemma mutate_blind data : log_blind (mutate_zip_structure data).
Proof.
  unfold mutate_zip_structure. destruct (len data =? 0); [apply blind_ret|].
  apply blind_bind; [apply blind_new_bytearray|]. intros _.
  apply blind_bind; [apply blind_randint|]. intros t.
  apply blind_try_except; [apply dispatch_blind|]. intros _.
  apply blind_bind; [apply blind_logger|]. intros _. apply bit_flip_blind.
Qed.

Lemma mutate_on_empty_log base r lg :
  match mutate_zip_structure base (MState [] r lg),
        mutate_zip_structure base (MState [] r []) with
  | Ret d m, Ret d0 m0 => d0 = d ∧ rnd m0 = rnd m
  | Raise _ m, Raise _ m0 => rnd m0 = rnd m
  | Diverge, Diverge => True
  | _, _ => False
  end.
Proof.
  pose proof (mutate_blind base (MState [] r lg) (MState [] r []) ltac:(by split)) as H.
  destruct (mutate_zip_structure base (MState [] r lg)) as [d m|e m|],
           (mutate_zip_structure base (MState [] r [])) as [d0 m0|e0 m0|]; try done.
  - destruct H as [-> [_ ->]]. done.
  - destruct H as [_ [_ ->]]. done.
Qed.

(** *** The candidates of a run *)

Lemma mutate_gives_mutant base s out m :
  wf_bytes base → mutate_zip_structure base s = Ret out m → mutant_of base out.
Proof.
  intros Hw Hrun. pose proof (mutate_shape base s Hw) as H. unfold wp in H.
  rewrite Hrun in H. destruct (Z.eqb_spec (len base) 0) as [H0|H0].
  - subst out. split; [done|lia].
  - destruct H as [Hwf Hl]. split; [done|].
    destruct ((mutation_type s =? 6) && (len base <? 5000)); lia.
Qed.

Lemma candidate_of_run base tp (k : nat) lg d m :
  mutate_zip_structure base (MState [] (tape_before base tp k) lg) = Ret d m →
  candidate base tp (Z.of_nat k + 1) = Some d ∧ tape_before base tp (S k) = rnd m.
Proof.
  intros Hrun. unfold candidate.
  replace (Z.to_nat (Z.of_nat k + 1 - 1)) with k by lia. cbn [tape_before].
  pose proof (mutate_on_empty_log base (tape_before base tp k) lg) as H.
  rewrite Hrun in H.
  destruct (mutate_zip_structure base (MState [] (tape_before base tp k) []))
    as [d0 m0|e0 m0|]; [|done|done].
  by destruct H as [-> ->].
Qed.

Lemma fuzz_loop_archives_candidates decode env base tp :
  wf_bytes base →
  ∀ (n : nat) s (k : nat),
    random s = tape_before base tp k →
    Forall (fun r => candidate base tp (cr_iteration r) = Some (cr_data r) ∧
                     mutant_of base (cr_data r)) (crash_records s) →
    ∀ why s',
      fuzz_loop decode env base (seqZ (Z.of_nat k + 1) (Z.of_nat n)) s = (why, s') →
      Forall (fun r => candidate base tp (cr_iteration r) = Some (cr_data r) ∧
                       mutant_of base (cr_data r)) (crash_records s').
Proof.
  intros Hw. induction n as [|n IH]; intros s k Hrand Hrec why s' Hrun.
  { rewrite seqZ_nil in Hrun by done. by injection Hrun as <- <-. }
  rewrite seqZ_cons in Hrun by lia.
  replace (Z.pred (Z.of_nat (S n))) with (Z.of_nat n) in Hrun by lia.
  replace (Z.succ (Z.of_nat k + 1)) with (Z.of_nat (S k) + 1) in Hrun by lia.
  set (i := Z.of_nat k + 1) in *.
  cbn [fuzz_loop] in Hrun.
  change (random (set_iteration_count i s)) with (random s) in Hrun.
  change (log (set_iteration_count i s)) with (log s) in Hrun.
  rewrite Hrand in Hrun.
  destruct (mutate_zip_structure base (MState [] (tape_before base tp k) (log s)))
    as [mutated_data m|e m|] eqn:Hmut;
    [|by injection Hrun as <- <- ..].
  destruct (candidate_of_run base tp k (log s) mutated_data m Hmut) as [Hcand Htape].
  pose proof (mutate_gives_mutant base _ _ _ Hw Hmut) as Hmutant.
  assert (∀ s1, random s1 = rnd m →
                Forall (fun r => candidate base tp (cr_iteration r) = Some (cr_data r) ∧
                                 mutant_of base (cr_data r)) (crash_records s1) →
                (if 50 <=? crash_count s1 then (EarlyLimit, add_log INFO StoppingEarly s1)
                 else fuzz_loop decode env base (seqZ (Z.of_nat (S k) + 1) (Z.of_nat n)) s1)
                = (why, s') →
                Forall (fun r => candidate base tp (cr_iteration r) = Some (cr_data r) ∧
                                 mutant_of base (cr_data r)) (crash_records s')) as Hstep.
  { intros s1 Hr1 Hrec1 Hrun1. destruct (50 <=? crash_count s1).
    - by injection Hrun1 as <- <-.
    - apply (IH s1 (S k)) in Hrun1; [done| |done]. by rewrite Hr1, Htape. }
  destruct (temp_file_written (env i)); [|by injection Hrun as <- <-].
  destruct (run_7zip_test decode i (tool (env i))) as [[crash_detected pr] recs].
  destruct crash_detected.
  - unfold save_crash in Hrun. destruct (crash_dir_made (env i)).
    + rewrite orb_true_r in Hrun.
      destruct (crash_files_written (env i));
        (refine (Hstep _ _ _ Hrun); [done|]; cbn;
         apply Forall_app; split; [done|]; by constructor).
    + by injection Hrun as <- <-.
  - rewrite orb_false_r in Hrun.
    destruct (i mod 100 =? 0); by refine (Hstep _ _ _ Hrun).
Qed.

(** Mutations do not pile up: every iteration mutates the seed as it was
    read at the start, not the output of the turn before.  The input
    archived in the crash directory of iteration [i] is exactly what
    [mutate_zip_structure] returns for the seed on the tape as the
    iterations before [i] have left it; so it is a well-formed buffer, at
    least as long as the seed and at most 104 bytes longer, however many
    iterations have run. *)
Theorem archived_inputs_are_one_mutation_from_the_seed (decode : bytes → string)
    (self : fuzzer) (iterations : Z) (env : Z → io_env)
    (disk : gmap string bytes) (tp : nat → Z) (base : bytes) :
  disk !! base_zip_path self = Some base → wf_bytes base →
  ∃ why s',
    fuzz decode self iterations env (initial disk tp) = Some (why, s') ∧
    Forall (fun r => candidate base tp (cr_iteration r) = Some (cr_data r) ∧
                     mutant_of base (cr_data r)) (crash_records s').
Proof.
  intros Hbase Hw. unfold fuzz. rewrite open_rb_initial, Hbase.
  set (s0 := add_log INFO (BaseZipLoaded (len base))
               (add_log INFO (StartingFuzzing iterations) (initial disk tp))).
  destruct (fuzz_loop decode env base (range 1 (iterations + 1)) s0)
    as [why s1] eqn:Hrun.
  exists why. eexists. split; [done|].
  unfold range in Hrun. replace (iterations + 1 - 1) with iterations in Hrun by lia.
  assert (seqZ 1 iterations
          = seqZ (Z.of_nat 0 + 1) (Z.of_nat (Z.to_nat iterations))) as Hseq.
  { destruct (Z.le_gt_cases iterations 0).
    - rewrite !seqZ_nil; [done|lia|done].
    - by rewrite Z2Nat.id by lia. }
  rewrite Hseq in Hrun.
  apply (fuzz_loop_archives_candidates decode env base tp Hw) in Hrun;
    [|done|by constructor].
  by destruct why.
Qed.

Lemma archived_inputs_are_one_mutation_from_the_seed_witness :
  ∃ why s',
    fuzz decode_ascii sample_fuzzer 3 always_timeout (initial sample_disk (tape [5]))
      = Some (why, s') ∧
    Forall (fun r => candidate sample_seed (tape [5]) (cr_iteration r) = Some (cr_data r) ∧
                     mutant_of sample_seed (cr_data r)) (crash_records s').
Proof.
  apply (archived_inputs_are_one_mutation_from_the_seed decode_ascii sample_fuzzer 3
           always_timeout sample_disk (tape [5]) sample_seed).
  - reflexivity.
  - repeat constructor; unfold is_byte; lia.
Defined.
